(** * jsonappender: append-style JSON encoders

    A shallow embedding of [jsonappender.go] and of the parts of the Go
    runtime it calls ([strconv], [unicode/utf8], [time], [bufio]), followed
    by the properties of the encoders.

    Conventions.
    - A Go [string] or [[]byte] is a [list byte]; [append(buf, x...)] is
      [buf ++ x]; [s[lo:hi]] is [slice s lo hi].
    - Go integers are [Z]; conversions that wrap are written out.
    - A Go [error] is its message; [nil] is [None].
    - The scan loop of [String] has no post statement, so it is modelled
      as a body iterated under a bound on the number of iterations;
      [None] means that the bound was reached before the loop exited. *)

From Stdlib Require Import ZArith List Lia Bool String Ascii.
From Stdlib Require Import Strings.Byte.
Import ListNotations.
Local Open Scope Z_scope.

(** ** Bytes, slices, errors *)

Definition bytes := list byte.

Definition str (s : string) : bytes := list_byte_of_string s.

Definition byteZ (b : byte) : Z := Z.of_N (Byte.to_N b).

Definition Zbyte (z : Z) : byte :=
  match Byte.of_N (Z.to_N (z mod 256)) with
  | Some b => b
  | None => x00
  end.

(** [s[lo:hi]] *)
Definition slice (s : bytes) (lo hi : nat) : bytes :=
  firstn (hi - lo) (skipn lo s).

(** [len(s)] *)
Definition len (s : bytes) : nat := List.length s.

(** [s[i]], read only under a bounds check in the source *)
Definition index (s : bytes) (i : nat) : byte := nth i s x00.

Definition error := string.

(** The double quote, which has no literal of its own here. *)
Definition quote : byte := x22.

(** ** float64

    A [float64] is its IEEE-754 binary64 bit pattern
    ([math.Float64bits]), a 64-bit [Z]: sign bit 63, biased exponent in
    bits 62..52, fraction in bits 51..0. *)

Definition float64 := Z.

Definition is_float64 (f : float64) : Prop := 0 <= f < 2 ^ 64.

Module math.

Definition signbit (f : float64) : bool := negb (Z.shiftr f 63 =? 0).

(** The bit pattern without its sign. *)
Definition magnitude (f : float64) : Z := Z.ldiff f (Z.shiftl 1 63).

Definition isnan (f : float64) : bool := 0x7FF0000000000000 <? magnitude f.

(** The comparisons of the language on two floats: an order key that
    identifies the two zeros, and no NaN compares to anything. *)
Definition key (f : float64) : Z :=
  if signbit f then - magnitude f else magnitude f.

Definition lt (a b : float64) : bool :=
  negb (isnan a) && negb (isnan b) && (key a <? key b).

Definition eq (a b : float64) : bool :=
  negb (isnan a) && negb (isnan b) && (key a =? key b).

Definition ge (a b : float64) : bool :=
  negb (isnan a) && negb (isnan b) && (key b <=? key a).

Definition MaxFloat64 : float64 := 0x7FEFFFFFFFFFFFFF.

(** Unary minus flips the sign bit. *)
Definition neg (f : float64) : float64 := Z.lxor f (Z.shiftl 1 63).

(** [return f != f] *)
Definition IsNaN (f : float64) : bool := negb (eq f f).

(** [return sign >= 0 && f > MaxFloat64 || sign <= 0 && f < -MaxFloat64] *)
Definition IsInf (f : float64) (sign : Z) : bool :=
  (0 <=? sign) && lt MaxFloat64 f || (sign <=? 0) && lt f (neg MaxFloat64).

(** [Float64frombits(Float64bits(x) &^ (1 << 63))] *)
Definition Abs (x : float64) : float64 := Z.ldiff x (Z.shiftl 1 63).

End math.

(** The constants [0], [1e-6] and [1e21] of [Float64], as the compiler
    converts them: the nearest [float64]. *)
Definition float_0 : float64 := 0.
Definition float_1e_6 : float64 := 0x3EB0C6F7A0B5ED8D.
Definition float_1e21 : float64 := 0x444B1AE4D6E2EF50.

(** ** strconv *)

Module strconv.

(** *** Integers *)

(** The digit loop of [formatBits] for base 10: the least significant
    digit is produced first and written from the right.  A [uint64]
    has at most twenty decimal digits. *)
Fixpoint digits_loop (n : nat) (u : Z) (a : bytes) : bytes :=
  match n with
  | O => a
  | S n' =>
      if u <? 10 then Zbyte (u + 48) :: a
      else digits_loop n' (u / 10) (Zbyte (u mod 10 + 48) :: a)
  end.

(** [formatBits(nil, u, 10, neg, false)]: [u] is the value reinterpreted
    as [uint64]; when [neg] it is negated in [uint64] arithmetic. *)
Definition formatBits (u : Z) (neg : bool) : bytes :=
  let u := if neg then (- u) mod 2 ^ 64 else u in
  let a := digits_loop 20 u [] in
  if neg then "-"%byte :: a else a.

(** [uint64(i)] for an [int64] *)
Definition uint64_of_int64 (i : Z) : Z := i mod 2 ^ 64.

Definition FormatUint (i : Z) : bytes := formatBits i false.

Definition FormatInt (i : Z) : bytes :=
  formatBits (uint64_of_int64 i) (i <? 0).

(** *** Floats *)

Definition mantbits : Z := 52.
Definition expbits : Z := 11.
Definition bias : Z := -1023.

(** The head of [genericFtoa]: sign, mantissa and binary exponent of a
    bit pattern; the value is [mant * 2^(exp - mantbits)]. *)
Definition ftoa_neg (b : Z) : bool :=
  negb (Z.shiftr b (expbits + mantbits) =? 0).

Definition ftoa_rawexp (b : Z) : Z :=
  Z.land (Z.shiftr b mantbits) (Z.shiftl 1 expbits - 1).

Definition ftoa_rawmant (b : Z) : Z :=
  Z.land b (Z.shiftl 1 mantbits - 1).

Definition ftoa_mant (b : Z) : Z :=
  if ftoa_rawexp b =? 0 then ftoa_rawmant b
  else Z.lor (ftoa_rawmant b) (Z.shiftl 1 mantbits).

Definition ftoa_exp (b : Z) : Z :=
  (if ftoa_rawexp b =? 0 then ftoa_rawexp b + 1 else ftoa_rawexp b) + bias.

(** [decimalSlice]: the digits [d] and the position [dp] of the decimal
    point; the value is [0.d * 10^dp], and [nd] is [len d]. *)
Record decimalSlice := mkDecimal { d : bytes; dp : Z }.

Definition nd (digs : decimalSlice) : Z := Z.of_nat (len (d digs)).

(** **** Shortest digits

    With a negative precision [genericFtoa] asks [ryuFtoaShortest] for
    the shortest decimal that parses back to the float, the closest to
    the float when several have that length and the even one of two that
    are as close.  The digit generator is modelled by this contract, in
    exact integer arithmetic.

    For the positive float [mant * 2^e2], [-1074 <= e2], the numbers
    that round to it are those between the midpoints to its two
    neighbours, the midpoints included when [mant] is even.  [mid],
    [lower] and [upper] are the float and the two midpoints, all three
    scaled by [2^1076]. *)
Definition scale : Z := 1076.

Definition mid (mant e2 : Z) : Z := 4 * mant * 2 ^ (e2 + 1074).

Definition upper (mant e2 : Z) : Z := (4 * mant + 2) * 2 ^ (e2 + 1074).

Definition lower (mant e2 : Z) : Z :=
  if (mant =? 2 ^ 52) && (-1074 <? e2)
  then (4 * mant - 1) * 2 ^ (e2 + 1074)
  else (4 * mant - 2) * 2 ^ (e2 + 1074).

Definition inclusive (mant : Z) : bool := Z.even mant.

(** The decimal [c * 10^k] is inside the interval when
    [lower * P <= c * U <= upper * P] (strictly, when the bounds are
    excluded), with [P] and [U] as follows. *)
Definition P10 (k : Z) : Z := 10 ^ Z.max (- k) 0.
Definition U10 (k : Z) : Z := 2 ^ scale * 10 ^ Z.max k 0.

Definition in_interval (mant e2 c k : Z) : bool :=
  if inclusive mant
  then (lower mant e2 * P10 k <=? c * U10 k)
       && (c * U10 k <=? upper mant e2 * P10 k)
  else (lower mant e2 * P10 k <? c * U10 k)
       && (c * U10 k <? upper mant e2 * P10 k).

(** The least and the greatest [c] with [c * 10^k] inside. *)
Definition cand_lo (mant e2 k : Z) : Z :=
  let a := lower mant e2 * P10 k in
  if inclusive mant then - ((- a) / U10 k) else a / U10 k + 1.

Definition cand_hi (mant e2 k : Z) : Z :=
  let a := upper mant e2 * P10 k in
  if inclusive mant then a / U10 k else - ((- a) / U10 k) - 1.

(** The multiple of [10^k] nearest to the float; when the float is half
    way between two of them, the even one, as [ryuDigits32] rounds. *)
Definition cand_near (mant e2 k : Z) : Z :=
  let a := mid mant e2 * P10 k in
  let q := a / U10 k in
  let r := a mod U10 k in
  if 2 * r <? U10 k then q
  else if U10 k <? 2 * r then q + 1
  else if Z.even q then q else q + 1.

Definition candidate (mant e2 k : Z) : option Z :=
  let lo := cand_lo mant e2 k in
  let hi := cand_hi mant e2 k in
  if lo <=? hi then Some (Z.max lo (Z.min hi (cand_near mant e2 k)))
  else None.

(** The decimal digits of a natural number. *)
Definition digits (c : Z) : bytes :=
  digits_loop (S (Z.to_nat (Z.log2 c))) c [].

(** The coarsest [10^k] with a multiple inside, from [10^k] downwards.
    At [10^-1076] the float itself is a multiple. *)
Fixpoint search (n : nat) (mant e2 k : Z) : Z * Z :=
  match candidate mant e2 k with
  | Some c => (c, k)
  | None =>
      match n with
      | O => (mid mant e2 * 5 ^ scale, - scale)
      | S n' => search n' mant e2 (k - 1)
      end
  end.

(** No multiple of [10^k] is inside the interval once [10^k] exceeds
    [upper]: the search starts at the number of digits of the integer
    part of [upper]. *)
Definition search_from (mant e2 : Z) : Z :=
  Z.of_nat (len (digits (Z.shiftr (upper mant e2) scale))).

Definition shortest (mant e2 : Z) : Z * Z :=
  let k0 := search_from mant e2 in
  search (Z.to_nat (k0 + scale)) mant e2 k0.

(** [ryuFtoaShortest(&digs, mant, exp - mantbits)] *)
Definition ryuFtoaShortest (mant e2 : Z) : decimalSlice :=
  if mant =? 0 then mkDecimal [] 0
  else
    let '(c, k) := shortest mant e2 in
    let ds := digits c in
    mkDecimal ds (Z.of_nat (len ds) + k).

(** [%e]: d.ddddde+-dd *)
Definition fmtE (dst : bytes) (neg : bool) (digs : decimalSlice)
           (prec : Z) (fmt : byte) : bytes :=
  let dst := if neg then dst ++ ["-"%byte] else dst in
  let ch := if nd digs =? 0 then "0"%byte else index (d digs) 0 in
  let dst := dst ++ [ch] in
  let dst :=
    if 0 <? prec then
      let dst := dst ++ ["."%byte] in
      let m := Z.min (nd digs) (prec + 1) in
      let dst := if 1 <? m then dst ++ slice (d digs) 1 (Z.to_nat m) else dst in
      let i := if 1 <? m then m else 1 in
      dst ++ repeat "0"%byte (Z.to_nat (prec + 1 - i))
    else dst in
  let dst := dst ++ [fmt] in
  let exp := if nd digs =? 0 then 0 else dp digs - 1 in
  let ch := if exp <? 0 then "-"%byte else "+"%byte in
  let exp := if exp <? 0 then - exp else exp in
  let dst := dst ++ [ch] in
  if exp <? 10 then dst ++ ["0"%byte; Zbyte (exp + 48)]
  else if exp <? 100 then
    dst ++ [Zbyte (exp / 10 + 48); Zbyte (exp mod 10 + 48)]
  else
    dst ++ [Zbyte (exp / 100 + 48); Zbyte ((exp / 10) mod 10 + 48);
            Zbyte (exp mod 10 + 48)].

(** The fraction loop of [fmtF], from [i] on. *)
Fixpoint fmtF_frac (n : nat) (i : Z) (digs : decimalSlice) : bytes :=
  match n with
  | O => []
  | S n' =>
      let j := dp digs + i in
      (if (0 <=? j) && (j <? nd digs) then index (d digs) (Z.to_nat j)
       else "0"%byte) :: fmtF_frac n' (i + 1) digs
  end.

(** [%f]: ddddddd.ddddd *)
Definition fmtF (dst : bytes) (neg : bool) (digs : decimalSlice)
           (prec : Z) : bytes :=
  let dst := if neg then dst ++ ["-"%byte] else dst in
  let dst :=
    if 0 <? dp digs then
      let m := Z.min (nd digs) (dp digs) in
      dst ++ slice (d digs) 0 (Z.to_nat m)
          ++ repeat "0"%byte (Z.to_nat (dp digs - m))
    else dst ++ ["0"%byte] in
  if 0 <? prec then
    dst ++ ["."%byte] ++ fmtF_frac (Z.to_nat prec) 0 digs
  else dst.

(** The names [genericFtoa] gives to the special values. *)
Definition special (b : Z) : string :=
  if negb (ftoa_rawmant b =? 0) then "NaN"%string
  else if ftoa_neg b then "-Inf"%string
  else "+Inf"%string.

(** [AppendFloat(dst, f, fmt, -1, 64)] for [fmt] one of ['e'], ['f']. *)
Definition AppendFloat (dst : bytes) (f : float64) (fmt : byte) : bytes :=
  if ftoa_rawexp f =? Z.shiftl 1 expbits - 1 then dst ++ str (special f)
  else
    let mant := ftoa_mant f in
    let exp := ftoa_exp f in
    let digs := ryuFtoaShortest mant (exp - mantbits) in
    if Byte.eqb fmt "e"%byte then
      fmtE dst (ftoa_neg f) digs (Z.max (nd digs - 1) 0) fmt
    else
      fmtF dst (ftoa_neg f) digs (Z.max (nd digs - dp digs) 0).

(** [FormatFloat(f, 'g', -1, 64)], used for the special values only. *)
Definition FormatFloat_special (f : float64) : string := special f.

End strconv.

(** ** unicode/utf8 *)

Module utf8.

Definition RuneError : Z := 0xFFFD.
Definition RuneSelf : Z := 0x80.

Definition locb : Z := 0x80.
Definition hicb : Z := 0xBF.
Definition maskx : Z := 0x3F.
Definition mask2 : Z := 0x1F.
Definition mask3 : Z := 0x0F.
Definition mask4 : Z := 0x07.

Definition xx : Z := 0xF1.
Definition as_ : Z := 0xF0.
Definition s1 : Z := 0x02.
Definition s2 : Z := 0x13.
Definition s3 : Z := 0x03.
Definition s4 : Z := 0x23.
Definition s5 : Z := 0x34.
Definition s6 : Z := 0x04.
Definition s7 : Z := 0x44.

(** The table [first], by ranges of the leading byte. *)
Definition first (b : Z) : Z :=
  if b <? 0x80 then as_
  else if b <? 0xC2 then xx
  else if b <? 0xE0 then s1
  else if b =? 0xE0 then s2
  else if b <? 0xED then s3
  else if b =? 0xED then s4
  else if b <? 0xF0 then s3
  else if b =? 0xF0 then s5
  else if b <? 0xF4 then s6
  else if b =? 0xF4 then s7
  else xx.

(** [acceptRanges[k]] as a pair (lo, hi) *)
Definition acceptRanges (k : Z) : Z * Z :=
  if k =? 0 then (locb, hicb)
  else if k =? 1 then (0xA0, hicb)
  else if k =? 2 then (locb, 0x9F)
  else if k =? 3 then (0x90, hicb)
  else if k =? 4 then (locb, 0x8F)
  else (0, 0).

Definition DecodeRuneInString (s : bytes) : Z * nat :=
  match s with
  | [] => (RuneError, 0%nat)
  | b0 :: _ =>
      let n := len s in
      let s0 := byteZ b0 in
      let x := first s0 in
      if as_ <=? x then
        ((if x =? xx then RuneError else s0), 1%nat)
      else
        let sz := Z.to_nat (Z.land x 7) in
        let accept := acceptRanges (Z.shiftr x 4) in
        if (n <? sz)%nat then (RuneError, 1%nat)
        else
          let c1 := byteZ (index s 1) in
          if (c1 <? fst accept) || (snd accept <? c1) then (RuneError, 1%nat)
          else if (sz <=? 2)%nat then
            (Z.lor (Z.shiftl (Z.land s0 mask2) 6) (Z.land c1 maskx), 2%nat)
          else
            let c2 := byteZ (index s 2) in
            if (c2 <? locb) || (hicb <? c2) then (RuneError, 1%nat)
            else if (sz <=? 3)%nat then
              (Z.lor (Z.lor (Z.shiftl (Z.land s0 mask3) 12)
                            (Z.shiftl (Z.land c1 maskx) 6))
                     (Z.land c2 maskx), 3%nat)
            else
              let c3 := byteZ (index s 3) in
              if (c3 <? locb) || (hicb <? c3) then (RuneError, 1%nat)
              else
                (Z.lor (Z.lor (Z.lor (Z.shiftl (Z.land s0 mask4) 18)
                                     (Z.shiftl (Z.land c1 maskx) 12))
                              (Z.shiftl (Z.land c2 maskx) 6))
                       (Z.land c3 maskx), 4%nat)
  end.

End utf8.

(** ** time *)

Module time.

(** A [time.Time] by the fields its formatting reads: the calendar date
    and the clock in the zone of the value, and the offset of that zone
    in seconds east of UTC. *)
Record Time := mkTime {
  year : Z; month : Z; day : Z;
  hour : Z; minute : Z; second : Z;
  nanosecond : Z;
  offset : Z
}.

Definition Year (t : Time) : Z := year t.

(** [appendInt(b, x, width)]: decimal, padded with zeros to [width]. *)
Definition appendInt (b : bytes) (x : Z) (width : nat) : bytes :=
  let b := if x <? 0 then b ++ ["-"%byte] else b in
  let ds := strconv.digits (Z.abs x) in
  b ++ repeat "0"%byte (width - len ds) ++ ds.

(** The loop of [appendNano] that drops the trailing zeros. *)
Fixpoint trim_zeros_rev (r : bytes) : bytes :=
  match r with
  | c :: r' => if Byte.eqb c "0"%byte then trim_zeros_rev r' else r
  | [] => []
  end.

(** [appendNano(b, nanosec, stdFracSecond9)] *)
Definition appendNano (b : bytes) (nanosec : Z) : bytes :=
  if nanosec =? 0 then b
  else b ++ ["."%byte] ++ rev (trim_zeros_rev (rev (appendInt [] nanosec 9))).

(** The zone of the layout element [Z07:00]. *)
Definition appendZone (b : bytes) (offset : Z) : bytes :=
  if offset =? 0 then b ++ ["Z"%byte]
  else
    let zone := Z.quot offset 60 in
    let b := if zone <? 0 then b ++ ["-"%byte] else b ++ ["+"%byte] in
    let zone := Z.abs zone in
    let b := appendInt b (Z.quot zone 60) 2 in
    let b := b ++ [":"%byte] in
    appendInt b (Z.rem zone 60) 2.

(** [t.AppendFormat(b, RFC3339Nano)], the layout being
    [2006-01-02T15:04:05.999999999Z07:00]. *)
Definition AppendFormat_RFC3339Nano (t : Time) (b : bytes) : bytes :=
  let b := appendInt b (year t) 4 in
  let b := appendInt (b ++ ["-"%byte]) (month t) 2 in
  let b := appendInt (b ++ ["-"%byte]) (day t) 2 in
  let b := appendInt (b ++ ["T"%byte]) (hour t) 2 in
  let b := appendInt (b ++ [":"%byte]) (minute t) 2 in
  let b := appendInt (b ++ [":"%byte]) (second t) 2 in
  let b := appendNano b (nanosecond t) in
  appendZone b (offset t).

End time.

(** ** The stateless encoders: integers, booleans *)

Definition Int64 (val : Z) (buf : bytes) : bytes :=
  buf ++ strconv.FormatInt val.

Definition Uint64 (val : Z) (buf : bytes) : bytes :=
  buf ++ strconv.FormatUint val.

Definition Bool (val : bool) (buf : bytes) : bytes :=
  if val then buf ++ str "true" else buf ++ str "false".

(** ** The string encoder *)

(** [htmlSafeSet[b]] for [b < utf8.RuneSelf]: every entry is true except
    those of the control characters, the double quote, the backslash,
    [<], [>] and [&]. *)
Definition htmlSafeSet (b : Z) : bool :=
  (0x20 <=? b) && (b <? 0x80)
  && negb (b =? 0x22) && negb (b =? 0x26) && negb (b =? 0x3C)
  && negb (b =? 0x3E) && negb (b =? 0x5C).

Definition hex : bytes := str "0123456789abcdef".

(** The variables of the scan loop of [String]. *)
Record scan := mkScan { sc_i : nat; sc_start : nat; sc_buf : bytes }.

(** [if start < i { buf = append(buf, s[start:i]...) }] *)
Definition flush_run (s : bytes) (start i : nat) (buf : bytes) : bytes :=
  if (start <? i)%nat then buf ++ slice s start i else buf.

(** One iteration of the loop, entered with [i < len(s)]. *)
Definition String_body (s : bytes) (st : scan) : scan :=
  let i := sc_i st in
  let start := sc_start st in
  let buf := sc_buf st in
  let b := index s i in
  if byteZ b <? utf8.RuneSelf then
    if htmlSafeSet (byteZ b) then mkScan (S i) start buf
    else
      let buf := flush_run s start i buf in
      let buf := buf ++ ["\"%byte] in
      let buf :=
        if (byteZ b =? 0x5C) || (byteZ b =? 0x22) then buf ++ [b]
        else if byteZ b =? 0x0A then buf ++ ["n"%byte]
        else if byteZ b =? 0x0D then buf ++ ["r"%byte]
        else if byteZ b =? 0x09 then buf ++ ["t"%byte]
        else
          buf ++ ["u"%byte; "0"%byte; "0"%byte;
                  index hex (Z.to_nat (Z.shiftr (byteZ b) 4));
                  index hex (Z.to_nat (Z.land (byteZ b) 0xF))] in
      mkScan (S i) (S i) buf
  else
    let '(c, size) := utf8.DecodeRuneInString (skipn i s) in
    if (c =? utf8.RuneError) && (size =? 1)%nat then
      let buf := flush_run s start i buf in
      let buf := buf ++ ["\"%byte; "u"%byte; "f"%byte; "f"%byte; "d"%byte] in
      mkScan (i + size) (i + size) buf
    else if (c =? 0x2028) || (c =? 0x2029) then
      let buf := flush_run s start i buf in
      let buf :=
        buf ++ ["\"%byte; "u"%byte; "2"%byte; "0"%byte; "2"%byte;
                index hex (Z.to_nat (Z.land c 0xF))] in
      mkScan i i buf
    else mkScan (i + size) start buf.

(** What follows the loop. *)
Definition String_finish (s : bytes) (st : scan) : bytes :=
  let buf :=
    if (sc_start st <? len s)%nat
    then sc_buf st ++ slice s (sc_start st) (len s)
    else sc_buf st in
  buf ++ [quote].

(** The loop, run for at most [fuel] iterations. *)
Fixpoint String_loop (fuel : nat) (s : bytes) (st : scan) : option bytes :=
  if (sc_i st <? len s)%nat then
    match fuel with
    | O => None
    | S fuel' => String_loop fuel' s (String_body s st)
    end
  else Some (String_finish s st).

Definition String (fuel : nat) (s : bytes) (buf : bytes) : option bytes :=
  String_loop fuel s (mkScan 0 0 (buf ++ [quote])).

Definition FieldName (fuel : nat) (name : bytes) (buf : bytes) : option bytes :=
  match String fuel name buf with
  | Some buf => Some (buf ++ [":"%byte])
  | None => None
  end.


(** ** Timestamps and floats *)

Definition Time (t : time.Time) (buf : bytes) : bytes * option error :=
  let y := time.Year t in
  if (y <? 0) || (10000 <=? y) then
    ([], Some "Time.MarshalJSON: year outside of range [0,9999]"%string)
  else
    let buf := buf ++ [quote] in
    let buf := time.AppendFormat_RFC3339Nano t buf in
    let buf := buf ++ [quote] in
    (buf, None).

(** [buf[i] = x], for [i < len(buf)] *)
Definition store (buf : bytes) (i : nat) (x : byte) : bytes :=
  firstn i buf ++ x :: skipn (S i) buf.

Definition Float64 (f : float64) (buf : bytes) : bytes * option error :=
  if math.IsInf f 0 || math.IsNaN f then
    (buf, Some (String.append "unsupported value: "
                              (strconv.FormatFloat_special f)))
  else
    let abs := math.Abs f in
    let format :=
      if negb (math.eq abs float_0)
         && (math.lt abs float_1e_6 || math.ge abs float_1e21)
      then "e"%byte else "f"%byte in
    let start := len buf in
    let buf := strconv.AppendFloat buf f format in
    let buf :=
      if Byte.eqb format "e"%byte then
        let n := (len buf - start)%nat in
        if (4 <=? n)%nat
           && Byte.eqb (index buf (start + n - 4)) "e"%byte
           && Byte.eqb (index buf (start + n - 3)) "-"%byte
           && Byte.eqb (index buf (start + n - 2)) "0"%byte
        then
          let buf := store buf (start + n - 2) (index buf (start + n - 1)) in
          slice buf 0 start ++ slice buf start (start + n - 1)
        else buf
      else buf in
    (buf, None).

(** ** Polymorphic values *)

(** The integer types that have no case of their own in [Value]. *)
Inductive intKind :=
  KInt8 | KInt16 | KInt32 | KUint8 | KUint16 | KUint32 | KUintptr.

Definition intKind_signed (k : intKind) : bool :=
  match k with
  | KInt8 | KInt16 | KInt32 => true
  | _ => false
  end.

(** What an [interface{}] can hold, by the cases [Value] tells apart.  A
    map is the sequence of its entries in the order [range] yields them
    in the call at hand; a [JSONAppender] is its [AppendJSON] method; a
    [json.Marshaler] is what its [MarshalJSON] returns. *)
#[local] Set Warnings "-register-all".

Inductive any :=
| VString (v : bytes)
| VFloat64 (v : float64)
| VInt64 (v : Z)
| VInt (v : Z)
| VUint64 (v : Z)
| VUint (v : Z)
| VTime (v : time.Time)
| VMap (v : list (bytes * any))
| VSlice (v : list any)
| VAppender (AppendJSON : bytes -> bytes * option error)
| VMarshaler (MarshalJSON : bytes * option error)
| VIntN (k : intKind) (v : Z)
| VBool (v : bool)
| VNil.

(** The result of an encoder that may return an error, under the bound
    on the iterations of the string scan. *)
Definition encoded := option (bytes * option error).

Section Loops.

(** The encoder of one entry. *)
Variable enc : any -> bytes -> encoded.
Variable fuel : nat.

(** The loop of [Array] from entry [i] on. *)
Fixpoint Array_loop (slice : list any) (comma : bool) (buf : bytes)
  : encoded :=
  match slice with
  | [] => Some (buf ++ ["]"%byte], None)
  | v :: rest =>
      let buf := if comma then buf ++ [","%byte] else buf in
      match enc v buf with
      | None => None
      | Some (buf, Some err) => Some (buf, Some err)
      | Some (buf, None) => Array_loop rest true buf
      end
  end.

(** The loop of [Object] over the entries not yet visited. *)
Fixpoint Object_loop (mp : list (bytes * any)) (comma : bool) (buf : bytes)
  : encoded :=
  match mp with
  | [] => Some (buf ++ ["}"%byte], None)
  | (k, v) :: rest =>
      let buf := if comma then buf ++ [","%byte] else buf in
      match FieldName fuel k buf with
      | None => None
      | Some buf =>
          match enc v buf with
          | None => None
          | Some (buf, Some err) => Some (buf, Some err)
          | Some (buf, None) => Object_loop rest true buf
          end
      end
  end.

End Loops.

Section Composite.

(** [json.Marshal], the reflective encoder of the standard library. *)
Variable json_Marshal : any -> bytes * option error.
Variable fuel : nat.

Fixpoint Value (val : any) (buf : bytes) {struct val} : encoded :=
  match val with
  | VString v =>
      match String fuel v buf with
      | Some buf => Some (buf, None)
      | None => None
      end
  | VFloat64 v => Some (Float64 v buf)
  | VInt64 v => Some (Int64 v buf, None)
  | VInt v => Some (Int64 v buf, None)
  | VUint64 v => Some (Uint64 v buf, None)
  | VUint v => Some (Uint64 v buf, None)
  | VTime v => Some (Time v buf)
  | VMap v => Object_loop Value fuel v false (buf ++ ["{"%byte])
  | VSlice v => Array_loop Value v false (buf ++ ["["%byte])
  | VAppender AppendJSON => Some (AppendJSON buf)
  | VMarshaler (bb, err) => Some (buf ++ bb, err)
  | _ =>
      let '(bb, err) := json_Marshal val in
      Some (buf ++ bb, err)
  end.

Definition Object (mp : list (bytes * any)) (buf : bytes) : encoded :=
  Object_loop Value fuel mp false (buf ++ ["{"%byte]).

Definition Array (slice : list any) (buf : bytes) : encoded :=
  Array_loop Value slice false (buf ++ ["["%byte]).

End Composite.

(** ** bufio and the buffered writer *)

Module bufio.

(** [*bufio.Writer] by the methods [BufWriter] calls, over the state [W]
    of a writer and the type [IO] of the [io.Writer] it wraps.  The
    byte counts that [Write] and [WriteString] return are dropped by
    every caller and are left out. *)
Class Writer (W IO : Type) := {
  NewWriter : IO -> W;
  Write : bytes -> W -> W * option error;
  WriteString : bytes -> W -> W * option error;
  WriteByte : byte -> W -> W * option error;
  Flush : W -> W * option error;
  Reset : IO -> W -> W
}.

End bufio.

(** What a method call comes to: it returns, it dereferences a nil
    writer, or its string scan outlasts the bound. *)
Inductive result (A : Type) :=
| Ok (a : A)
| Panic
| OutOfFuel.

Arguments Ok {A} a.
Arguments Panic {A}.
Arguments OutOfFuel {A}.

Module BW.
Section Methods.

Context {W IO : Type} `{bufio.Writer W IO}.
Variable json_Marshal : any -> bytes * option error.
Variable fuel : nat.

(** [writer] is a pointer, nil in the zero [BufWriter]. *)
Record BufWriter := mkBufWriter {
  Error : option error;
  writer : option W;
  stringBuf : bytes
}.

Definition NewBufWriter (w : IO) : BufWriter :=
  mkBufWriter None (Some (bufio.NewWriter w)) [].

(** [_, bw.Error = bw.writer.M(...)], leaving [sb] in [stringBuf] *)
Definition call_writer (bw : BufWriter) (m : W -> W * option error)
           (sb : bytes) : result BufWriter :=
  match writer bw with
  | None => Panic
  | Some wr => let '(wr, err) := m wr in Ok (mkBufWriter err (Some wr) sb)
  end.

(** The tail shared by [Time], [Float64], [Value], [Object], [Array]:
    the encoder ran on [bw.stringBuf[:0]] and returned [r]. *)
Definition write_encoded (bw : BufWriter) (r : bytes * option error)
  : result BufWriter :=
  match r with
  | (sb, Some err) => Ok (mkBufWriter (Some err) (writer bw) sb)
  | (sb, None) => call_writer bw (bufio.Write sb) sb
  end.

Definition Flush (bw : BufWriter) : result (BufWriter * option error) :=
  match Error bw with
  | Some err => Ok (bw, Some err)
  | None =>
      match writer bw with
      | None => Panic
      | Some wr =>
          let '(wr, err) := bufio.Flush wr in
          Ok (mkBufWriter err (Some wr) (stringBuf bw), err)
      end
  end.

Definition Reset (w : IO) (bw : BufWriter) : BufWriter :=
  match writer bw with
  | None => mkBufWriter None (Some (bufio.NewWriter w)) (stringBuf bw)
  | Some wr => mkBufWriter None (Some (bufio.Reset w wr)) (stringBuf bw)
  end.

Definition Raw (val : bytes) (bw : BufWriter) : result BufWriter :=
  match Error bw with
  | Some _ => Ok bw
  | None => call_writer bw (bufio.Write val) (stringBuf bw)
  end.

Definition RawString (val : bytes) (bw : BufWriter) : result BufWriter :=
  match Error bw with
  | Some _ => Ok bw
  | None => call_writer bw (bufio.WriteString val) (stringBuf bw)
  end.

Definition RawByte (val : byte) (bw : BufWriter) : result BufWriter :=
  match Error bw with
  | Some _ => Ok bw
  | None => call_writer bw (bufio.WriteByte val) (stringBuf bw)
  end.

Definition Int64 (val : Z) (bw : BufWriter) : result BufWriter :=
  match Error bw with
  | Some _ => Ok bw
  | None =>
      call_writer bw (bufio.WriteString (strconv.FormatInt val))
                  (stringBuf bw)
  end.

Definition Uint64 (val : Z) (bw : BufWriter) : result BufWriter :=
  match Error bw with
  | Some _ => Ok bw
  | None =>
      call_writer bw (bufio.WriteString (strconv.FormatUint val))
                  (stringBuf bw)
  end.

Definition FieldName (name : bytes) (bw : BufWriter) : result BufWriter :=
  match Error bw with
  | Some _ => Ok bw
  | None =>
      match String fuel name [] with
      | None => OutOfFuel
      | Some sb =>
          let sb := sb ++ [":"%byte] in
          call_writer bw (bufio.Write sb) sb
      end
  end.

Definition Bool (val : bool) (bw : BufWriter) : result BufWriter :=
  match Error bw with
  | Some _ => Ok bw
  | None =>
      if val then call_writer bw (bufio.WriteString (str "true"))
                              (stringBuf bw)
      else call_writer bw (bufio.WriteString (str "false")) (stringBuf bw)
  end.

Definition Time (t : time.Time) (bw : BufWriter) : result BufWriter :=
  match Error bw with
  | Some _ => Ok bw
  | None => write_encoded bw (Time t [])
  end.

Definition Float64 (f : float64) (bw : BufWriter) : result BufWriter :=
  match Error bw with
  | Some _ => Ok bw
  | None => write_encoded bw (Float64 f [])
  end.

Definition Value (val : any) (bw : BufWriter) : result BufWriter :=
  match Error bw with
  | Some _ => Ok bw
  | None =>
      match Value json_Marshal fuel val [] with
      | None => OutOfFuel
      | Some r => write_encoded bw r
      end
  end.

Definition Object (mp : list (bytes * any)) (bw : BufWriter)
  : result BufWriter :=
  match Error bw with
  | Some _ => Ok bw
  | None =>
      match Object json_Marshal fuel mp [] with
      | None => OutOfFuel
      | Some r => write_encoded bw r
      end
  end.

Definition Array (slice : list any) (bw : BufWriter) : result BufWriter :=
  match Error bw with
  | Some _ => Ok bw
  | None =>
      match Array json_Marshal fuel slice [] with
      | None => OutOfFuel
      | Some r => write_encoded bw r
      end
  end.

Definition String (val : bytes) (bw : BufWriter) : result BufWriter :=
  match Error bw with
  | Some _ => Ok bw
  | None =>
      match String fuel val [] with
      | None => OutOfFuel
      | Some sb => call_writer bw (bufio.Write sb) sb
      end
  end.

End Methods.
End BW.

(** An [io.Writer] that takes [room] more bytes and then fails, and a
    [bufio.Writer] over it that holds everything until flushed: an
    instance to run the buffered writer on. *)
Record limited := mkLimited { room : nat; out : bytes }.

Record buffered := mkBuffered {
  pending : bytes;
  dst : limited;
  err : option error
}.

Definition buffered_put (p : bytes) (w : buffered) : buffered * option error :=
  match err w with
  | Some e => (w, Some e)
  | None => (mkBuffered (pending w ++ p) (dst w) None, None)
  end.

Definition buffered_flush (w : buffered) : buffered * option error :=
  match err w with
  | Some e => (w, Some e)
  | None =>
      if (len (pending w) <=? room (dst w))%nat then
        (mkBuffered []
           (mkLimited (room (dst w) - len (pending w))
                      (out (dst w) ++ pending w)) None, None)
      else
        let e := "short write"%string in
        (mkBuffered (skipn (room (dst w)) (pending w))
           (mkLimited 0 (out (dst w) ++ firstn (room (dst w)) (pending w)))
           (Some e), Some e)
  end.

#[export] Instance buffered_Writer : bufio.Writer buffered limited := {
  NewWriter := fun w => mkBuffered [] w None;
  Write := buffered_put;
  WriteString := buffered_put;
  WriteByte := fun c => buffered_put [c];
  Flush := buffered_flush;
  Reset := fun w _ => mkBuffered [] w None
}.

(** * The vocabulary of the properties *)

(** The escape the source writes for an invalid byte, and the escape of
    U+FFFD. *)
Definition esc_uffd : bytes := "\"%byte :: str "uffd".
Definition esc_ufffd : bytes := "\"%byte :: str "ufffd".

(** The line separator and the paragraph separator, in UTF-8. *)
Definition u2028 : bytes := [xe2; x80; xa8].
Definition u2029 : bytes := [xe2; x80; xa9].

(** Their escapes. *)
Definition esc_u2028 : bytes := "\"%byte :: str "u2028".
Definition esc_u2029 : bytes := "\"%byte :: str "u2029".

(** One of the two, the line separator when [ls]. *)
Definition separator (ls : bool) : bytes := if ls then u2028 else u2029.

(** No position of [s] decodes to U+2028 or U+2029. *)
Definition no_separator (s : bytes) : Prop :=
  forall i, (i < len s)%nat ->
    fst (utf8.DecodeRuneInString (skipn i s)) <> 0x2028
    /\ fst (utf8.DecodeRuneInString (skipn i s)) <> 0x2029.

(** A float is NaN or an infinity when its exponent field is all ones. *)
Definition non_finite (f : float64) : bool := strconv.ftoa_rawexp f =? 0x7FF.

(** The encoder returned an error. *)
Definition failed (r : bytes * option error) : Prop := snd r <> None.

(** The first instant of the year 10000 in UTC, and positive infinity. *)
Definition year_10000 : time.Time := time.mkTime 10000 1 1 0 0 0 0 0.
Definition float_inf : float64 := 0x7FF0000000000000.

(** Entries separated by single commas; [comma] tells whether a comma
    goes before the first one. *)
Fixpoint joined (comma : bool) (encs : list bytes) : bytes :=
  match encs with
  | [] => []
  | e :: rest => (if comma then [","%byte] else []) ++ e ++ joined true rest
  end.

(** The separator written before the entry that follows [pre]. *)
Definition comma_after {A : Type} (comma : bool) (pre : list A) : bytes :=
  match pre with
  | [] => if comma then [","%byte] else []
  | _ :: _ => [","%byte]
  end.

(** [e] is the text that [enc] appends for [v], whatever the buffer. *)
Definition appends (enc : any -> bytes -> encoded) (v : any) (e : bytes)
  : Prop :=
  forall b, enc v b = Some (b ++ e, None).

(** A [json.Marshal] that rejects whatever it is given. *)
Definition no_Marshal : any -> bytes * option error :=
  fun _ => ([], Some "json: unsupported type"%string).

(** A NaN. *)
Definition float_nan : float64 := 0x7FF8000000000001.

(** A marshaler that marks its output, to tell the paths apart. *)
Definition marking_Marshal : any -> bytes * option error :=
  fun _ => (str "<json.Marshal>", None).

(** The mantissa and the binary exponent that [genericFtoa] reads off a
    magnitude [m], the bit pattern without its sign. *)
Definition mant_of (m : Z) : Z :=
  if m / 2 ^ 52 =? 0 then m mod 2 ^ 52 else m mod 2 ^ 52 + 2 ^ 52.

(** The exponent [e2] of the value [mant_of m * 2^e2]. *)
Definition e2_of (m : Z) : Z := Z.max (m / 2 ^ 52) 1 - 1075.

(** The magnitudes of the finite floats: exponent field below [0x7FF]. *)
Definition finite_magnitude (m : Z) : Prop := 0 <= m < 2047 * 2 ^ 52.

(** The number that the float of magnitude [m] is, times [2^1074]: an
    integer, as the least exponent of a float is [-1074]. *)
Definition float_value (m : Z) : Z := mant_of m * 2 ^ (e2_of m + 1074).

(** [f] is zero or its magnitude is in [[1e-6, 1e21)], as numbers: the
    bounds are the numbers that the constants [1e-6] and [1e21] of the
    source are. *)
Definition in_fixed_range (f : float64) : bool :=
  let v := float_value (f mod 2 ^ 63) in
  (v =? 0)
  || (float_value float_1e_6 <=? v) && (v <? float_value float_1e21).

(** The digits with a point after the first. *)
Definition mantissa_text (ds : bytes) : bytes :=
  match ds with
  | [] => ["0"%byte]
  | [d0] => [d0]
  | d0 :: rest => d0 :: "."%byte :: rest
  end.

(** The sign, written for the negative floats only. *)
Definition sign_text (neg : bool) : bytes := if neg then ["-"%byte] else [].

(** Exponential notation with the exponent in plain decimal: no padding. *)
Definition exponential (neg : bool) (digs : strconv.decimalSlice) : bytes :=
  sign_text neg ++ mantissa_text (strconv.d digs)
  ++ ["e"%byte; if strconv.dp digs - 1 <? 0 then "-"%byte else "+"%byte]
  ++ strconv.FormatUint (Z.abs (strconv.dp digs - 1)).

(** Fixed-point notation of the decimal [0.d * 10^dp], with as many
    decimals as the digits need: [0] when there is no digit; [0.], the
    zeros the point is short of and the digits when the point is at or
    before the first digit; the digits with the point among them; the
    digits and the zeros up to the point, with no point, when the point is
    at or behind the last digit. *)
Definition fixed_point (neg : bool) (digs : strconv.decimalSlice) : bytes :=
  let ds := strconv.d digs in
  let p := strconv.dp digs in
  sign_text neg
  ++ match ds with
     | [] => ["0"%byte]
     | _ :: _ =>
         if p <=? 0 then
           "0"%byte :: "."%byte :: repeat "0"%byte (Z.to_nat (- p)) ++ ds
         else if p <? strconv.nd digs then
           firstn (Z.to_nat p) ds ++ "."%byte :: skipn (Z.to_nat p) ds
         else ds ++ repeat "0"%byte (Z.to_nat (p - strconv.nd digs))
     end.

(** The exponent as [fmtE] writes it: two digits at least. *)
Definition padded_exponent (e : Z) : bytes :=
  let a := Z.abs e in
  (if e <? 0 then "-"%byte else "+"%byte)
  :: (if a <? 10 then ["0"%byte; Zbyte (a + 48)]
      else if a <? 100 then [Zbyte (a / 10 + 48); Zbyte (a mod 10 + 48)]
      else [Zbyte (a / 100 + 48); Zbyte ((a / 10) mod 10 + 48);
            Zbyte (a mod 10 + 48)]).

(** The statement of [Float64] that follows [AppendFloat] in the
    exponential case, on the buffer [AppendFloat] returned. *)
Definition cleanup (start : nat) (buf : bytes) : bytes :=
  let n := (len buf - start)%nat in
  if (4 <=? n)%nat
     && Byte.eqb (index buf (start + n - 4)) "e"%byte
     && Byte.eqb (index buf (start + n - 3)) "-"%byte
     && Byte.eqb (index buf (start + n - 2)) "0"%byte
  then
    let buf := store buf (start + n - 2) (index buf (start + n - 1)) in
    slice buf 0 start ++ slice buf start (start + n - 1)
  else buf.

(** [x] is inside the interval from [lo] to [up], the bounds counted when
    [incl]. *)
Definition inside (incl : bool) (lo x up : Z) : Prop :=
  if incl then lo <= x <= up else lo < x < up.

(** The decimal [c * 10^k] is one of the numbers that round to the
    magnitude of [f]: it parses back to [f]. *)
Definition round_trips (f : float64) (c k : Z) : Prop :=
  strconv.in_interval (strconv.ftoa_mant f)
                      (strconv.ftoa_exp f - strconv.mantbits) c k = true.

(** [digs] holds the digits of a decimal that parses back to [f], and no
    decimal that does has fewer digits. *)
Definition shortest_round_trip (f : float64) (digs : strconv.decimalSlice)
  : Prop :=
  exists c k,
    strconv.d digs = strconv.digits c
    /\ strconv.dp digs = Z.of_nat (len (strconv.d digs)) + k
    /\ round_trips f c k
    /\ forall c' k', round_trips f c' k' ->
         (len (strconv.d digs) <= len (strconv.digits c'))%nat.

(** The float [0.0000005]. *)
Definition float_5e_7 : float64 := 0x3EA0C6F7A0B5ED8D.

(** ** The vocabulary of the further properties *)

(** The buffer of the scan with [b] put in front. *)
Definition prepend (b : bytes) (st : scan) : scan :=
  mkScan (sc_i st) (sc_start st) (b ++ sc_buf st).

(** What the encoder writes for one ASCII byte. *)
Definition escape_ascii (b : byte) : bytes :=
  if htmlSafeSet (byteZ b) then [b]
  else if (byteZ b =? 0x5C) || (byteZ b =? 0x22) then ["\"%byte; b]
  else if byteZ b =? 0x0A then ["\"%byte; "n"%byte]
  else if byteZ b =? 0x0D then ["\"%byte; "r"%byte]
  else if byteZ b =? 0x09 then ["\"%byte; "t"%byte]
  else ["\"%byte; "u"%byte; "0"%byte; "0"%byte;
        index hex (Z.to_nat (Z.shiftr (byteZ b) 4));
        index hex (Z.to_nat (Z.land (byteZ b) 0xF))].

Definition is_ascii (b : byte) : Prop := byteZ b < 0x80.

(** The value of a hexadecimal digit. *)
Definition hex_value (c : byte) : option Z :=
  let z := byteZ c in
  if (0x30 <=? z) && (z <=? 0x39) then Some (z - 0x30)
  else if (0x61 <=? z) && (z <=? 0x66) then Some (z - 0x57)
  else if (0x41 <=? z) && (z <=? 0x46) then Some (z - 0x37)
  else None.

(** The character of a two-character escape of RFC 8259. *)
Definition simple_escape (e : byte) : option byte :=
  if Byte.eqb e quote then Some quote
  else if Byte.eqb e "\"%byte then Some "\"%byte
  else if Byte.eqb e "/"%byte then Some "/"%byte
  else if Byte.eqb e "b"%byte then Some x08
  else if Byte.eqb e "f"%byte then Some x0c
  else if Byte.eqb e "n"%byte then Some x0a
  else if Byte.eqb e "r"%byte then Some x0d
  else if Byte.eqb e "t"%byte then Some x09
  else None.

(** A reader of the inside of a JSON string, by the grammar of RFC 8259,
    for the strings that hold ASCII characters: a control character or a
    double quote that is not escaped, an escape that the grammar does
    not have and an escape of a character beyond ASCII are refused. *)
Fixpoint unescape (body : bytes) : option bytes :=
  match body with
  | [] => Some []
  | c :: r =>
      if Byte.eqb c "\"%byte then
        match r with
        | [] => None
        | e :: r1 =>
            if Byte.eqb e "u"%byte then
              match r1 with
              | a :: b :: h :: l :: r2 =>
                  match hex_value a, hex_value b, hex_value h, hex_value l with
                  | Some 0, Some 0, Some h, Some l =>
                      if h <? 8
                      then option_map (cons (Zbyte (16 * h + l))) (unescape r2)
                      else None
                  | _, _, _, _ => None
                  end
              | _ => None
              end
            else
              match simple_escape e with
              | Some x => option_map (cons x) (unescape r1)
              | None => None
              end
        end
      else if Byte.eqb c quote then None
      else if byteZ c <? 0x20 then None
      else option_map (cons c) (unescape r)
  end.

(** Neither a control character nor one of [<], [>], [&]. *)
Definition script_safe (b : byte) : bool :=
  (0x20 <=? byteZ b) && negb (byteZ b =? 0x26) && negb (byteZ b =? 0x3C)
  && negb (byteZ b =? 0x3E).

Definition all_safe (l : bytes) : Prop :=
  Forall (fun b => script_safe b = true) l.

(** The invariant of the scan: the buffer and the run not yet copied hold
    safe bytes only. *)
Definition scan_safe (s : bytes) (st : scan) : Prop :=
  all_safe (sc_buf st) /\ all_safe (slice s (sc_start st) (sc_i st))
  /\ (sc_start st <= sc_i st)%nat.

(** A string that the scan reads as a sequence of ASCII bytes that
    [htmlSafeSet] admits and of encoded characters that decode to
    something else than an invalid byte, U+2028 or U+2029. *)
Inductive verbatim : bytes -> Prop :=
| verbatim_nil : verbatim []
| verbatim_ascii (b : byte) (r : bytes) :
    htmlSafeSet (byteZ b) = true -> verbatim r -> verbatim (b :: r)
| verbatim_rune (b : byte) (r : bytes) (c : Z) (size : nat) :
    utf8.RuneSelf <= byteZ b ->
    utf8.DecodeRuneInString (b :: r) = (c, size) ->
    c <> utf8.RuneError \/ size <> 1%nat ->
    c <> 0x2028 -> c <> 0x2029 ->
    verbatim (skipn size (b :: r)) ->
    verbatim (b :: r).

(** The number that a run of decimal digits denotes. *)
Definition decimal_value (ds : bytes) : Z :=
  fold_left (fun a d => 10 * a + (byteZ d - 48)) ds 0.

(** The same with an optional minus sign in front. *)
Definition signed_value (ds : bytes) : Z :=
  match ds with
  | c :: rest => if Byte.eqb c "-"%byte then - decimal_value rest
                 else decimal_value ds
  | [] => 0
  end.

Definition is_digit (b : byte) : bool := (48 <=? byteZ b) && (byteZ b <=? 57).

(** Digits only, one at least, and no zero in front of another digit. *)
Definition canonical_digits (ds : bytes) : Prop :=
  Forall (fun b => is_digit b = true) ds
  /\ ds <> []
  /\ (ds = ["0"%byte] \/ hd x00 ds <> "0"%byte).

(** The decimal digit of [x mod 10]. *)
Definition digit (x : Z) : byte := Zbyte (x mod 10 + 48).

Definition two_digits (x : Z) : bytes := [digit (x / 10); digit x].

Definition four_digits (x : Z) : bytes :=
  [digit (x / 1000); digit (x / 100); digit (x / 10); digit x].

(** The zone as the layout element [Z07:00] shows it: [Z] for UTC, else
    the sign, the hours and the minutes of the offset. *)
Definition zone_text (offset : Z) : bytes :=
  if offset =? 0 then ["Z"%byte]
  else
    let zone := Z.quot offset 60 in
    (if zone <? 0 then "-"%byte else "+"%byte)
    :: two_digits (Z.abs zone / 60)
    ++ ":"%byte :: two_digits (Z.abs zone mod 60).

(** The fields of [t] fit the widths of the layout: a year of four digits,
    two digits for the month, the day, the hour, the minute and the
    second, and a zone of less than a hundred hours. *)
Definition fits_layout (t : time.Time) : Prop :=
  0 <= time.year t < 10000
  /\ 0 <= time.month t < 100 /\ 0 <= time.day t < 100
  /\ 0 <= time.hour t < 100 /\ 0 <= time.minute t < 100
  /\ 0 <= time.second t < 100
  /\ -360000 < time.offset t < 360000.

Fixpoint bytes_eqb (a b : bytes) : bool :=
  match a, b with
  | [], [] => true
  | x :: a, y :: b => Byte.eqb x y && bytes_eqb a b
  | _, _ => false
  end.

(** [p] holds of the [n] integers from [x] on. *)
Fixpoint holds_from (p : Z -> bool) (n : nat) (x : Z) : bool :=
  match n with
  | O => true
  | S n' => p x && holds_from p n' (x + 1)
  end.

(** [t] is the text of the entry [kv]: its field name as [FieldName]
    writes it, then the text that [enc] appends for its value. *)
Definition entry_appends (fuel : nat) (enc : any -> bytes -> encoded)
           (kv : bytes * any) (t : bytes) : Prop :=
  exists key e,
    FieldName fuel (fst kv) [] = Some key /\ appends enc (snd kv) e
    /\ t = key ++ e.

(** Induction on a value, with the property known of the entries of a
    map and of a slice. *)
Section AnyInduction.

Variable P : any -> Prop.
Hypothesis HString : forall v, P (VString v).
Hypothesis HFloat64 : forall v, P (VFloat64 v).
Hypothesis HInt64 : forall v, P (VInt64 v).
Hypothesis HInt : forall v, P (VInt v).
Hypothesis HUint64 : forall v, P (VUint64 v).
Hypothesis HUint : forall v, P (VUint v).
Hypothesis HTime : forall v, P (VTime v).
Hypothesis HMap :
  forall m, Forall (fun kv => P (snd kv)) m -> P (VMap m).
Hypothesis HSlice : forall l, Forall P l -> P (VSlice l).
Hypothesis HAppender : forall a, P (VAppender a).
Hypothesis HMarshaler : forall r, P (VMarshaler r).
Hypothesis HIntN : forall k v, P (VIntN k v).
Hypothesis HBool : forall v, P (VBool v).
Hypothesis HNil : P VNil.

Fixpoint any_nested_ind (v : any) : P v :=
  match v with
  | VString v => HString v
  | VFloat64 v => HFloat64 v
  | VInt64 v => HInt64 v
  | VInt v => HInt v
  | VUint64 v => HUint64 v
  | VUint v => HUint v
  | VTime v => HTime v
  | VMap m =>
      HMap m
        ((fix entries (m : list (bytes * any))
            : Forall (fun kv => P (snd kv)) m :=
            match m with
            | [] => Forall_nil _
            | kv :: r =>
                Forall_cons kv (any_nested_ind (snd kv)) (entries r)
            end) m)
  | VSlice l =>
      HSlice l
        ((fix items (l : list any) : Forall P l :=
            match l with
            | [] => Forall_nil _
            | x :: r => Forall_cons x (any_nested_ind x) (items r)
            end) l)
  | VAppender a => HAppender a
  | VMarshaler r => HMarshaler r
  | VIntN k v => HIntN k v
  | VBool v => HBool v
  | VNil => HNil
  end.

End AnyInduction.

(** What a call does with the value is decided by the value alone: no
    [JSONAppender] at any depth, whose method is free to drop the buffer;
    no map of two entries or more at any depth, which each [range] visits
    in an order of its own; and every float a bit pattern of 64 bits. *)
Fixpoint plain (v : any) : Prop :=
  match v with
  | VFloat64 f => is_float64 f
  | VMap m =>
      match m with
      | [] => True
      | [(_, x)] => plain x
      | _ :: _ :: _ => False
      end
  | VSlice l =>
      (fix items (l : list any) : Prop :=
         match l with
         | [] => True
         | x :: r => plain x /\ items r
         end) l
  | VAppender _ => False
  | _ => True
  end.

(** [r'] is the result [r] with [b] in front of the buffer: the same
    text after [b] when [r] is a success, the same error when it is a
    failure, and no result when [r] is none. *)
Definition carried (b : bytes) (r r' : encoded) : Prop :=
  match r with
  | Some (o, None) => r' = Some (b ++ o, None)
  | Some (_, Some e) => exists b', r' = Some (b', Some e)
  | None => r' = None
  end.

(** [enc] carries the buffer on [v]: a longer buffer changes nothing but
    the front of what is returned. *)
Definition carries (enc : any -> bytes -> encoded) (v : any) : Prop :=
  forall x b, carried b (enc v x) (enc v (b ++ x)).

(** One call of a write method of [BufWriter]. *)
Inductive call :=
| CRaw (val : bytes)
| CRawString (val : bytes)
| CRawByte (val : byte)
| CInt64 (val : Z)
| CUint64 (val : Z)
| CFieldName (name : bytes)
| CBool (val : bool)
| CTime (t : time.Time)
| CFloat64 (f : float64)
| CValue (val : any)
| CObject (mp : list (bytes * any))
| CArray (slice : list any)
| CString (val : bytes).

Section Calls.

Context {W IO : Type} `{bufio.Writer W IO}.
Variable json_Marshal : any -> bytes * option error.
Variable fuel : nat.

Definition perform (c : call) (bw : BW.BufWriter) : result BW.BufWriter :=
  match c with
  | CRaw val => BW.Raw val bw
  | CRawString val => BW.RawString val bw
  | CRawByte val => BW.RawByte val bw
  | CInt64 val => BW.Int64 val bw
  | CUint64 val => BW.Uint64 val bw
  | CFieldName name => BW.FieldName fuel name bw
  | CBool val => BW.Bool val bw
  | CTime t => BW.Time t bw
  | CFloat64 f => BW.Float64 f bw
  | CValue val => BW.Value json_Marshal fuel val bw
  | CObject mp => BW.Object json_Marshal fuel mp bw
  | CArray slice => BW.Array json_Marshal fuel slice bw
  | CString val => BW.String fuel val bw
  end.

(** The calls of [cs] one after the other, as a program makes them. *)
Fixpoint perform_all (cs : list call) (bw : BW.BufWriter)
  : result BW.BufWriter :=
  match cs with
  | [] => Ok bw
  | c :: rest =>
      match perform c bw with
      | Ok bw => perform_all rest bw
      | Panic => Panic
      | OutOfFuel => OutOfFuel
      end
  end.

End Calls.

(** * Properties *)

(** ** Integers *)

Lemma uint64_of_int64_nonneg (v : Z) :
  0 <= v < 2 ^ 63 -> strconv.uint64_of_int64 v = v.
Proof.
  intros Hv. unfold strconv.uint64_of_int64.
  apply Z.mod_small. lia.
Qed.

(** C10: on the non-negative [int64] values the signed and the unsigned
    integer encoder return the same buffer. *)
Theorem Int64_Uint64_agree (v : Z) (buf : bytes) :
  0 <= v < 2 ^ 63 ->
  Int64 v buf = Uint64 (strconv.uint64_of_int64 v) buf.
Proof.
  intros Hv.
  unfold Int64, Uint64, strconv.FormatInt, strconv.FormatUint.
  replace (v <? 0) with false by (symmetry; apply Z.ltb_ge; lia).
  reflexivity.
Qed.

Lemma Int64_Uint64_agree_witness :
  0 <= 1234567890123 < 2 ^ 63 /\
  Int64 1234567890123 (str "n=")
  = Uint64 (strconv.uint64_of_int64 1234567890123) (str "n=").
Proof.
  split; [lia | apply Int64_Uint64_agree; lia].
Defined.

Example Int64_min : Int64 (- 2 ^ 63) [] = str "-9223372036854775808".
Proof. vm_compute. reflexivity. Qed.

Example Uint64_max : Uint64 (2 ^ 64 - 1) [] = str "18446744073709551615".
Proof. vm_compute. reflexivity. Qed.

(** ** Field names *)

(** C9: [FieldName] is [String] followed by one colon: it returns when
    [String] does, with that buffer and [":"] after it, and its result has
    no error component. *)
Theorem FieldName_String_colon (fuel : nat) (name buf : bytes) :
  FieldName fuel name buf
  = option_map (fun out => out ++ [":"%byte]) (String fuel name buf).
Proof.
  unfold FieldName.
  destruct (String fuel name buf) as [out |]; reflexivity.
Qed.

Example FieldName_id :
  FieldName 2 (str "id") [] = Some (quote :: str "id" ++ [quote; ":"%byte]).
Proof. vm_compute. reflexivity. Qed.

(** ** The string scan *)

Lemma String_loop_exit (fuel : nat) (s : bytes) (st : scan) :
  (len s <= sc_i st)%nat ->
  String_loop fuel s st = Some (String_finish s st).
Proof.
  intros Hi.
  destruct fuel; simpl;
    (replace (sc_i st <? len s)%nat with false
      by (symmetry; apply Nat.ltb_ge; exact Hi)); reflexivity.
Qed.

Lemma String_loop_step (fuel : nat) (s : bytes) (st : scan) :
  (sc_i st < len s)%nat ->
  String_loop (S fuel) s st = String_loop fuel s (String_body s st).
Proof.
  intros Hi. simpl.
  replace (sc_i st <? len s)%nat with true
    by (symmetry; apply Nat.ltb_lt; exact Hi).
  reflexivity.
Qed.

(** C1, on the code: at the invalid byte [0xFF] the encoder appends the
    five characters backslash, [u], [f], [f], [d]; the replacement escape
    has six, with one more [f]. *)
Theorem String_invalid_byte (fuel : nat) (buf : bytes) :
  String (S fuel) [xff] buf = Some ((buf ++ [quote]) ++ esc_uffd ++ [quote])
  /\ String (S fuel) [xff] buf
     <> Some ((buf ++ [quote]) ++ esc_ufffd ++ [quote]).
Proof.
  assert (E : String (S fuel) [xff] buf
              = Some ((buf ++ [quote]) ++ esc_uffd ++ [quote])).
  { unfold String. rewrite String_loop_step by (simpl; lia).
    rewrite String_loop_exit by (simpl; lia).
    unfold String_finish. simpl. rewrite <- app_assoc. reflexivity. }
  split; [exact E |].
  rewrite E. intros H. injection H as H.
  apply app_inv_head in H. discriminate H.
Qed.

(** The same at any position: an iteration entered at a byte that does
    not decode appends five characters. *)
Lemma String_body_invalid (s : bytes) (i start : nat) (buf : bytes) :
  utf8.RuneSelf <= byteZ (index s i) ->
  utf8.DecodeRuneInString (skipn i s) = (utf8.RuneError, 1%nat) ->
  String_body s (mkScan i start buf)
  = mkScan (i + 1) (i + 1) (flush_run s start i buf ++ esc_uffd).
Proof.
  intros Hb Hd. unfold String_body. simpl.
  replace (byteZ (index s i) <? utf8.RuneSelf) with false
    by (symmetry; apply Z.ltb_ge; exact Hb).
  rewrite Hd. reflexivity.
Qed.

Lemma String_body_u2028 (buf : bytes) :
  String_body u2028 (mkScan 0 0 buf) = mkScan 0 0 (buf ++ esc_u2028).
Proof. reflexivity. Qed.

Lemma iter_body_u2028 (n : nat) (buf : bytes) :
  Nat.iter n (String_body u2028) (mkScan 0 0 buf)
  = mkScan 0 0 (buf ++ List.concat (repeat esc_u2028 n)).
Proof.
  revert buf. induction n as [| n IH]; intros buf.
  - simpl. rewrite app_nil_r. reflexivity.
  - rewrite Nat.iter_succ_r, String_body_u2028, IH.
    simpl. rewrite <- app_assoc. reflexivity.
Qed.

Lemma String_loop_u2028 (fuel : nat) (buf : bytes) :
  String_loop fuel u2028 (mkScan 0 0 buf) = None.
Proof.
  revert buf. induction fuel as [| fuel IH]; intros buf.
  - reflexivity.
  - rewrite String_loop_step by (simpl; lia).
    rewrite String_body_u2028. apply IH.
Qed.

(** C2, on the code: on the string that is the one code point U+2028 the
    scan never moves past it.  Every iteration appends the escape again
    and leaves the index where it was, so no bound on the iterations lets
    [String] return. *)
Theorem String_u2028_never_returns (fuel : nat) (buf : bytes) :
  String fuel u2028 buf = None
  /\ Nat.iter fuel (String_body u2028) (mkScan 0 0 (buf ++ [quote]))
     = mkScan 0 0 ((buf ++ [quote]) ++ List.concat (repeat esc_u2028 fuel)).
Proof.
  split.
  - apply String_loop_u2028.
  - apply iter_body_u2028.
Qed.

(** ** Decoding: what a decoded size says about the bytes *)

Lemma byteZ_range (b : byte) : 0 <= byteZ b < 256.
Proof. destruct b; vm_compute; split; congruence. Qed.

Lemma first_cases (b : Z) :
  utf8.first b = utf8.as_ \/ utf8.first b = utf8.xx \/
  utf8.first b = utf8.s1 \/ utf8.first b = utf8.s2 \/
  utf8.first b = utf8.s3 \/ utf8.first b = utf8.s4 \/
  utf8.first b = utf8.s5 \/ utf8.first b = utf8.s6 \/
  utf8.first b = utf8.s7.
Proof.
  unfold utf8.first.
  repeat match goal with
  | |- context [if ?c then _ else _] => destruct c
  end; tauto.
Qed.

Ltac split_ifs_in H :=
  repeat match type of H with
  | context [if ?cnd then _ else _] => destruct cnd eqn:?
  end.

Ltac bool_facts :=
  repeat match goal with
  | H : (_ || _) = false |- _ => apply orb_false_elim in H; destruct H
  | H : (_ <? _) = false |- _ => apply Z.ltb_ge in H
  | H : (_ <? _) = true |- _ => apply Z.ltb_lt in H
  end.

Lemma DecodeRuneInString_size (t : bytes) (c : Z) (size : nat) :
  utf8.DecodeRuneInString t = (c, size) ->
  (size <= 4)%nat
  /\ (t <> [] -> 1 <= size)%nat
  /\ forall j, (1 <= j < size)%nat -> 0x80 <= byteZ (index t j) <= 0xBF.
Proof.
  destruct t as [| b0 t'].
  - simpl. intros H. injection H as _ H. subst size.
    repeat split; try lia. intros H; contradiction.
  - unfold utf8.DecodeRuneInString.
    set (s := b0 :: t').
    destruct (first_cases (byteZ b0)) as [E|[E|[E|[E|[E|[E|[E|[E|E]]]]]]]];
      rewrite E; simpl; intros H; split_ifs_in H;
      injection H as _ Hs; subst size;
      (split; [lia | split; [lia | intros j Hj]]); try lia;
      assert (Hc : (j = 1 \/ j = 2 \/ j = 3)%nat) by lia;
      destruct Hc as [Hc | [Hc | Hc]]; subst j; try lia;
      bool_facts; unfold utf8.locb, utf8.hicb in *; lia.
Qed.

Lemma index_skipn (s : bytes) (i j : nat) :
  index (skipn i s) j = index s (i + j).
Proof.
  unfold index. revert s. induction i as [| i IH]; intros s.
  - reflexivity.
  - destruct s as [| x s]; simpl.
    + destruct j; reflexivity.
    + apply IH.
Qed.

Lemma skipn_len_app (pre r : bytes) : skipn (len pre) (pre ++ r) = r.
Proof. induction pre as [| x pre IH]; simpl; auto. Qed.

Lemma index_len_app (pre r : bytes) : index (pre ++ r) (len pre) = index r 0.
Proof. unfold index. induction pre as [| x pre IH]; simpl; auto. Qed.

(** The index of the scan after one iteration. *)
Lemma String_body_index (s : bytes) (st : scan) :
  sc_i (String_body s st)
  = if byteZ (index s (sc_i st)) <? utf8.RuneSelf then S (sc_i st)
    else
      let '(c, size) := utf8.DecodeRuneInString (skipn (sc_i st) s) in
      if (c =? utf8.RuneError) && (size =? 1)%nat then (sc_i st + size)%nat
      else if (c =? 0x2028) || (c =? 0x2029) then sc_i st
      else (sc_i st + size)%nat.
Proof.
  unfold String_body.
  destruct (byteZ (index s (sc_i st)) <? utf8.RuneSelf).
  - destruct (htmlSafeSet _); reflexivity.
  - destruct (utf8.DecodeRuneInString _) as [c size].
    destruct ((c =? utf8.RuneError) && (size =? 1)%nat); [reflexivity |].
    destruct ((c =? 8232) || (c =? 8233)); reflexivity.
Qed.

Lemma Decode_separator (ls : bool) (post : bytes) :
  utf8.DecodeRuneInString (separator ls ++ post)
  = ((if ls then 0x2028 else 0x2029), 3%nat).
Proof. destruct ls; reflexivity. Qed.

Section Separator.

Variables (ls : bool) (pre post : bytes).
Let s := pre ++ separator ls ++ post.

Lemma separator_lead : byteZ (index s (len pre)) = 0xE2.
Proof.
  unfold s. rewrite index_len_app. destruct ls; reflexivity.
Qed.

Lemma separator_in_range : (len pre < len s)%nat.
Proof.
  unfold s, len. rewrite !length_app. destruct ls; simpl; lia.
Qed.

(** The scan never gets past the separator. *)
Lemma String_body_stuck (st : scan) :
  (sc_i st <= len pre)%nat -> (sc_i (String_body s st) <= len pre)%nat.
Proof.
  intros Hi. rewrite String_body_index.
  destruct (byteZ (index s (sc_i st)) <? utf8.RuneSelf) eqn:Hb; [| clear Hb].
  - apply Z.ltb_lt in Hb.
    assert (sc_i st <> len pre).
    { intros E. rewrite E, separator_lead in Hb.
      unfold utf8.RuneSelf in Hb. lia. }
    lia.
  - destruct (Nat.eq_dec (sc_i st) (len pre)) as [E | NE].
    + rewrite E. unfold s. rewrite skipn_len_app, Decode_separator.
      destruct ls; simpl; lia.
    + destruct (utf8.DecodeRuneInString _) as [c size] eqn:D.
      apply DecodeRuneInString_size in D. destruct D as (_ & _ & Hcont).
      assert (Hsz : (sc_i st + size <= len pre)%nat).
      { destruct (Nat.le_gt_cases (sc_i st + size) (len pre)) as [L | G];
          [exact L | exfalso].
        specialize (Hcont (len pre - sc_i st)%nat ltac:(lia)).
        rewrite index_skipn in Hcont.
        replace (sc_i st + (len pre - sc_i st))%nat with (len pre) in Hcont
          by lia.
        rewrite separator_lead in Hcont. lia. }
      destruct ((c =? utf8.RuneError) && (size =? 1)%nat); [exact Hsz |].
      destruct ((c =? 8232) || (c =? 8233)); [lia | exact Hsz].
Qed.

Lemma String_loop_stuck (fuel : nat) (st : scan) :
  (sc_i st <= len pre)%nat -> String_loop fuel s st = None.
Proof.
  revert st. induction fuel as [| fuel IH]; intros st Hi.
  - simpl. pose proof separator_in_range as Hr.
    replace (sc_i st <? len s)%nat with true
      by (symmetry; apply Nat.ltb_lt; lia).
    reflexivity.
  - rewrite String_loop_step by (pose proof separator_in_range; lia).
    apply IH, String_body_stuck, Hi.
Qed.

End Separator.

(** C3, on the code: the scan of [String] does not terminate on a string
    that holds U+2028 or U+2029, whatever comes before and after the
    separator and whatever the bound on the iterations; [FieldName],
    [Value], [Array] and [Object] call [String] and do not return
    either. *)
Theorem String_scan_diverges (json_Marshal : any -> bytes * option error)
        (fuel : nat) (ls : bool) (pre post buf : bytes) :
  let s := pre ++ separator ls ++ post in
  String fuel s buf = None
  /\ FieldName fuel s buf = None
  /\ Value json_Marshal fuel (VString s) buf = None
  /\ Array json_Marshal fuel [VString s] buf = None
  /\ Object json_Marshal fuel [(s, VInt64 0)] buf = None.
Proof.
  intros s.
  assert (E : forall b, String fuel s b = None).
  { intros b. apply String_loop_stuck. simpl. lia. }
  unfold FieldName, Array, Object. simpl. unfold FieldName.
  rewrite !E. repeat split; reflexivity.
Qed.

Lemma String_body_advances (s : bytes) (st : scan) :
  no_separator s -> (sc_i st < len s)%nat ->
  (sc_i st < sc_i (String_body s st))%nat.
Proof.
  intros Hs Hi. rewrite String_body_index.
  destruct (_ <? utf8.RuneSelf); [lia |].
  specialize (Hs _ Hi).
  destruct (utf8.DecodeRuneInString _) as [c size] eqn:D.
  apply DecodeRuneInString_size in D. destruct D as (_ & H1 & _).
  assert (skipn (sc_i st) s <> []).
  { intros E. apply (f_equal len) in E. unfold len in *.
    rewrite length_skipn in E. simpl in E. lia. }
  specialize (H1 H). simpl in Hs.
  destruct ((c =? utf8.RuneError) && (size =? 1)%nat); [lia |].
  destruct (Z.eqb_spec c 8232); [lia |].
  destruct (Z.eqb_spec c 8233); [lia |]. simpl. lia.
Qed.

Lemma String_loop_terminates (s : bytes) (fuel : nat) (st : scan) :
  no_separator s -> (len s <= sc_i st + fuel)%nat ->
  exists out, String_loop fuel s st = Some out.
Proof.
  intros Hs. revert st. induction fuel as [| fuel IH]; intros st Hf.
  - rewrite String_loop_exit by lia. eauto.
  - destruct (Nat.lt_ge_cases (sc_i st) (len s)) as [L | G].
    + rewrite String_loop_step by exact L.
      apply IH. pose proof (String_body_advances s st Hs L). lia.
    + rewrite String_loop_exit by lia. eauto.
Qed.

Lemma String_terminates (s buf : bytes) :
  no_separator s -> exists out, String (len s) s buf = Some out.
Proof.
  intros Hs. apply String_loop_terminates; [exact Hs | simpl; lia].
Qed.

(** ** Bit patterns *)

Lemma ldiff_sign (f : float64) :
  is_float64 f -> Z.ldiff f (Z.shiftl 1 63) = f mod 2 ^ 63.
Proof.
  intros [H0 H1].
  change (Z.shiftl 1 63) with (2 ^ 63).
  apply Z.bits_inj'. intros n Hn.
  rewrite Z.ldiff_spec, Z.pow2_bits_eqb by lia.
  destruct (Z.ltb_spec n 63) as [L | G].
  - rewrite Z.mod_pow2_bits_low by lia.
    replace (63 =? n) with false by (symmetry; apply Z.eqb_neq; lia).
    simpl. apply andb_true_r.
  - rewrite Z.mod_pow2_bits_high by lia.
    destruct (Z.eqb_spec 63 n) as [E | NE].
    + simpl. apply andb_false_r.
    + replace (Z.testbit f n) with false; [reflexivity |].
      symmetry. rewrite <- (Z.mod_small f (2 ^ 64)) by lia.
      apply Z.mod_pow2_bits_high. lia.
Qed.

Lemma magnitude_mod (f : float64) :
  is_float64 f -> math.magnitude f = f mod 2 ^ 63.
Proof. apply ldiff_sign. Qed.

Lemma signbit_div (f : float64) :
  is_float64 f -> math.signbit f = (2 ^ 63 <=? f).
Proof.
  intros [H0 H1]. unfold math.signbit.
  rewrite Z.shiftr_div_pow2 by lia.
  destruct (Z.leb_spec (2 ^ 63) f) as [L | G].
  - assert (1 <= f / 2 ^ 63) by (apply Z.div_le_lower_bound; lia).
    destruct (Z.eqb_spec (f / 2 ^ 63) 0); [lia | reflexivity].
  - rewrite Z.div_small by lia. reflexivity.
Qed.

Lemma rawexp_div (f : float64) :
  strconv.ftoa_rawexp f = (f / 2 ^ 52) mod 2 ^ 11.
Proof.
  unfold strconv.ftoa_rawexp, strconv.mantbits, strconv.expbits.
  rewrite Z.shiftr_div_pow2 by lia.
  change (Z.shiftl 1 11 - 1) with (Z.ones 11).
  apply Z.land_ones. lia.
Qed.

Lemma rawmant_mod (f : float64) :
  strconv.ftoa_rawmant f = f mod 2 ^ 52.
Proof.
  unfold strconv.ftoa_rawmant, strconv.mantbits.
  change (Z.shiftl 1 52 - 1) with (Z.ones 52).
  apply Z.land_ones. lia.
Qed.

(** The exponent field of the magnitude. *)
Lemma rawexp_magnitude (f : float64) :
  is_float64 f -> strconv.ftoa_rawexp f = (f mod 2 ^ 63) / 2 ^ 52.
Proof.
  intros [H0 H1]. rewrite rawexp_div.
  replace (f mod 2 ^ 63 / 2 ^ 52) with ((f / 2 ^ 52) mod 2 ^ 11).
  reflexivity.
  change (2 ^ 63) with (2 ^ 52 * 2 ^ 11).
  rewrite Z.rem_mul_r by lia.
  rewrite Z.mul_comm, Z.div_add by lia.
  rewrite (Z.div_small (f mod 2 ^ 52)) by (apply Z.mod_pos_bound; lia).
  lia.
Qed.

Lemma IsInf_IsNaN_non_finite (f : float64) :
  is_float64 f -> math.IsInf f 0 || math.IsNaN f = non_finite f.
Proof.
  intros Hf. unfold non_finite. rewrite (rawexp_magnitude f Hf).
  unfold math.IsInf, math.IsNaN, math.lt, math.eq, math.isnan, math.key.
  rewrite (magnitude_mod f Hf), (signbit_div f Hf).
  change (math.magnitude math.MaxFloat64) with 0x7FEFFFFFFFFFFFFF.
  change (math.magnitude (math.neg math.MaxFloat64)) with 0x7FEFFFFFFFFFFFFF.
  change (math.signbit math.MaxFloat64) with false.
  change (math.signbit (math.neg math.MaxFloat64)) with true.
  destruct Hf as [H0 H1].
  assert (Hm : 0 <= f mod 2 ^ 63 < 2 ^ 63) by (apply Z.mod_pos_bound; lia).
  set (m := f mod 2 ^ 63) in *.
  assert (Hq : m / 2 ^ 52 = 2047 <-> 0x7FF0000000000000 <= m).
  { split; intros Hx.
    - pose proof (Z.mul_div_le m (2 ^ 52) ltac:(lia)). lia.
    - apply Z.le_antisymm.
      + apply Z.lt_succ_r. apply Z.div_lt_upper_bound; lia.
      + apply Z.div_le_lower_bound; lia. }
  change (0 <=? 0) with true. cbn [andb].
  destruct (Z.eqb_spec (m / 2 ^ 52) 2047) as [E | NE];
    [apply Hq in E | assert (m < 0x7FF0000000000000) by (rewrite Hq in NE; lia)];
    destruct (Z.ltb_spec 0x7FF0000000000000 m);
    destruct (Z.leb_spec (2 ^ 63) f); cbn [negb andb orb].
  all: change (9218868437227405312 <? 9218868437227405311) with false.
  all: rewrite ?Z.eqb_refl; cbn [negb andb orb].
  all: rewrite ?orb_true_r, ?orb_false_r, ?andb_false_r.
  all: try reflexivity.
  all: clear Hq; clearbody m.
  all: try (apply orb_true_iff; rewrite !Z.ltb_lt; lia).
  all: try (apply orb_false_iff; rewrite !Z.ltb_ge; lia).
  all: exfalso; lia.
Qed.

(** ** Failures of the scalar encoders *)

Lemma Time_result (t : time.Time) (buf : bytes) :
  Time t buf
  = if (time.Year t <? 0) || (10000 <=? time.Year t)
    then ([], Some "Time.MarshalJSON: year outside of range [0,9999]"%string)
    else (time.AppendFormat_RFC3339Nano t (buf ++ [quote]) ++ [quote], None).
Proof. reflexivity. Qed.

Lemma Float64_non_finite (f : float64) (buf : bytes) :
  is_float64 f -> non_finite f = true ->
  Float64 f buf
  = (buf, Some (String.append "unsupported value: "
                              (strconv.FormatFloat_special f))).
Proof.
  intros Hf Hn. unfold Float64.
  rewrite (IsInf_IsNaN_non_finite f Hf), Hn. reflexivity.
Qed.

Lemma Float64_finite_no_error (f : float64) (buf : bytes) :
  is_float64 f -> non_finite f = false -> snd (Float64 f buf) = None.
Proof.
  intros Hf Hn. unfold Float64.
  rewrite (IsInf_IsNaN_non_finite f Hf), Hn. reflexivity.
Qed.

(** C4, on the code: [Time] and [Float64] fail exactly where the claim
    says, and [Float64] then returns the buffer it was given, as the
    claim says.  [Time] does not: its failure path returns the nil
    buffer, so for a buffer that holds something the buffer returned is
    not the buffer given and has not its length. *)
Theorem Time_failure_drops_buffer (t : time.Time) (f : float64)
        (buf : bytes) :
  is_float64 f ->
  (failed (Time t buf) <-> time.Year t < 0 \/ 10000 <= time.Year t)
  /\ (failed (Float64 f buf) <-> non_finite f = true)
  /\ (failed (Float64 f buf) -> fst (Float64 f buf) = buf)
  /\ (failed (Time t buf) ->
      fst (Time t buf) = []
      /\ (buf <> [] ->
          fst (Time t buf) <> buf /\ len (fst (Time t buf)) <> len buf)).
Proof.
  intros Hf. unfold failed. rewrite Time_result.
  split; [| split; [| split]].
  - destruct (Z.ltb_spec (time.Year t) 0);
      destruct (Z.leb_spec 10000 (time.Year t)); cbn [orb snd];
      (split; [intros; lia || congruence | intros; discriminate || lia]).
  - destruct (non_finite f) eqn:Hn.
    + rewrite (Float64_non_finite f buf Hf Hn). cbn [snd].
      split; [reflexivity | discriminate].
    + rewrite (Float64_finite_no_error f buf Hf Hn).
      split; [congruence | discriminate].
  - destruct (non_finite f) eqn:Hn.
    + rewrite (Float64_non_finite f buf Hf Hn). reflexivity.
    + rewrite (Float64_finite_no_error f buf Hf Hn). congruence.
  - destruct ((time.Year t <? 0) || (10000 <=? time.Year t)); cbn [fst snd];
      [| congruence].
    intros _. split; [reflexivity |].
    intros Hb. destruct buf as [| x buf]; [contradiction |].
    split; discriminate.
Qed.

Lemma Time_failure_drops_buffer_witness :
  is_float64 float_inf
  /\ fst (Float64 float_inf (str "x=")) = str "x="
  /\ fst (Time year_10000 (str "x=")) = []
  /\ fst (Time year_10000 (str "x=")) <> str "x="
  /\ len (fst (Time year_10000 (str "x="))) <> len (str "x=").
Proof.
  assert (Hf : is_float64 float_inf) by (unfold is_float64, float_inf; lia).
  destruct (Time_failure_drops_buffer year_10000 float_inf (str "x=") Hf)
    as (_ & _ & HF & HT).
  assert (Ht : failed (Time year_10000 (str "x=")))
    by (unfold failed; vm_compute; discriminate).
  destruct (HT Ht) as [Hnil Hdiff].
  destruct (Hdiff ltac:(discriminate)) as [Hne Hlen].
  split; [exact Hf | split; [| split; [exact Hnil | split]]].
  - apply HF. unfold failed. vm_compute. discriminate.
  - exact Hne.
  - exact Hlen.
Defined.

(** The sibling paths: inside an array a float that fails leaves what was
    written in the buffer returned, a time that fails leaves nothing. *)
Example Array_failure_buffers :
  Array no_Marshal 0 [VFloat64 float_nan] (str "x=")
  = Some (str "x=[", Some "unsupported value: NaN"%string)
  /\ Array no_Marshal 0 [VTime year_10000] (str "x=")
     = Some ([],
             Some "Time.MarshalJSON: year outside of range [0,9999]"%string).
Proof. split; vm_compute; reflexivity. Qed.

(** ** Arrays *)

Section ArrayLoop.

Variable enc : any -> bytes -> encoded.

Lemma Array_loop_all (vs : list any) (encs : list bytes) :
  Forall2 (appends enc) vs encs ->
  forall comma buf,
    Array_loop enc vs comma buf
    = Some (buf ++ joined comma encs ++ ["]"%byte], None).
Proof.
  induction 1 as [| v e vs encs Hv _ IH]; intros comma buf.
  - reflexivity.
  - cbn [Array_loop joined]. rewrite Hv, IH.
    destruct comma; rewrite <- ?app_assoc; reflexivity.
Qed.

Lemma Array_loop_first_error (pre : list any) (encs : list bytes) :
  Forall2 (appends enc) pre encs ->
  forall comma buf v post b' err,
    enc v (buf ++ joined comma encs ++ comma_after comma pre)
    = Some (b', Some err) ->
    Array_loop enc (pre ++ v :: post) comma buf = Some (b', Some err).
Proof.
  induction 1 as [| u e pre encs Hu _ IH]; intros comma buf v post b' err Hv.
  - cbn [app Array_loop]. cbn [joined comma_after app] in Hv.
    destruct comma; [| rewrite app_nil_r in Hv]; rewrite Hv; reflexivity.
  - cbn [app Array_loop]. rewrite Hu. apply IH.
    cbn [joined comma_after] in Hv.
    replace (comma_after true pre) with (comma_after comma (u :: pre))
      by (destruct pre; reflexivity).
    cbn [comma_after].
    destruct comma; rewrite <- ?app_assoc in *; exact Hv.
Qed.

End ArrayLoop.

(** C6: when the entries of [vs] encode to the texts [encs], [Array]
    appends an opening bracket, the texts in order with one comma between
    neighbours, and a closing bracket; when the entry after them fails,
    [Array] returns the buffer and the error of that entry as they are,
    with no closing bracket, whatever entries follow. *)
Theorem Array_contract (json_Marshal : any -> bytes * option error)
        (fuel : nat) (vs : list any) (encs : list bytes) (buf : bytes) :
  Forall2 (appends (Value json_Marshal fuel)) vs encs ->
  Array json_Marshal fuel vs buf
  = Some (buf ++ ["["%byte] ++ joined false encs ++ ["]"%byte], None)
  /\ forall v post b' err,
       Value json_Marshal fuel v
             (buf ++ ["["%byte] ++ joined false encs ++ comma_after false vs)
       = Some (b', Some err) ->
       Array json_Marshal fuel (vs ++ v :: post) buf = Some (b', Some err).
Proof.
  intros H. unfold Array. split.
  - rewrite (Array_loop_all _ vs encs H). rewrite <- app_assoc. reflexivity.
  - intros v post b' err Hv.
    apply (Array_loop_first_error _ vs encs H).
    rewrite <- app_assoc. exact Hv.
Qed.

Lemma Array_contract_witness :
  Array no_Marshal 8 [VInt 1; VUint64 20; VSlice []] (str "x=")
  = Some (str "x=[1,20,[]]", None)
  /\ Array no_Marshal 8
           [VInt 1; VUint64 20; VSlice []; VFloat64 float_nan; VString u2028]
           (str "x=")
     = Some (str "x=[1,20,[],", Some "unsupported value: NaN"%string).
Proof.
  assert (H : Forall2 (appends (Value no_Marshal 8))
                [VInt 1; VUint64 20; VSlice []]
                [str "1"; str "20"; str "[]"]).
  { apply Forall2_cons; [| apply Forall2_cons; [| apply Forall2_cons;
      [| apply Forall2_nil]]]; intros b.
    - reflexivity.
    - reflexivity.
    - simpl. rewrite <- app_assoc. reflexivity. }
  destruct (Array_contract no_Marshal 8 _ _ (str "x=") H) as [Hok Herr].
  split.
  - rewrite Hok. reflexivity.
  - apply (Herr (VFloat64 float_nan) [VString u2028]).
    vm_compute. reflexivity.
Defined.

(** ** Integers through [Value] *)

(** C7, amended: [Value] passes an [int64] and an [int] to [Int64] and a
    [uint64] and a [uint] to [Uint64]; an integer of any other type goes
    to [json.Marshal]. *)
Theorem Value_integer_cases (json_Marshal : any -> bytes * option error)
        (fuel : nat) (v : Z) (buf : bytes) :
  Value json_Marshal fuel (VInt64 v) buf = Some (Int64 v buf, None)
  /\ Value json_Marshal fuel (VInt v) buf = Some (Int64 v buf, None)
  /\ Value json_Marshal fuel (VUint64 v) buf = Some (Uint64 v buf, None)
  /\ Value json_Marshal fuel (VUint v) buf = Some (Uint64 v buf, None)
  /\ forall k,
       Value json_Marshal fuel (VIntN k v) buf
       = Some (buf ++ fst (json_Marshal (VIntN k v)),
               snd (json_Marshal (VIntN k v))).
Proof.
  repeat split. intros k. cbn [Value].
  destruct (json_Marshal (VIntN k v)) as [bb err]. reflexivity.
Qed.

(** C7 as stated fails: the text for an [int32] is the text of
    [json.Marshal], not that of [Int64]. *)
Lemma Value_int32_by_fallback :
  Value marking_Marshal 0 (VIntN KInt32 7) [] = Some (str "<json.Marshal>", None)
  /\ Value marking_Marshal 0 (VIntN KInt32 7) [] <> Some (Int64 7 [], None).
Proof.
  split; [reflexivity | vm_compute; discriminate].
Qed.

(** ** The buffered writer *)

Section Sticky.

Context {W IO : Type} `{bufio.Writer W IO}.
Variable json_Marshal : any -> bytes * option error.
Variable fuel : nat.

(** C8: once [Error] is set every write method returns the writer as it
    is, sink and error untouched; [Flush] returns the error and leaves
    the writer as it is; [Reset] clears the error and binds the writer
    to the new sink. *)
Theorem BufWriter_error_latched (e : error) (wr : option W) (sb : bytes) :
  let bw := BW.mkBufWriter (Some e) wr sb in
  (forall val, BW.Raw val bw = Ok bw)
  /\ (forall val, BW.RawString val bw = Ok bw)
  /\ (forall val, BW.RawByte val bw = Ok bw)
  /\ (forall val, BW.Int64 val bw = Ok bw)
  /\ (forall val, BW.Uint64 val bw = Ok bw)
  /\ (forall val, BW.Bool val bw = Ok bw)
  /\ (forall t, BW.Time t bw = Ok bw)
  /\ (forall f, BW.Float64 f bw = Ok bw)
  /\ (forall val, BW.String fuel val bw = Ok bw)
  /\ (forall name, BW.FieldName fuel name bw = Ok bw)
  /\ (forall val, BW.Value json_Marshal fuel val bw = Ok bw)
  /\ (forall mp, BW.Object json_Marshal fuel mp bw = Ok bw)
  /\ (forall slice, BW.Array json_Marshal fuel slice bw = Ok bw)
  /\ BW.Flush bw = Ok (bw, Some e)
  /\ (forall w, BW.Error (BW.Reset w bw) = None
                /\ BW.writer (BW.Reset w bw)
                   = Some (match wr with
                           | None => bufio.NewWriter w
                           | Some wr => bufio.Reset w wr
                           end)
                /\ BW.stringBuf (BW.Reset w bw) = sb).
Proof.
  intros bw. repeat split; try reflexivity.
  all: destruct wr; reflexivity.
Qed.

End Sticky.

(** The latch at work on the instance: a flush that overruns the sink
    sets the error, the writes that follow change nothing, and a reset
    clears it. *)
Example BufWriter_latch_run :
  let bw0 := BW.NewBufWriter (mkLimited 3 []) in
  exists bw1 bw2 e,
    BW.Int64 12345 bw0 = Ok bw1
    /\ BW.Flush bw1 = Ok (bw2, Some e)
    /\ BW.Error bw2 = Some e
    /\ BW.RawString (str "more") bw2 = Ok bw2
    /\ BW.Flush bw2 = Ok (bw2, Some e)
    /\ BW.Error (BW.Reset (mkLimited 9 []) bw2) = None.
Proof.
  cbv zeta. do 3 eexists.
  split; [vm_compute; reflexivity |].
  split; [vm_compute; reflexivity |].
  repeat split.
Qed.

(** ** Decimal digits *)

Lemma digits_loop_length (n : nat) :
  forall u a, 0 < u < 2 ^ Z.of_nat n ->
    exists k : nat,
      len (strconv.digits_loop n u a) = (len a + S k)%nat
      /\ 10 ^ Z.of_nat k <= u < 10 ^ Z.of_nat (S k).
Proof.
  induction n as [| n IH]; intros u a Hu.
  - simpl in Hu. lia.
  - cbn [strconv.digits_loop].
    destruct (Z.ltb_spec u 10) as [L | G].
    + exists 0%nat. split; [simpl; lia | simpl; lia].
    + assert (Hq : 0 < u / 10 < 2 ^ Z.of_nat n).
      { split.
        - apply Z.div_str_pos. lia.
        - apply Z.div_lt_upper_bound; [lia |].
          rewrite Nat2Z.inj_succ, Z.pow_succ_r in Hu by lia. lia. }
      destruct (IH (u / 10) (Zbyte (u mod 10 + 48) :: a) Hq) as (k & Hl & Hk).
      exists (S k). split.
      * rewrite Hl. simpl. lia.
      * rewrite !Nat2Z.inj_succ, !Z.pow_succ_r in * by lia.
        pose proof (Z.div_mod u 10 ltac:(lia)).
        pose proof (Z.mod_pos_bound u 10 ltac:(lia)). lia.
Qed.

Lemma digits_length (c : Z) :
  0 < c ->
  exists k : nat,
    len (strconv.digits c) = S k /\ 10 ^ Z.of_nat k <= c < 10 ^ Z.of_nat (S k).
Proof.
  intros Hc. unfold strconv.digits.
  destruct (digits_loop_length (S (Z.to_nat (Z.log2 c))) c []) as (k & Hl & Hk).
  - split; [exact Hc |].
    rewrite Nat2Z.inj_succ, Z2Nat.id by apply Z.log2_nonneg.
    apply Z.log2_spec. exact Hc.
  - exists k. split; [exact Hl | exact Hk].
Qed.

(** ** Floor and ceiling of the candidates *)

Lemma U10_pos (k : Z) : 0 < strconv.U10 k.
Proof.
  unfold strconv.U10, strconv.scale.
  apply Z.mul_pos_pos; apply Z.pow_pos_nonneg; lia.
Qed.

Lemma P10_pos (k : Z) : 0 < strconv.P10 k.
Proof. unfold strconv.P10. apply Z.pow_pos_nonneg; lia. Qed.

Lemma ceil_le (a u c : Z) : 0 < u -> (- ((- a) / u) <= c <-> a <= c * u).
Proof.
  intros Hu. split; intros H.
  - pose proof (Z.mul_div_le (- a) u Hu). nia.
  - assert (- c <= (- a) / u) by (apply Z.div_le_lower_bound; nia). lia.
Qed.

Lemma floor_ge (a u c : Z) : 0 < u -> (c <= a / u <-> c * u <= a).
Proof.
  intros Hu. split; intros H.
  - pose proof (Z.mul_div_le a u Hu). nia.
  - apply Z.div_le_lower_bound; nia.
Qed.

Lemma floor_lt (a u c : Z) : 0 < u -> (a / u + 1 <= c <-> a < c * u).
Proof.
  intros Hu. split; intros H.
  - pose proof (Z.mul_succ_div_gt a u Hu). nia.
  - assert (a / u < c) by (apply Z.div_lt_upper_bound; nia). lia.
Qed.

Lemma ceil_gt (a u c : Z) : 0 < u -> (c <= - ((- a) / u) - 1 <-> c * u < a).
Proof.
  intros Hu. split; intros H.
  - pose proof (Z.mul_succ_div_gt (- a) u Hu). nia.
  - assert ((- a) / u < - c) by (apply Z.div_lt_upper_bound; nia). lia.
Qed.

(** The candidates at [10^k] are the integers from [cand_lo] to
    [cand_hi]. *)
Lemma in_interval_cand (mant e2 c k : Z) :
  strconv.in_interval mant e2 c k = true
  <-> strconv.cand_lo mant e2 k <= c <= strconv.cand_hi mant e2 k.
Proof.
  unfold strconv.in_interval, strconv.cand_lo, strconv.cand_hi.
  pose proof (U10_pos k) as HU.
  destruct (strconv.inclusive mant).
  - rewrite andb_true_iff, Z.leb_le, Z.leb_le.
    rewrite (ceil_le _ _ c HU), (floor_ge _ _ c HU). tauto.
  - rewrite andb_true_iff, Z.ltb_lt, Z.ltb_lt.
    rewrite (floor_lt _ _ c HU), (ceil_gt _ _ c HU). tauto.
Qed.

Lemma candidate_Some (mant e2 k c : Z) :
  strconv.candidate mant e2 k = Some c ->
  strconv.in_interval mant e2 c k = true.
Proof.
  unfold strconv.candidate. intros H. apply in_interval_cand.
  destruct (Z.leb_spec (strconv.cand_lo mant e2 k) (strconv.cand_hi mant e2 k));
    [| discriminate].
  injection H as H. lia.
Qed.

Lemma candidate_None (mant e2 k : Z) :
  strconv.candidate mant e2 k = None ->
  forall c, strconv.in_interval mant e2 c k = false.
Proof.
  unfold strconv.candidate. intros H c.
  destruct (Z.leb_spec (strconv.cand_lo mant e2 k) (strconv.cand_hi mant e2 k));
    [discriminate |].
  destruct (strconv.in_interval mant e2 c k) eqn:E; [| reflexivity].
  apply in_interval_cand in E. lia.
Qed.

(** ** The search returns a decimal inside the interval *)

Lemma pow2_pos (q : Z) : 0 <= q -> 0 < 2 ^ q.
Proof. intros. apply Z.pow_pos_nonneg; lia. Qed.

Lemma lower_lt_mid (mant e2 : Z) :
  -1074 <= e2 -> strconv.lower mant e2 < strconv.mid mant e2.
Proof.
  intros He. unfold strconv.lower, strconv.mid.
  pose proof (pow2_pos (e2 + 1074) ltac:(lia)).
  destruct ((mant =? 2 ^ 52) && (-1074 <? e2)); nia.
Qed.

Lemma mid_lt_upper (mant e2 : Z) :
  -1074 <= e2 -> strconv.mid mant e2 < strconv.upper mant e2.
Proof.
  intros He. unfold strconv.upper, strconv.mid.
  pose proof (pow2_pos (e2 + 1074) ltac:(lia)). nia.
Qed.

Lemma lower_ge_2 (mant e2 : Z) :
  0 < mant -> -1074 <= e2 -> 2 <= strconv.lower mant e2.
Proof.
  intros Hm He. unfold strconv.lower.
  pose proof (pow2_pos (e2 + 1074) ltac:(lia)).
  destruct ((mant =? 2 ^ 52) && (-1074 <? e2)); nia.
Qed.

Lemma exact_in_interval (mant e2 : Z) :
  -1074 <= e2 ->
  strconv.in_interval mant e2 (strconv.mid mant e2 * 5 ^ strconv.scale)
                      (- strconv.scale) = true.
Proof.
  intros He.
  pose proof (lower_lt_mid mant e2 He) as H1.
  pose proof (mid_lt_upper mant e2 He) as H2.
  unfold strconv.in_interval, strconv.P10, strconv.U10, strconv.scale.
  rewrite Z.opp_involutive.
  change (Z.max 1076 0) with 1076.
  change (Z.max (- (1076)) 0) with 0.
  rewrite Z.pow_0_r, Z.mul_1_r, <- Z.mul_assoc, <- Z.pow_mul_l.
  change (5 * 2) with 10.
  assert (0 < 10 ^ 1076) by (apply Z.pow_pos_nonneg; lia).
  generalize dependent (10 ^ 1076). intros T HT.
  destruct (strconv.inclusive mant);
    apply andb_true_iff; split;
    first [apply Z.leb_le | apply Z.ltb_lt]; nia.
Qed.

Lemma search_in_interval (n : nat) (mant e2 : Z) :
  -1074 <= e2 ->
  forall k, strconv.in_interval mant e2 (fst (strconv.search n mant e2 k))
                                (snd (strconv.search n mant e2 k)) = true.
Proof.
  intros He. induction n as [| n IH]; intros k; cbn [strconv.search];
    destruct (strconv.candidate mant e2 k) as [c |] eqn:E; cbn [fst snd].
  - apply candidate_Some, E.
  - apply exact_in_interval, He.
  - apply candidate_Some, E.
  - apply IH.
Qed.

Lemma shortest_in_interval (mant e2 : Z) :
  -1074 <= e2 ->
  strconv.in_interval mant e2 (fst (strconv.shortest mant e2))
                      (snd (strconv.shortest mant e2)) = true.
Proof. intros He. apply search_in_interval, He. Qed.

(** What being inside says, without the case on the bounds. *)
Lemma in_interval_bounds (mant e2 c k : Z) :
  strconv.in_interval mant e2 c k = true ->
  strconv.lower mant e2 * strconv.P10 k <= c * strconv.U10 k
  /\ c * strconv.U10 k <= strconv.upper mant e2 * strconv.P10 k.
Proof.
  unfold strconv.in_interval.
  destruct (strconv.inclusive mant); rewrite andb_true_iff;
    rewrite ?Z.leb_le, ?Z.ltb_lt; lia.
Qed.

Lemma in_interval_pos (mant e2 c k : Z) :
  0 < mant -> -1074 <= e2 ->
  strconv.in_interval mant e2 c k = true -> 0 < c.
Proof.
  intros Hm He H. apply in_interval_bounds in H. destruct H as [H _].
  pose proof (lower_ge_2 mant e2 Hm He).
  pose proof (P10_pos k). pose proof (U10_pos k). nia.
Qed.

(** ** From the interval to the position of the decimal point *)

Lemma pow10_pos (x : Z) : 0 <= x -> 0 < 10 ^ x.
Proof. intros. apply Z.pow_pos_nonneg; lia. Qed.

Lemma max_split (k : Z) : Z.max k 0 - Z.max (- k) 0 = k.
Proof. lia. Qed.

(** If the decimal [c * 10^k], [c] of [n + 1] digits, is at most [upper]
    and [upper] is below [10^(b - a)], then [n + k < b - a]. *)
Lemma point_below (mant e2 c k n a b : Z) :
  0 <= n -> 0 <= a -> 0 <= b ->
  c * strconv.U10 k <= strconv.upper mant e2 * strconv.P10 k ->
  10 ^ n <= c ->
  strconv.upper mant e2 * 10 ^ a < 2 ^ strconv.scale * 10 ^ b ->
  n + k < b - a.
Proof.
  intros Hn Ha Hb Hc Hn10 Hup.
  unfold strconv.U10, strconv.P10 in Hc.
  set (kp := Z.max k 0) in *. set (kn := Z.max (- k) 0) in *.
  assert (Hk : kp - kn = k) by apply max_split.
  assert (0 <= kp) by lia. assert (0 <= kn) by lia.
  assert (HS : 0 < 2 ^ strconv.scale) by (apply pow2_pos; unfold strconv.scale; lia).
  assert (Hlt : 10 ^ (n + kp + a) < 10 ^ (b + kn)).
  { rewrite !Z.pow_add_r by lia.
    pose proof (pow10_pos n Hn). pose proof (pow10_pos kp ltac:(lia)).
    pose proof (pow10_pos kn ltac:(lia)). pose proof (pow10_pos a Ha).
    pose proof (pow10_pos b Hb).
    set (N := 10 ^ n) in *. set (X := 10 ^ kp) in *. set (Y := 10 ^ kn) in *.
    set (A := 10 ^ a) in *. set (B := 10 ^ b) in *.
    set (S := 2 ^ strconv.scale) in *. set (up := strconv.upper mant e2) in *.
    clearbody N X Y A B S up.
    apply (Z.mul_lt_mono_pos_l S); [exact HS |].
    assert (S1 : c * (S * X) * A <= up * Y * A)
      by (apply Z.mul_le_mono_nonneg_r; lia).
    assert (S2 : up * A * Y < S * B * Y)
      by (apply Z.mul_lt_mono_pos_r; lia).
    assert (S3 : N * (S * X * A) <= c * (S * X * A)).
    { apply Z.mul_le_mono_nonneg_r; [| lia].
      apply Z.lt_le_incl. repeat apply Z.mul_pos_pos; lia. }
    lia. }
  apply Z.pow_lt_mono_r_iff in Hlt; lia.
Qed.

(** If the decimal [c * 10^k], [c] below [10^n], is at least [lower] and
    [lower] is at least [10^(b - a)], then [b - a < n + k]. *)
Lemma point_above (mant e2 c k n a b : Z) :
  0 <= n -> 0 <= a -> 0 <= b ->
  strconv.lower mant e2 * strconv.P10 k <= c * strconv.U10 k ->
  c < 10 ^ n ->
  2 ^ strconv.scale * 10 ^ b <= strconv.lower mant e2 * 10 ^ a ->
  b - a < n + k.
Proof.
  intros Hn Ha Hb Hc Hn10 Hlo.
  unfold strconv.U10, strconv.P10 in Hc.
  set (kp := Z.max k 0) in *. set (kn := Z.max (- k) 0) in *.
  assert (Hk : kp - kn = k) by apply max_split.
  assert (0 <= kp) by lia. assert (0 <= kn) by lia.
  assert (HS : 0 < 2 ^ strconv.scale) by (apply pow2_pos; unfold strconv.scale; lia).
  assert (Hlt : 10 ^ (b + kn) < 10 ^ (n + kp + a)).
  { rewrite !Z.pow_add_r by lia.
    pose proof (pow10_pos n Hn). pose proof (pow10_pos kp ltac:(lia)).
    pose proof (pow10_pos kn ltac:(lia)). pose proof (pow10_pos a Ha).
    pose proof (pow10_pos b Hb).
    set (N := 10 ^ n) in *. set (X := 10 ^ kp) in *. set (Y := 10 ^ kn) in *.
    set (A := 10 ^ a) in *. set (B := 10 ^ b) in *.
    set (S := 2 ^ strconv.scale) in *. set (lo := strconv.lower mant e2) in *.
    clearbody N X Y A B S lo.
    apply (Z.mul_lt_mono_pos_l S); [exact HS |].
    assert (S1 : lo * Y * A <= c * (S * X) * A)
      by (apply Z.mul_le_mono_nonneg_r; lia).
    assert (S2 : S * B * Y <= lo * A * Y)
      by (apply Z.mul_le_mono_nonneg_r; lia).
    assert (S3 : c * (S * X * A) < N * (S * X * A)).
    { apply Z.mul_lt_mono_pos_r; [| lia].
      repeat apply Z.mul_pos_pos; lia. }
    lia. }
  apply Z.pow_lt_mono_r_iff in Hlt; lia.
Qed.

(** ** Mantissa and exponent by magnitude *)

Lemma lor_implicit_bit (x : Z) :
  0 <= x < 2 ^ 52 -> Z.lor x (Z.shiftl 1 52) = x + 2 ^ 52.
Proof.
  intros Hx. change (Z.shiftl 1 52) with (2 ^ 52).
  assert (H0 : Z.land x (2 ^ 52) = 0); [| rewrite <- (Z.lxor_lor _ _ H0);
    symmetry; apply Z.add_nocarry_lxor, H0].
  apply Z.bits_inj'. intros n Hn.
  rewrite Z.land_spec, Z.pow2_bits_eqb, Z.bits_0 by lia.
  destruct (Z.eqb_spec 52 n) as [E | NE].
  - subst n. rewrite andb_true_r.
    rewrite <- (Z.mod_small x (2 ^ 52)) by lia.
    apply Z.mod_pow2_bits_high. lia.
  - apply andb_false_r.
Qed.

Lemma mod_63_52 (f : Z) : (f mod 2 ^ 63) mod 2 ^ 52 = f mod 2 ^ 52.
Proof.
  apply Z.mod_mod_divide. exists (2 ^ 11). reflexivity.
Qed.

Lemma ftoa_mant_of (f : float64) :
  is_float64 f -> strconv.ftoa_mant f = mant_of (f mod 2 ^ 63).
Proof.
  intros Hf. unfold strconv.ftoa_mant, mant_of.
  rewrite (rawexp_magnitude f Hf), rawmant_mod, mod_63_52.
  destruct (f mod 2 ^ 63 / 2 ^ 52 =? 0); [reflexivity |].
  apply lor_implicit_bit. apply Z.mod_pos_bound. lia.
Qed.

Lemma ftoa_exp_of (f : float64) :
  is_float64 f ->
  strconv.ftoa_exp f - strconv.mantbits = e2_of (f mod 2 ^ 63).
Proof.
  intros Hf. unfold strconv.ftoa_exp, e2_of, strconv.bias, strconv.mantbits.
  rewrite (rawexp_magnitude f Hf).
  assert (0 <= f mod 2 ^ 63 / 2 ^ 52).
  { apply Z.div_pos; [| lia]. apply Z.mod_pos_bound. lia. }
  destruct (Z.eqb_spec (f mod 2 ^ 63 / 2 ^ 52) 0); lia.
Qed.

Lemma finite_magnitude_of (f : float64) :
  is_float64 f -> non_finite f = false -> finite_magnitude (f mod 2 ^ 63).
Proof.
  intros Hf Hn. unfold non_finite in Hn.
  rewrite (rawexp_magnitude f Hf) in Hn. apply Z.eqb_neq in Hn.
  assert (Hm : 0 <= f mod 2 ^ 63 < 2 ^ 63) by (apply Z.mod_pos_bound; lia).
  unfold finite_magnitude. split; [lia |].
  assert (f mod 2 ^ 63 / 2 ^ 52 < 2048)
    by (apply Z.div_lt_upper_bound; lia).
  assert (Hq : f mod 2 ^ 63 / 2 ^ 52 < 2047) by lia.
  pose proof (Z.mul_succ_div_gt (f mod 2 ^ 63) (2 ^ 52) ltac:(lia)). lia.
Qed.

(** A finite magnitude by its exponent field and its fraction. *)
Lemma magnitude_fields (m : Z) :
  finite_magnitude m ->
  exists E F,
    m = 2 ^ 52 * E + F /\ 0 <= F < 2 ^ 52 /\ 0 <= E <= 2046
    /\ mant_of m = (if E =? 0 then F else F + 2 ^ 52)
    /\ e2_of m + 1074 = Z.max E 1 - 1.
Proof.
  intros [H0 H1]. exists (m / 2 ^ 52), (m mod 2 ^ 52).
  pose proof (Z.div_mod m (2 ^ 52) ltac:(lia)).
  pose proof (Z.mod_pos_bound m (2 ^ 52) ltac:(lia)).
  assert (0 <= m / 2 ^ 52) by (apply Z.div_pos; lia).
  assert (m / 2 ^ 52 < 2047) by (apply Z.div_lt_upper_bound; lia).
  unfold mant_of, e2_of. repeat split; lia.
Qed.

Lemma pow2_double (q q' : Z) : 0 <= q < q' -> 2 * 2 ^ q <= 2 ^ q'.
Proof.
  intros H. rewrite <- Z.pow_succ_r by lia.
  apply Z.pow_le_mono_r; lia.
Qed.

Lemma mant_of_pos (m : Z) : finite_magnitude m -> 0 < m -> 0 < mant_of m.
Proof.
  intros Hm H0.
  destruct (magnitude_fields m Hm) as (E & F & Em & HF & HE & Hmant & _).
  rewrite Hmant. destruct (Z.eqb_spec E 0); lia.
Qed.

Lemma e2_of_ge (m : Z) : -1074 <= e2_of m.
Proof. unfold e2_of. lia. Qed.

Lemma scaled_le (a b p p' : Z) :
  0 <= b -> a <= 2 * b -> 0 < p -> 2 * p <= p' -> a * p <= b * p'.
Proof.
  intros Hb Hab Hp Hpp.
  apply Z.le_trans with (b * (2 * p)).
  - rewrite Z.mul_assoc, (Z.mul_comm b 2).
    apply Z.mul_le_mono_nonneg_r; lia.
  - apply Z.mul_le_mono_nonneg_l; lia.
Qed.

(** The two midpoints grow with the magnitude. *)
Lemma upper_mono (m m' : Z) :
  finite_magnitude m -> finite_magnitude m' -> m <= m' ->
  strconv.upper (mant_of m) (e2_of m) <= strconv.upper (mant_of m') (e2_of m').
Proof.
  intros Hm Hm' Hle.
  destruct (magnitude_fields m Hm) as (E & F & Em & HF & HE & Hmant & Hq).
  destruct (magnitude_fields m' Hm') as (E' & F' & Em' & HF' & HE' & Hmant' & Hq').
  unfold strconv.upper. rewrite Hmant, Hmant', Hq, Hq'.
  assert (HEE : E <= E') by nia.
  pose proof (pow2_pos (Z.max E 1 - 1) ltac:(lia)) as Hp.
  pose proof (pow2_pos (Z.max E' 1 - 1) ltac:(lia)) as Hp'.
  destruct (Z.eq_dec E E') as [Eq | NE].
  - subst E'. assert (F <= F') by lia.
    apply Z.mul_le_mono_nonneg_r; [lia |].
    destruct (E =? 0); lia.
  - destruct (Z.eq_dec (Z.max E 1) (Z.max E' 1)) as [Eq | NEq].
    + rewrite Eq.
      apply Z.mul_le_mono_nonneg_r; [lia |].
      destruct (Z.eqb_spec E 0); destruct (Z.eqb_spec E' 0); lia.
    + pose proof (pow2_double (Z.max E 1 - 1) (Z.max E' 1 - 1) ltac:(lia)).
      set (p := 2 ^ (Z.max E 1 - 1)) in *.
      set (p' := 2 ^ (Z.max E' 1 - 1)) in *. clearbody p p'.
      destruct (Z.eqb_spec E 0); destruct (Z.eqb_spec E' 0);
        apply scaled_le; lia.
Qed.

Lemma lower_mono (m m' : Z) :
  finite_magnitude m -> finite_magnitude m' -> m <= m' ->
  strconv.lower (mant_of m) (e2_of m) <= strconv.lower (mant_of m') (e2_of m').
Proof.
  intros Hm Hm' Hle.
  destruct (magnitude_fields m Hm) as (E & F & Em & HF & HE & Hmant & Hq).
  destruct (magnitude_fields m' Hm') as (E' & F' & Em' & HF' & HE' & Hmant' & Hq').
  unfold strconv.lower. rewrite Hmant, Hmant', Hq, Hq'.
  assert (HEE : E <= E') by nia.
  pose proof (pow2_pos (Z.max E 1 - 1) ltac:(lia)) as Hp.
  pose proof (pow2_pos (Z.max E' 1 - 1) ltac:(lia)) as Hp'.
  destruct (Z.eq_dec E E') as [Eq | NE].
  - subst E'. assert (HFF : F <= F') by lia.
    set (p := 2 ^ (Z.max E 1 - 1)) in *. clearbody p.
    destruct (Z.eqb_spec E 0);
      repeat match goal with
      | |- context [?a =? ?b] => destruct (Z.eqb_spec a b)
      end; cbn [andb];
      repeat match goal with
      | |- context [?a <? ?b] => destruct (Z.ltb_spec a b)
      end; nia.
  - destruct (Z.eq_dec (Z.max E 1) (Z.max E' 1)) as [Eq | NEq].
    + rewrite Eq.
      set (p := 2 ^ (Z.max E' 1 - 1)) in *. clearbody p.
      destruct (Z.eqb_spec E 0); destruct (Z.eqb_spec E' 0);
        repeat match goal with
        | |- context [?a =? ?b] => destruct (Z.eqb_spec a b)
        end; cbn [andb];
        repeat match goal with
        | |- context [?a <? ?b] => destruct (Z.ltb_spec a b)
        end; nia.
    + pose proof (pow2_double (Z.max E 1 - 1) (Z.max E' 1 - 1) ltac:(lia)).
      set (p := 2 ^ (Z.max E 1 - 1)) in *.
      set (p' := 2 ^ (Z.max E' 1 - 1)) in *. clearbody p p'.
      destruct (Z.eqb_spec E 0); destruct (Z.eqb_spec E' 0);
        repeat match goal with
        | |- context [?a =? ?b] => destruct (Z.eqb_spec a b)
        end; cbn [andb];
        repeat match goal with
        | |- context [?a <? ?b] => destruct (Z.ltb_spec a b)
        end; apply scaled_le; lia.
Qed.

(** The number a finite float is grows with its bit pattern. *)
Lemma float_value_lt (m m' : Z) :
  finite_magnitude m -> finite_magnitude m' -> m < m' ->
  float_value m < float_value m'.
Proof.
  intros Hm Hm' Hlt. unfold float_value.
  destruct (magnitude_fields m Hm) as (E & F & Em & HF & HE & Hmant & Hq).
  destruct (magnitude_fields m' Hm')
    as (E' & F' & Em' & HF' & HE' & Hmant' & Hq').
  rewrite Hmant, Hmant', Hq, Hq'.
  assert (HEE : E <= E') by nia.
  pose proof (pow2_pos (Z.max E 1 - 1) ltac:(lia)) as Hp.
  pose proof (pow2_pos (Z.max E' 1 - 1) ltac:(lia)) as Hp'.
  destruct (Z.eq_dec E E') as [Eq | NE].
  - subst E'. assert (F < F') by lia.
    apply Z.mul_lt_mono_pos_r; [lia |].
    destruct (E =? 0); lia.
  - destruct (Z.eq_dec (Z.max E 1) (Z.max E' 1)) as [Eq | NEq].
    + rewrite Eq.
      apply Z.mul_lt_mono_pos_r; [lia |].
      destruct (Z.eqb_spec E 0); destruct (Z.eqb_spec E' 0); lia.
    + pose proof (pow2_double (Z.max E 1 - 1) (Z.max E' 1 - 1) ltac:(lia)).
      set (q := 2 ^ (Z.max E 1 - 1)) in *.
      set (q' := 2 ^ (Z.max E' 1 - 1)) in *. clearbody q q'.
      replace (E' =? 0) with false by (symmetry; apply Z.eqb_neq; lia).
      apply Z.lt_le_trans with (2 ^ 52 * (2 * q)).
      * destruct (E =? 0); nia.
      * apply Z.le_trans with (2 ^ 52 * q'); [nia |].
        apply Z.mul_le_mono_nonneg_r; lia.
Qed.

Lemma float_value_le (m m' : Z) :
  finite_magnitude m -> finite_magnitude m' ->
  (float_value m <=? float_value m') = (m <=? m').
Proof.
  intros Hm Hm'.
  destruct (Z.leb_spec m m') as [L | G].
  - apply Z.leb_le. destruct (Z.eq_dec m m') as [-> | NE]; [lia |].
    apply Z.lt_le_incl, float_value_lt; try assumption. lia.
  - apply Z.leb_gt. apply float_value_lt; assumption.
Qed.

Lemma float_value_ltb (m m' : Z) :
  finite_magnitude m -> finite_magnitude m' ->
  (float_value m <? float_value m') = (m <? m').
Proof.
  intros Hm Hm'. rewrite !Z.ltb_antisym.
  rewrite (float_value_le m' m Hm' Hm). reflexivity.
Qed.

Lemma float_value_zero (m : Z) :
  finite_magnitude m -> (float_value m =? 0) = (m =? 0).
Proof.
  intros Hm.
  assert (H0 : finite_magnitude 0) by (unfold finite_magnitude; lia).
  change 0 with (float_value 0) at 1.
  destruct (Z.eqb_spec m 0) as [-> | NE]; [apply Z.eqb_refl |].
  apply Z.eqb_neq.
  assert (0 < m) by (unfold finite_magnitude in Hm; lia).
  pose proof (float_value_lt 0 m H0 Hm ltac:(lia)). lia.
Qed.

(** The fixed range by the bit pattern of the magnitude. *)
Lemma in_fixed_range_bits (f : float64) :
  finite_magnitude (f mod 2 ^ 63) ->
  in_fixed_range f
  = ((f mod 2 ^ 63 =? 0)
     || (float_1e_6 <=? f mod 2 ^ 63) && (f mod 2 ^ 63 <? float_1e21)).
Proof.
  intros Hm. unfold in_fixed_range. cbv zeta.
  assert (H6 : finite_magnitude float_1e_6)
    by (unfold finite_magnitude, float_1e_6; lia).
  assert (H21 : finite_magnitude float_1e21)
    by (unfold finite_magnitude, float_1e21; lia).
  rewrite (float_value_zero _ Hm), (float_value_le _ _ H6 Hm),
    (float_value_ltb _ _ Hm H21).
  reflexivity.
Qed.

(** ** The thresholds of [Float64] *)

(** The two constants are the floats nearest to [10^-6] and [10^21]: the
    first is [m * 2^-72] and [10^-6] is within half a unit of its last
    place, the second is [10^21] itself. *)
Lemma float_1e_6_nearest :
  mant_of float_1e_6 = 4722366482869645 /\ e2_of float_1e_6 = -72
  /\ Z.abs (2 * (mant_of float_1e_6 * 10 ^ 6) - 2 * 2 ^ 72) <= 10 ^ 6.
Proof. vm_compute. repeat split; discriminate. Qed.

Lemma float_1e21_exact :
  mant_of float_1e21 * 2 ^ e2_of float_1e21 = 10 ^ 21.
Proof. reflexivity. Qed.

Lemma finite_magnitude_dec (m : Z) :
  (0 <=? m) && (m <? 2047 * 2 ^ 52) = true -> finite_magnitude m.
Proof.
  rewrite andb_true_iff, Z.leb_le, Z.ltb_lt. unfold finite_magnitude. lia.
Qed.

Lemma upper_below_1e_6 (m : Z) :
  finite_magnitude m -> m < float_1e_6 ->
  strconv.upper (mant_of m) (e2_of m) * 10 ^ 6 < 2 ^ strconv.scale * 10 ^ 0.
Proof.
  intros Hm Hlt.
  assert (Hf : finite_magnitude (float_1e_6 - 1))
    by (apply finite_magnitude_dec; reflexivity).
  pose proof (upper_mono m (float_1e_6 - 1) Hm Hf ltac:(lia)) as H.
  assert (Hc : strconv.upper (mant_of (float_1e_6 - 1)) (e2_of (float_1e_6 - 1))
               * 10 ^ 6 < 2 ^ strconv.scale * 10 ^ 0)
    by (vm_compute; reflexivity).
  set (u := strconv.upper (mant_of m) (e2_of m)) in *.
  set (u' := strconv.upper _ _) in *. clearbody u u'.
  set (R := 2 ^ strconv.scale * 10 ^ 0) in *. clearbody R.
  change (10 ^ 6) with 1000000 in *. lia.
Qed.

Lemma lower_above_1e21 (m : Z) :
  finite_magnitude m -> float_1e21 < m ->
  2 ^ strconv.scale * 10 ^ 21 <= strconv.lower (mant_of m) (e2_of m) * 10 ^ 0.
Proof.
  intros Hm Hlt.
  assert (Hf : finite_magnitude (float_1e21 + 1))
    by (apply finite_magnitude_dec; reflexivity).
  pose proof (lower_mono (float_1e21 + 1) m Hf Hm ltac:(lia)) as H.
  assert (Hc : 2 ^ strconv.scale * 10 ^ 21
               <= strconv.lower (mant_of (float_1e21 + 1))
                                (e2_of (float_1e21 + 1)) * 10 ^ 0)
    by (vm_compute; discriminate).
  set (l := strconv.lower (mant_of m) (e2_of m)) in *.
  set (l' := strconv.lower _ _) in *. clearbody l l'.
  set (R := 2 ^ strconv.scale * 10 ^ 21) in *. clearbody R.
  change (10 ^ 0) with 1 in *. lia.
Qed.

Lemma upper_below_1e309 (m : Z) :
  finite_magnitude m ->
  strconv.upper (mant_of m) (e2_of m) * 10 ^ 0 < 2 ^ strconv.scale * 10 ^ 309.
Proof.
  intros Hm.
  assert (Hf : finite_magnitude (2047 * 2 ^ 52 - 1))
    by (apply finite_magnitude_dec; reflexivity).
  pose proof (upper_mono m (2047 * 2 ^ 52 - 1) Hm Hf
                         ltac:(unfold finite_magnitude in Hm; lia)) as H.
  assert (Hc : strconv.upper (mant_of (2047 * 2 ^ 52 - 1))
                             (e2_of (2047 * 2 ^ 52 - 1)) * 10 ^ 0
               < 2 ^ strconv.scale * 10 ^ 309)
    by (vm_compute; reflexivity).
  set (u := strconv.upper (mant_of m) (e2_of m)) in *.
  set (u' := strconv.upper _ _) in *. clearbody u u'.
  set (R := 2 ^ strconv.scale * 10 ^ 309) in *. clearbody R.
  change (10 ^ 0) with 1 in *. lia.
Qed.

Lemma lower_above_1e_324 (m : Z) :
  finite_magnitude m -> 0 < m ->
  2 ^ strconv.scale * 10 ^ 0 <= strconv.lower (mant_of m) (e2_of m) * 10 ^ 324.
Proof.
  intros Hm H0.
  pose proof (lower_ge_2 (mant_of m) (e2_of m) (mant_of_pos m Hm H0)
                         (e2_of_ge m)) as H.
  assert (Hc : 2 ^ strconv.scale * 10 ^ 0 <= 2 * 10 ^ 324)
    by (vm_compute; discriminate).
  set (l := strconv.lower (mant_of m) (e2_of m)) in *. clearbody l.
  set (R := 2 ^ strconv.scale * 10 ^ 0) in *. clearbody R.
  assert (0 < 10 ^ 324) by (apply pow10_pos; lia).
  set (T := 10 ^ 324) in *. clearbody T. nia.
Qed.

(** ** The digits of a finite float that is not zero *)

Lemma ryuFtoaShortest_nonzero (mant e2 : Z) :
  mant <> 0 ->
  strconv.ryuFtoaShortest mant e2
  = strconv.mkDecimal
      (strconv.digits (fst (strconv.shortest mant e2)))
      (Z.of_nat (len (strconv.digits (fst (strconv.shortest mant e2))))
       + snd (strconv.shortest mant e2)).
Proof.
  intros Hm. unfold strconv.ryuFtoaShortest.
  destruct (Z.eqb_spec mant 0); [contradiction |].
  destruct (strconv.shortest mant e2); reflexivity.
Qed.

Section Digits.

Variable m : Z.
Hypothesis Hfin : finite_magnitude m.
Hypothesis Hpos : 0 < m.

Let digs := strconv.ryuFtoaShortest (mant_of m) (e2_of m).

Lemma digits_facts :
  exists (c k : Z) (n : nat),
    strconv.d digs = strconv.digits c
    /\ len (strconv.d digs) = S n
    /\ strconv.dp digs = Z.of_nat (S n) + k
    /\ 10 ^ Z.of_nat n <= c < 10 ^ Z.of_nat (S n)
    /\ strconv.in_interval (mant_of m) (e2_of m) c k = true.
Proof.
  pose proof (mant_of_pos m Hfin Hpos) as Hm.
  pose proof (shortest_in_interval (mant_of m) (e2_of m) (e2_of_ge m)) as Hin.
  unfold digs. rewrite ryuFtoaShortest_nonzero by lia.
  set (c := fst (strconv.shortest (mant_of m) (e2_of m))) in *.
  set (k := snd (strconv.shortest (mant_of m) (e2_of m))) in *.
  pose proof (in_interval_pos _ _ _ _ Hm (e2_of_ge m) Hin) as Hc.
  destruct (digits_length c Hc) as (n & Hl & Hn).
  exists c, k, n. cbn [strconv.d strconv.dp]. rewrite Hl. auto.
Qed.

Lemma point_range : -324 <= strconv.dp digs - 1 <= 308.
Proof.
  destruct digits_facts as (c & k & n & _ & _ & Hdp & Hn & Hin).
  apply in_interval_bounds in Hin. destruct Hin as [Hlo Hup].
  rewrite Hdp, Nat2Z.inj_succ.
  pose proof (point_below _ _ c k (Z.of_nat n) 0 309 ltac:(lia) ltac:(lia)
                ltac:(lia) Hup ltac:(lia) (upper_below_1e309 m Hfin)).
  pose proof (point_above _ _ c k (Z.of_nat (S n)) 324 0 ltac:(lia) ltac:(lia)
                ltac:(lia) Hlo ltac:(lia) (lower_above_1e_324 m Hfin Hpos)).
  lia.
Qed.

Lemma point_below_1e_6 : m < float_1e_6 -> strconv.dp digs - 1 <= -7.
Proof.
  intros Hlt.
  destruct digits_facts as (c & k & n & _ & _ & Hdp & Hn & Hin).
  apply in_interval_bounds in Hin. destruct Hin as [_ Hup].
  rewrite Hdp, Nat2Z.inj_succ.
  pose proof (point_below _ _ c k (Z.of_nat n) 6 0 ltac:(lia) ltac:(lia)
                ltac:(lia) Hup ltac:(lia) (upper_below_1e_6 m Hfin Hlt)).
  lia.
Qed.

Lemma point_above_1e21 : float_1e21 < m -> 21 <= strconv.dp digs - 1.
Proof.
  intros Hlt.
  destruct digits_facts as (c & k & n & _ & _ & Hdp & Hn & Hin).
  apply in_interval_bounds in Hin. destruct Hin as [Hlo _].
  rewrite Hdp.
  pose proof (point_above _ _ c k (Z.of_nat (S n)) 0 21 ltac:(lia) ltac:(lia)
                ltac:(lia) Hlo ltac:(lia) (lower_above_1e21 m Hfin Hlt)).
  lia.
Qed.

End Digits.

Lemma digits_1e21 :
  strconv.ryuFtoaShortest (mant_of float_1e21) (e2_of float_1e21)
  = strconv.mkDecimal [x31] 22.
Proof. vm_compute. reflexivity. Qed.

(** ** The comparisons of [Float64] on a finite float *)

Lemma mod_63_range (f : Z) : is_float64 (f mod 2 ^ 63).
Proof.
  unfold is_float64. pose proof (Z.mod_pos_bound f (2 ^ 63) ltac:(lia)). lia.
Qed.

Lemma Abs_mod (f : float64) : is_float64 f -> math.Abs f = f mod 2 ^ 63.
Proof. apply ldiff_sign. Qed.

Section Compare.

Variable m : Z.
Hypothesis Hfin : finite_magnitude m.

Lemma key_magnitude : math.key m = m /\ math.isnan m = false.
Proof.
  assert (Hf : is_float64 m)
    by (unfold finite_magnitude, is_float64 in *; lia).
  unfold math.key, math.isnan.
  rewrite (magnitude_mod m Hf), (signbit_div m Hf).
  unfold finite_magnitude in Hfin.
  rewrite Z.mod_small by lia.
  replace (2 ^ 63 <=? m) with false by (symmetry; apply Z.leb_gt; lia).
  split; [reflexivity |]. apply Z.ltb_ge. lia.
Qed.

Lemma eq_zero : math.eq m float_0 = (m =? 0).
Proof.
  unfold math.eq. destruct key_magnitude as [-> ->]. reflexivity.
Qed.

Lemma lt_1e_6 : math.lt m float_1e_6 = (m <? float_1e_6).
Proof.
  unfold math.lt. destruct key_magnitude as [-> ->]. reflexivity.
Qed.

Lemma ge_1e_6 : math.ge m float_1e_6 = (float_1e_6 <=? m).
Proof.
  unfold math.ge. destruct key_magnitude as [-> ->]. reflexivity.
Qed.

Lemma lt_1e21 : math.lt m float_1e21 = (m <? float_1e21).
Proof.
  unfold math.lt. destruct key_magnitude as [-> ->]. reflexivity.
Qed.

Lemma ge_1e21 : math.ge m float_1e21 = (float_1e21 <=? m).
Proof.
  unfold math.ge. destruct key_magnitude as [-> ->]. reflexivity.
Qed.

End Compare.

(** ** The two notations *)

Lemma fmtF_append (dst : bytes) (neg : bool) (digs : strconv.decimalSlice)
      (prec : Z) :
  strconv.fmtF dst neg digs prec = dst ++ strconv.fmtF [] neg digs prec.
Proof.
  unfold strconv.fmtF.
  destruct neg; destruct (0 <? strconv.dp digs); destruct (0 <? prec);
    cbn [app]; rewrite <- ?app_assoc; reflexivity.
Qed.

Lemma skipn_index (s : bytes) (i : nat) :
  (i < len s)%nat -> skipn i s = index s i :: skipn (S i) s.
Proof.
  unfold len, index. revert s. induction i as [| i IH]; intros [| x s] H;
    simpl in H; try lia; [reflexivity |].
  cbn [skipn nth]. rewrite (IH s) by lia. reflexivity.
Qed.

Lemma fmtF_frac_app (a b : nat) (i : Z) (digs : strconv.decimalSlice) :
  strconv.fmtF_frac (a + b) i digs
  = strconv.fmtF_frac a i digs
    ++ strconv.fmtF_frac b (i + Z.of_nat a) digs.
Proof.
  revert i. induction a as [| a IH]; intros i.
  - cbn [Nat.add strconv.fmtF_frac app]. rewrite Z.add_0_r. reflexivity.
  - cbn [Nat.add strconv.fmtF_frac app]. rewrite IH.
    replace (i + 1 + Z.of_nat a) with (i + Z.of_nat (S a)) by lia.
    reflexivity.
Qed.

Lemma fmtF_frac_zeros (n : nat) (digs : strconv.decimalSlice) :
  forall i, strconv.dp digs + i + Z.of_nat n <= 0 ->
    strconv.fmtF_frac n i digs = repeat "0"%byte n.
Proof.
  induction n as [| n IH]; intros i Hi; [reflexivity |].
  cbn [strconv.fmtF_frac repeat].
  replace (0 <=? strconv.dp digs + i) with false
    by (symmetry; apply Z.leb_gt; lia).
  cbn [andb]. rewrite IH by lia. reflexivity.
Qed.

Lemma fmtF_frac_digits (n : nat) (digs : strconv.decimalSlice) :
  forall i, 0 <= strconv.dp digs + i ->
    strconv.dp digs + i + Z.of_nat n <= strconv.nd digs ->
    strconv.fmtF_frac n i digs
    = firstn n (skipn (Z.to_nat (strconv.dp digs + i)) (strconv.d digs)).
Proof.
  unfold strconv.nd.
  induction n as [| n IH]; intros i H0 H1; [reflexivity |].
  cbn [strconv.fmtF_frac].
  replace (0 <=? strconv.dp digs + i) with true
    by (symmetry; apply Z.leb_le; lia).
  replace (strconv.dp digs + i <? strconv.nd digs) with true
    by (symmetry; apply Z.ltb_lt; unfold strconv.nd; lia).
  cbn [andb].
  rewrite (skipn_index (strconv.d digs) (Z.to_nat (strconv.dp digs + i)))
    by lia.
  cbn [firstn]. rewrite IH by lia.
  replace (Z.to_nat (strconv.dp digs + (i + 1)))
    with (S (Z.to_nat (strconv.dp digs + i))) by lia.
  reflexivity.
Qed.

(** [fmtF] with the precision [AppendFloat] gives it writes the
    fixed-point notation of the digits. *)
Lemma fmtF_fixed (dst : bytes) (neg : bool) (digs : strconv.decimalSlice) :
  (strconv.d digs = [] -> strconv.dp digs = 0) ->
  strconv.fmtF dst neg digs
               (Z.max (strconv.nd digs - strconv.dp digs) 0)
  = dst ++ fixed_point neg digs.
Proof.
  destruct digs as [ds p]. cbn [strconv.d strconv.dp]. intros Hz.
  rewrite fmtF_append. f_equal.
  unfold strconv.fmtF, fixed_point, strconv.nd.
  cbn [strconv.d strconv.dp].
  replace (if neg then [] ++ ["-"%byte] else []) with (sign_text neg)
    by (destruct neg; reflexivity).
  destruct ds as [| d0 rest].
  - rewrite (Hz eq_refl). cbn [len List.length]. reflexivity.
  - clear Hz. set (ds := d0 :: rest).
    assert (Hn : 0 < Z.of_nat (len ds)) by (unfold ds, len; cbn; lia).
    set (n := Z.of_nat (len ds)) in *.
    assert (En : len ds = Z.to_nat n) by (unfold n; lia).
    destruct (Z.leb_spec p 0) as [Le | Gt].
    + replace (0 <? p) with false by (symmetry; apply Z.ltb_ge; lia).
      replace (0 <? Z.max (n - p) 0) with true
        by (symmetry; apply Z.ltb_lt; lia).
      replace (Z.to_nat (Z.max (n - p) 0))
        with (Z.to_nat (- p) + len ds)%nat by lia.
      rewrite fmtF_frac_app.
      rewrite fmtF_frac_zeros by (cbn [strconv.dp]; lia).
      rewrite fmtF_frac_digits
        by (unfold strconv.nd; cbn [strconv.d strconv.dp]; fold ds; lia).
      cbn [strconv.d strconv.dp].
      replace (Z.to_nat (p + (0 + Z.of_nat (Z.to_nat (- p))))) with 0%nat
        by lia.
      cbn [skipn]. unfold len. rewrite firstn_all.
      rewrite <- ?app_assoc. reflexivity.
    + replace (0 <? p) with true by (symmetry; apply Z.ltb_lt; lia).
      destruct (Z.ltb_spec p n) as [Lt | Ge].
      * replace (0 <? Z.max (n - p) 0) with true
          by (symmetry; apply Z.ltb_lt; lia).
        rewrite Z.min_r by lia.
        replace (Z.to_nat (p - p)) with 0%nat by lia.
        rewrite fmtF_frac_digits
          by (unfold strconv.nd; cbn [strconv.d strconv.dp]; fold ds; lia).
        cbn [strconv.d strconv.dp repeat]. unfold slice.
        rewrite Nat.sub_0_r, Z.add_0_r. cbn [skipn].
        assert (Hs : firstn (Z.to_nat (Z.max (n - p) 0))
                            (skipn (Z.to_nat p) ds)
                     = skipn (Z.to_nat p) ds)
          by (apply firstn_all2; rewrite length_skipn; unfold len in En;
              lia).
        rewrite Hs, app_nil_r, <- ?app_assoc. reflexivity.
      * replace (0 <? Z.max (n - p) 0) with false
          by (symmetry; apply Z.ltb_ge; lia).
        rewrite Z.min_l by lia. unfold slice.
        rewrite Nat.sub_0_r. cbn [skipn].
        rewrite <- En. unfold len. rewrite firstn_all.
        rewrite <- ?app_assoc. reflexivity.
Qed.

Lemma slice_tail (d0 : byte) (rest : bytes) :
  slice (d0 :: rest) 1 (S (len rest)) = rest.
Proof.
  unfold slice. cbn [skipn]. replace (S (len rest) - 1)%nat with (len rest) by lia.
  apply firstn_all.
Qed.

Lemma fmtE_shape (dst : bytes) (neg : bool) (digs : strconv.decimalSlice) :
  strconv.d digs <> [] ->
  strconv.fmtE dst neg digs (Z.max (strconv.nd digs - 1) 0) "e"%byte
  = dst ++ sign_text neg ++ mantissa_text (strconv.d digs)
    ++ "e"%byte :: padded_exponent (strconv.dp digs - 1).
Proof.
  destruct digs as [ds p]. cbn [strconv.d strconv.dp]. intros Hd.
  destruct ds as [| d0 rest]; [contradiction |].
  unfold strconv.fmtE, strconv.nd. cbn [strconv.d strconv.dp].
  change (len (d0 :: rest)) with (S (len rest)).
  rewrite Nat2Z.inj_succ.
  replace (Z.succ (Z.of_nat (len rest)) =? 0) with false
    by (symmetry; apply Z.eqb_neq; lia).
  change (index (d0 :: rest) 0) with d0.
  replace (Z.max (Z.succ (Z.of_nat (len rest)) - 1) 0)
    with (Z.of_nat (len rest)) by lia.
  replace (Z.min (Z.succ (Z.of_nat (len rest))) (Z.of_nat (len rest) + 1))
    with (Z.of_nat (S (len rest))) by lia.
  unfold padded_exponent, sign_text, mantissa_text. cbv zeta.
  replace (if p - 1 <? 0 then - (p - 1) else p - 1) with (Z.abs (p - 1))
    by (destruct (Z.ltb_spec (p - 1) 0); lia).
  destruct rest as [| d1 rest].
  - cbn [len List.length Z.of_nat]. change (0 <? 0) with false.
    destruct neg; destruct (Z.abs (p - 1) <? 10);
      try destruct (Z.abs (p - 1) <? 100);
      rewrite <- ?app_assoc; reflexivity.
  - set (r := d1 :: rest) in *.
    replace (0 <? Z.of_nat (len r)) with true
      by (symmetry; apply Z.ltb_lt; unfold r; simpl; lia).
    replace (1 <? Z.of_nat (S (len r))) with true
      by (symmetry; apply Z.ltb_lt; unfold r; simpl; lia).
    rewrite Nat2Z.id, slice_tail.
    replace (Z.to_nat (Z.of_nat (len r) + 1 - Z.of_nat (S (len r)))) with 0%nat
      by lia.
    cbn [repeat]. rewrite app_nil_r.
    destruct neg; destruct (Z.abs (p - 1) <? 10);
      try destruct (Z.abs (p - 1) <? 100);
      rewrite <- ?app_assoc; reflexivity.
Qed.

(** ** The clean-up of the exponent *)

Lemma firstn_two_slices (l : bytes) (start n : nat) :
  slice l 0 start ++ slice l start (start + n) = firstn (start + n) l.
Proof.
  unfold slice. rewrite Nat.sub_0_r. cbn [skipn].
  replace (start + n - start)%nat with n by lia.
  revert l. induction start as [| start IH]; intros l.
  - reflexivity.
  - destruct l as [| x l]; cbn [firstn skipn Nat.add app].
    + destruct n; reflexivity.
    + rewrite IH. reflexivity.
Qed.

Lemma index_app_tail (pre l : bytes) (j : nat) :
  index (pre ++ l) (len pre + j) = index l j.
Proof. unfold index, len. apply app_nth2_plus. Qed.

Lemma cleanup_tail (start : nat) (pre : bytes) (a b c e : byte) :
  (start <= len pre)%nat ->
  cleanup start (pre ++ [a; b; c; e])
  = if Byte.eqb a "e"%byte && Byte.eqb b "-"%byte && Byte.eqb c "0"%byte
    then pre ++ [a; b; e] else pre ++ [a; b; c; e].
Proof.
  intros Hs. unfold cleanup.
  set (out := pre ++ [a; b; c; e]).
  assert (Hl : len out = (len pre + 4)%nat)
    by (unfold out, len; rewrite length_app; reflexivity).
  rewrite Hl.
  replace (start + (len pre + 4 - start) - 4)%nat with (len pre + 0)%nat by lia.
  replace (start + (len pre + 4 - start) - 3)%nat with (len pre + 1)%nat by lia.
  replace (start + (len pre + 4 - start) - 2)%nat with (len pre + 2)%nat by lia.
  replace (start + (len pre + 4 - start) - 1)%nat
    with (start + (len pre + 3 - start))%nat by lia.
  replace (4 <=? len pre + 4 - start)%nat with true
    by (symmetry; apply Nat.leb_le; lia).
  assert (I0 : index out (len pre + 0) = a) by apply index_app_tail.
  assert (I1 : index out (len pre + 1) = b) by apply index_app_tail.
  assert (I2 : index out (len pre + 2) = c) by apply index_app_tail.
  assert (I3 : index out (len pre + 3) = e) by apply index_app_tail.
  rewrite I0, I1, I2. cbn [andb].
  destruct (Byte.eqb a "e"%byte && Byte.eqb b "-"%byte && Byte.eqb c "0"%byte);
    [| reflexivity].
  rewrite firstn_two_slices.
  replace (start + (len pre + 3 - start))%nat with (len pre + 3)%nat by lia.
  rewrite I3. unfold store, out.
  rewrite firstn_app_2. cbn [firstn].
  replace (S (len pre + 2)) with (len pre + 3)%nat by lia.
  rewrite skipn_app, skipn_all2 by (unfold len; lia).
  replace (len pre + 3 - List.length pre)%nat with 3%nat by (unfold len; lia).
  cbn [skipn app].
  rewrite <- app_assoc. cbn [app].
  rewrite firstn_app_2. reflexivity.
Qed.

(** The digits that [Uint64] writes for a number below a thousand. *)
Lemma FormatUint_small (e : Z) :
  0 <= e < 1000 ->
  strconv.FormatUint e
  = if e <? 10 then [Zbyte (e + 48)]
    else if e <? 100 then [Zbyte (e / 10 + 48); Zbyte (e mod 10 + 48)]
    else [Zbyte (e / 100 + 48); Zbyte ((e / 10) mod 10 + 48);
          Zbyte (e mod 10 + 48)].
Proof.
  intros He. unfold strconv.FormatUint, strconv.formatBits.
  cbn [strconv.digits_loop].
  destruct (Z.ltb_spec e 10); [reflexivity |].
  destruct (Z.ltb_spec e 100).
  - replace (e / 10 <? 10) with true; [reflexivity |].
    symmetry. apply Z.ltb_lt. apply Z.div_lt_upper_bound; lia.
  - replace (e / 10 <? 10) with false.
    2:{ symmetry. apply Z.ltb_ge. apply Z.div_le_lower_bound; lia. }
    replace (e / 10 / 10 <? 10) with true.
    2:{ symmetry. apply Z.ltb_lt. rewrite Z.div_div by lia.
        apply Z.div_lt_upper_bound; lia. }
    rewrite Z.div_div by lia. reflexivity.
Qed.

Lemma Zbyte_digit_nonzero (x : Z) :
  1 <= x <= 9 -> Byte.eqb (Zbyte (x + 48)) "0"%byte = false.
Proof.
  intros Hx.
  assert (H : x = 1 \/ x = 2 \/ x = 3 \/ x = 4 \/ x = 5 \/ x = 6 \/ x = 7
              \/ x = 8 \/ x = 9) by lia.
  repeat (destruct H as [H | H]; [subst x; reflexivity |]).
  subst x; reflexivity.
Qed.

(** The clean-up turns the padded exponent into the plain one, when the
    exponent is not one of [-6 .. 20]. *)
Lemma cleanup_exponent (buf body : bytes) (e : Z) :
  -324 <= e <= 308 -> e <= -7 \/ 21 <= e ->
  cleanup (len buf) (buf ++ body ++ "e"%byte :: padded_exponent e)
  = buf ++ body
    ++ ["e"%byte; if e <? 0 then "-"%byte else "+"%byte]
    ++ strconv.FormatUint (Z.abs e).
Proof.
  intros Hr He. unfold padded_exponent. cbv zeta.
  rewrite FormatUint_small by lia.
  set (s := if e <? 0 then "-"%byte else "+"%byte).
  set (a := Z.abs e).
  assert (Ha : 7 <= a <= 324) by lia.
  destruct (Z.ltb_spec a 10) as [L10 | G10].
  - (* a single digit, which only a negative exponent has *)
    assert (Hs : s = "-"%byte).
    { unfold s. destruct (Z.ltb_spec e 0); [reflexivity | lia]. }
    rewrite Hs.
    replace (buf ++ body ++ ["e"%byte; "-"%byte; "0"%byte; Zbyte (a + 48)])
      with ((buf ++ body) ++ ["e"%byte; "-"%byte; "0"%byte; Zbyte (a + 48)])
      by (rewrite <- app_assoc; reflexivity).
    rewrite cleanup_tail by (unfold len; rewrite length_app; lia).
    cbn [Byte.eqb andb]. rewrite <- app_assoc. reflexivity.
  - destruct (Z.ltb_spec a 100) as [L100 | G100].
    + replace (buf ++ body ++ ["e"%byte; s; Zbyte (a / 10 + 48);
                               Zbyte (a mod 10 + 48)])
        with ((buf ++ body) ++ ["e"%byte; s; Zbyte (a / 10 + 48);
                                Zbyte (a mod 10 + 48)])
        by (rewrite <- app_assoc; reflexivity).
      rewrite cleanup_tail by (unfold len; rewrite length_app; lia).
      rewrite Zbyte_digit_nonzero.
      2:{ split; [apply Z.div_le_lower_bound; lia |].
          apply Z.lt_succ_r. apply Z.div_lt_upper_bound; lia. }
      rewrite andb_false_r. rewrite <- app_assoc. reflexivity.
    + replace (buf ++ body ++ ["e"%byte; s; Zbyte (a / 100 + 48);
                               Zbyte (a / 10 mod 10 + 48);
                               Zbyte (a mod 10 + 48)])
        with ((buf ++ body ++ ["e"%byte])
                ++ [s; Zbyte (a / 100 + 48); Zbyte (a / 10 mod 10 + 48);
                    Zbyte (a mod 10 + 48)])
        by (rewrite <- !app_assoc; reflexivity).
      rewrite cleanup_tail by (unfold len; rewrite !length_app; lia).
      replace (Byte.eqb s "e"%byte) with false
        by (unfold s; destruct (e <? 0); reflexivity).
      cbn [andb]. rewrite <- !app_assoc. reflexivity.
Qed.

(** ** [Float64] on a finite float *)

Lemma AppendFloat_finite (f : float64) (buf : bytes) (fmt : byte) :
  is_float64 f -> non_finite f = false ->
  strconv.AppendFloat buf f fmt
  = let digs := strconv.ryuFtoaShortest (mant_of (f mod 2 ^ 63))
                                        (e2_of (f mod 2 ^ 63)) in
    if Byte.eqb fmt "e"%byte then
      strconv.fmtE buf (strconv.ftoa_neg f) digs
                   (Z.max (strconv.nd digs - 1) 0) fmt
    else
      strconv.fmtF buf (strconv.ftoa_neg f) digs
                   (Z.max (strconv.nd digs - strconv.dp digs) 0).
Proof.
  intros Hf Hn. unfold strconv.AppendFloat.
  change (Z.shiftl 1 strconv.expbits - 1) with 0x7FF.
  unfold non_finite in Hn. rewrite Hn.
  rewrite (ftoa_mant_of f Hf), (ftoa_exp_of f Hf). reflexivity.
Qed.

Lemma Float64_finite (f : float64) (buf : bytes) :
  is_float64 f -> non_finite f = false ->
  Float64 f buf
  = ((if negb (math.eq (math.Abs f) float_0)
         && (math.lt (math.Abs f) float_1e_6
             || math.ge (math.Abs f) float_1e21)
      then cleanup (len buf) (strconv.AppendFloat buf f "e"%byte)
      else strconv.AppendFloat buf f "f"%byte), None).
Proof.
  intros Hf Hn. unfold Float64.
  rewrite (IsInf_IsNaN_non_finite f Hf), Hn. cbv zeta.
  destruct (negb (math.eq (math.Abs f) float_0)
            && (math.lt (math.Abs f) float_1e_6
                || math.ge (math.Abs f) float_1e21)); reflexivity.
Qed.

(** What [Float64] appends for a finite float. *)
Lemma Float64_text (f : float64) (buf : bytes) :
  is_float64 f -> non_finite f = false ->
  let digs := strconv.ryuFtoaShortest (strconv.ftoa_mant f)
                (strconv.ftoa_exp f - strconv.mantbits) in
  Float64 f buf
  = (buf ++ (if in_fixed_range f
             then fixed_point (strconv.ftoa_neg f) digs
             else exponential (strconv.ftoa_neg f) digs), None).
Proof.
  intros Hf Hn. cbv zeta.
  rewrite (Float64_finite f buf Hf Hn).
  rewrite !(AppendFloat_finite f buf _ Hf Hn). cbv zeta.
  change (Byte.eqb "e"%byte "e"%byte) with true.
  change (Byte.eqb "f"%byte "e"%byte) with false. cbv iota.
  rewrite (ftoa_mant_of f Hf), (ftoa_exp_of f Hf).
  pose proof (finite_magnitude_of f Hf Hn) as Hm.
  rewrite (in_fixed_range_bits f Hm), (Abs_mod f Hf).
  set (m := f mod 2 ^ 63) in *.
  rewrite (eq_zero m Hm), (lt_1e_6 m Hm), (ge_1e21 m Hm).
  set (digs := strconv.ryuFtoaShortest (mant_of m) (e2_of m)).
  destruct (Z.eqb_spec m 0) as [E0 | N0]; cbn [negb andb orb].
  { assert (Ez : digs = strconv.mkDecimal [] 0)
      by (unfold digs; rewrite E0; reflexivity).
    rewrite fmtF_fixed by (rewrite Ez; reflexivity). reflexivity. }
  assert (Hpos : 0 < m) by (unfold finite_magnitude in Hm; lia).
  destruct (digits_facts m Hm Hpos) as (c & k & n & _ & Hlen & _).
  assert (Hd : strconv.d digs <> []).
  { intros E. fold digs in Hlen. rewrite E in Hlen. discriminate Hlen. }
  pose proof (point_range m Hm Hpos) as Hr. fold digs in Hr.
  destruct (Z.ltb_spec m float_1e_6) as [L6 | G6].
  - (* below 1e-6 *)
    replace (float_1e_6 <=? m) with false by (symmetry; apply Z.leb_gt; lia).
    cbn [andb orb]. f_equal.
    rewrite (fmtE_shape buf _ digs Hd).
    replace (buf ++ sign_text (strconv.ftoa_neg f)
                 ++ mantissa_text (strconv.d digs)
                 ++ "e"%byte :: padded_exponent (strconv.dp digs - 1))
      with (buf ++ (sign_text (strconv.ftoa_neg f)
                      ++ mantissa_text (strconv.d digs))
                ++ "e"%byte :: padded_exponent (strconv.dp digs - 1))
      by (rewrite <- !app_assoc; reflexivity).
    rewrite cleanup_exponent;
      [| exact Hr | left; apply (point_below_1e_6 m Hm Hpos L6)].
    unfold exponential. rewrite <- !app_assoc. reflexivity.
  - replace (float_1e_6 <=? m) with true by (symmetry; apply Z.leb_le; lia).
    destruct (Z.ltb_spec m float_1e21) as [L21 | G21].
    + (* from 1e-6 up to 1e21 *)
      replace (float_1e21 <=? m) with false
        by (symmetry; apply Z.leb_gt; lia).
      cbn [andb orb].
      rewrite fmtF_fixed by (intros E; contradiction). reflexivity.
    + (* 1e21 and above *)
      replace (float_1e21 <=? m) with true by (symmetry; apply Z.leb_le; lia).
      cbn [andb orb]. f_equal.
      assert (H21 : 21 <= strconv.dp digs - 1).
      { destruct (Z.eq_dec m float_1e21) as [E | NE].
        - unfold digs. rewrite E, digits_1e21. cbn [strconv.dp]. lia.
        - apply (point_above_1e21 m Hm Hpos). lia. }
      rewrite (fmtE_shape buf _ digs Hd).
      replace (buf ++ sign_text (strconv.ftoa_neg f)
                   ++ mantissa_text (strconv.d digs)
                   ++ "e"%byte :: padded_exponent (strconv.dp digs - 1))
        with (buf ++ (sign_text (strconv.ftoa_neg f)
                        ++ mantissa_text (strconv.d digs))
                  ++ "e"%byte :: padded_exponent (strconv.dp digs - 1))
        by (rewrite <- !app_assoc; reflexivity).
      rewrite cleanup_exponent; [| exact Hr | right; exact H21].
      unfold exponential. rewrite <- !app_assoc. reflexivity.
Qed.

(** ** No decimal inside the interval is shorter *)

Lemma in_interval_inside (mant e2 c k : Z) :
  strconv.in_interval mant e2 c k = true
  <-> inside (strconv.inclusive mant)
             (strconv.lower mant e2 * strconv.P10 k) (c * strconv.U10 k)
             (strconv.upper mant e2 * strconv.P10 k).
Proof.
  unfold strconv.in_interval, inside.
  destruct (strconv.inclusive mant); rewrite andb_true_iff;
    rewrite ?Z.leb_le, ?Z.ltb_lt; tauto.
Qed.

Lemma inside_scale (incl : bool) (lo x up M : Z) :
  0 < M -> (inside incl lo x up <-> inside incl (lo * M) (x * M) (up * M)).
Proof.
  intros HM. unfold inside. destruct incl.
  - rewrite <- !(Z.mul_le_mono_pos_r _ _ M HM). tauto.
  - rewrite <- !(Z.mul_lt_mono_pos_r M _ _ HM). tauto.
Qed.

Lemma inside_convex (incl : bool) (lo x y z up : Z) :
  inside incl lo x up -> inside incl lo z up -> x < y <= z ->
  inside incl lo y up.
Proof. unfold inside. destruct incl; lia. Qed.

(** The same on one scale for all [k] from [-K] on: the decimal is
    [c * 10^(k + K)] and the bounds are taken times [10^K]. *)
Lemma in_interval_common (mant e2 c k K : Z) :
  0 <= K -> - K <= k ->
  (strconv.in_interval mant e2 c k = true
   <-> inside (strconv.inclusive mant)
              (strconv.lower mant e2 * 10 ^ K)
              (c * 10 ^ (k + K) * 2 ^ strconv.scale)
              (strconv.upper mant e2 * 10 ^ K)).
Proof.
  intros HK Hk. rewrite in_interval_inside.
  unfold strconv.P10, strconv.U10.
  set (kn := Z.max (- k) 0). set (kp := Z.max k 0).
  assert (Hkk : kp - kn = k) by apply max_split.
  assert (0 <= kn <= K) by lia. assert (0 <= kp) by lia.
  assert (HM : 0 < 10 ^ (K - kn)) by (apply pow10_pos; lia).
  rewrite (inside_scale _ (strconv.lower mant e2 * 10 ^ kn) _ _ _ HM).
  assert (EP : 10 ^ kn * 10 ^ (K - kn) = 10 ^ K).
  { rewrite <- Z.pow_add_r by lia. f_equal. lia. }
  assert (EU : 10 ^ kp * 10 ^ (K - kn) = 10 ^ (k + K)).
  { rewrite <- Z.pow_add_r by lia. f_equal. lia. }
  replace (strconv.lower mant e2 * 10 ^ kn * 10 ^ (K - kn))
    with (strconv.lower mant e2 * 10 ^ K) by (rewrite <- EP; ring).
  replace (strconv.upper mant e2 * 10 ^ kn * 10 ^ (K - kn))
    with (strconv.upper mant e2 * 10 ^ K) by (rewrite <- EP; ring).
  replace (c * (2 ^ strconv.scale * 10 ^ kp) * 10 ^ (K - kn))
    with (c * 10 ^ (k + K) * 2 ^ strconv.scale) by (rewrite <- EU; ring).
  tauto.
Qed.

(** Above the starting point of the search nothing is inside. *)
Lemma nothing_above_start (mant e2 c k : Z) :
  0 < mant -> -1074 <= e2 ->
  strconv.search_from mant e2 < k ->
  strconv.in_interval mant e2 c k = false.
Proof.
  intros Hm He Hk.
  destruct (strconv.in_interval mant e2 c k) eqn:Hin; [exfalso | reflexivity].
  pose proof (in_interval_pos _ _ _ _ Hm He Hin) as Hc.
  apply in_interval_bounds in Hin. destruct Hin as [_ Hup].
  unfold strconv.search_from in Hk.
  rewrite Z.shiftr_div_pow2 in Hk by (unfold strconv.scale; lia).
  set (I := strconv.upper mant e2 / 2 ^ strconv.scale) in *.
  assert (HS : 0 < 2 ^ strconv.scale)
    by (apply pow2_pos; unfold strconv.scale; lia).
  assert (Hk0 : 0 < k) by lia.
  unfold strconv.P10, strconv.U10 in Hup.
  replace (Z.max (- k) 0) with 0 in Hup by lia.
  replace (Z.max k 0) with k in Hup by lia.
  rewrite Z.pow_0_r, Z.mul_1_r in Hup.
  assert (HI : 10 ^ k <= I).
  { unfold I. apply Z.div_le_lower_bound; [exact HS |].
    pose proof (pow10_pos k ltac:(lia)). nia. }
  assert (0 < I) by (pose proof (pow10_pos k ltac:(lia)); lia).
  destruct (digits_length I ltac:(lia)) as (n & Hl & Hn).
  rewrite Hl in Hk.
  assert (10 ^ k < 10 ^ Z.of_nat (S n)) by lia.
  apply Z.pow_lt_mono_r_iff in H0; lia.
Qed.

(** The search stops at the first [10^k] with a multiple inside. *)
Lemma search_first (mant e2 : Z) (n : nat) :
  forall k, k - Z.of_nat n = - strconv.scale ->
    - strconv.scale <= snd (strconv.search n mant e2 k) <= k
    /\ forall k', snd (strconv.search n mant e2 k) < k' <= k ->
                  strconv.candidate mant e2 k' = None.
Proof.
  induction n as [| n IH]; intros k Hk; cbn [strconv.search];
    destruct (strconv.candidate mant e2 k) as [c |] eqn:E; cbn [snd].
  - split; [lia | intros k' Hk'; lia].
  - split; [lia | intros k' Hk'; lia].
  - split; [lia | intros k' Hk'; lia].
  - destruct (IH (k - 1) ltac:(lia)) as [Hr Hnone].
    split; [lia |]. intros k' Hk'.
    destruct (Z.eq_dec k' k) as [-> | NE]; [exact E |].
    apply Hnone. lia.
Qed.

Lemma digits_loop_grows (n : nat) :
  forall u a, (len a <= len (strconv.digits_loop n u a))%nat.
Proof.
  induction n as [| n IH]; intros u a; cbn [strconv.digits_loop].
  - lia.
  - destruct (u <? 10); [unfold len; cbn [List.length]; lia |].
    apply Nat.le_trans with (len (Zbyte (u mod 10 + 48) :: a));
      [unfold len; cbn [List.length]; lia | apply IH].
Qed.

Lemma search_from_pos (mant e2 : Z) : 1 <= strconv.search_from mant e2.
Proof.
  unfold strconv.search_from, strconv.digits.
  set (u := Z.shiftr _ _). clearbody u. cbn [strconv.digits_loop].
  destruct (u <? 10); [unfold len; cbn [List.length]; lia |].
  pose proof (digits_loop_grows (Z.to_nat (Z.log2 u)) (u / 10)
                [Zbyte (u mod 10 + 48)]) as H.
  unfold len in *. cbn [List.length] in H. lia.
Qed.

Lemma shortest_first (mant e2 : Z) :
  0 < mant -> -1074 <= e2 ->
  forall c k, snd (strconv.shortest mant e2) < k ->
              strconv.in_interval mant e2 c k = false.
Proof.
  intros Hm He c k Hk.
  destruct (Z.lt_ge_cases (strconv.search_from mant e2) k) as [Top | In].
  - apply nothing_above_start; assumption.
  - unfold strconv.shortest in Hk.
    pose proof (search_from_pos mant e2).
    destruct (search_first mant e2
                (Z.to_nat (strconv.search_from mant e2 + strconv.scale))
                (strconv.search_from mant e2)) as [_ Hnone].
    { rewrite Z2Nat.id by (unfold strconv.scale; lia). lia. }
    apply candidate_None. apply Hnone. lia.
Qed.

(** The decimal of the search has the fewest digits of all the decimals
    inside the interval. *)
Theorem shortest_minimal (mant e2 : Z) :
  0 < mant -> -1074 <= e2 ->
  forall c' k', strconv.in_interval mant e2 c' k' = true ->
    (len (strconv.digits (fst (strconv.shortest mant e2)))
     <= len (strconv.digits c'))%nat.
Proof.
  intros Hm He c' k' Hin'.
  pose proof (shortest_in_interval mant e2 He) as Hin.
  pose proof (shortest_first mant e2 Hm He) as Hfirst.
  set (c := fst (strconv.shortest mant e2)) in *.
  set (kr := snd (strconv.shortest mant e2)) in *.
  pose proof (in_interval_pos _ _ _ _ Hm He Hin) as Hc.
  pose proof (in_interval_pos _ _ _ _ Hm He Hin') as Hc'.
  destruct (digits_length c Hc) as (j & Hl & Hj).
  destruct (digits_length c' Hc') as (j' & Hl' & Hj').
  rewrite Hl, Hl'.
  destruct (Nat.le_gt_cases j j') as [Le | Gt]; [lia | exfalso].
  destruct (Z.lt_ge_cases kr k') as [Above | Below].
  - rewrite (Hfirst c' k' Above) in Hin'. discriminate.
  - (* a power of ten between the two decimals, one place coarser *)
    set (K := Z.max (- k') 0 + Z.max (- kr) 0 + 1).
    assert (HK : 0 <= K) by lia.
    assert (Hy : strconv.in_interval mant e2 (10 ^ (Z.of_nat j - 1)) (kr + 1)
                 = true).
    { apply (in_interval_common mant e2 _ (kr + 1) K HK ltac:(lia)).
      apply (in_interval_common mant e2 c' k' K HK ltac:(lia)) in Hin'.
      apply (in_interval_common mant e2 c kr K HK ltac:(lia)) in Hin.
      assert (HS : 0 < 2 ^ strconv.scale)
        by (apply pow2_pos; unfold strconv.scale; lia).
      apply (inside_convex _ _ _ _ _ _ Hin' Hin).
      rewrite <- Z.pow_add_r by lia.
      replace (Z.of_nat j - 1 + (kr + 1 + K)) with (Z.of_nat j + (kr + K))
        by lia.
      rewrite (Z.pow_add_r 10 (Z.of_nat j) (kr + K)) by lia.
      assert (H1 : 10 ^ Z.of_nat (S j') <= 10 ^ Z.of_nat j)
        by (apply Z.pow_le_mono_r; lia).
      assert (H2 : 10 ^ (k' + K) <= 10 ^ (kr + K))
        by (apply Z.pow_le_mono_r; lia).
      pose proof (pow10_pos (k' + K) ltac:(lia)).
      pose proof (pow10_pos (kr + K) ltac:(lia)).
      pose proof (pow10_pos (Z.of_nat j) ltac:(lia)).
      set (A := 10 ^ Z.of_nat j) in *. set (B := 10 ^ (kr + K)) in *.
      set (B' := 10 ^ (k' + K)) in *. set (S := 2 ^ strconv.scale) in *.
      clearbody A B B' S.
      split.
      - apply Z.mul_lt_mono_pos_r; [exact HS |].
        apply Z.lt_le_trans with (A * B').
        + apply Z.mul_lt_mono_pos_r; lia.
        + apply Z.mul_le_mono_nonneg_l; lia.
      - apply Z.mul_le_mono_nonneg_r; [lia |].
        apply Z.mul_le_mono_nonneg_r; lia. }
    rewrite (Hfirst _ (kr + 1) ltac:(lia)) in Hy. discriminate.
Qed.

(** ** The notation of [Float64] *)

(** C5: for a finite float [Float64] appends fixed-point notation when
    the float is zero or its magnitude is in [[1e-6, 1e21)], and
    exponential notation with the exponent in plain decimal, not padded,
    otherwise; the digits, when the float is not one of the two zeros,
    are those of a shortest decimal that parses back to it. *)
Theorem Float64_notation (f : float64) (buf : bytes) :
  is_float64 f -> non_finite f = false ->
  let digs := strconv.ryuFtoaShortest (strconv.ftoa_mant f)
                (strconv.ftoa_exp f - strconv.mantbits) in
  Float64 f buf
  = (buf ++ (if in_fixed_range f
             then fixed_point (strconv.ftoa_neg f) digs
             else exponential (strconv.ftoa_neg f) digs), None)
  /\ (f mod 2 ^ 63 <> 0 -> shortest_round_trip f digs).
Proof.
  intros Hf Hn digs. split; [apply Float64_text; assumption |].
  intros Hz. unfold shortest_round_trip, round_trips, digs.
  pose proof (finite_magnitude_of f Hf Hn) as Hm.
  rewrite (ftoa_mant_of f Hf), (ftoa_exp_of f Hf).
  set (m := f mod 2 ^ 63) in *.
  assert (Hpos : 0 < m) by (unfold finite_magnitude in Hm; lia).
  pose proof (mant_of_pos m Hm Hpos) as Hmant.
  rewrite ryuFtoaShortest_nonzero by lia. cbn [strconv.d strconv.dp].
  exists (fst (strconv.shortest (mant_of m) (e2_of m))),
         (snd (strconv.shortest (mant_of m) (e2_of m))).
  split; [reflexivity | split; [reflexivity | split]].
  - apply shortest_in_interval, e2_of_ge.
  - apply shortest_minimal; [exact Hmant | apply e2_of_ge].
Qed.

Lemma Float64_notation_witness :
  is_float64 float_5e_7 /\ non_finite float_5e_7 = false
  /\ Float64 float_5e_7 (str "x=") = (str "x=5e-7", None)
  /\ is_float64 0xC05EDD2F1A9FBE77 /\ non_finite 0xC05EDD2F1A9FBE77 = false
  /\ Float64 0xC05EDD2F1A9FBE77 (str "x=") = (str "x=-123.456", None).
Proof.
  assert (Hf : is_float64 float_5e_7) by (unfold is_float64, float_5e_7; lia).
  assert (Hn : non_finite float_5e_7 = false) by reflexivity.
  assert (Hg : is_float64 0xC05EDD2F1A9FBE77) by (unfold is_float64; lia).
  assert (Hm : non_finite 0xC05EDD2F1A9FBE77 = false) by reflexivity.
  split; [exact Hf | split; [exact Hn | split]].
  - destruct (Float64_notation float_5e_7 (str "x=") Hf Hn) as [E _].
    rewrite E. vm_compute. reflexivity.
  - split; [exact Hg | split; [exact Hm |]].
    destruct (Float64_notation 0xC05EDD2F1A9FBE77 (str "x=") Hg Hm)
      as [E _].
    rewrite E. vm_compute. reflexivity.
Defined.

Example Float64_1e21 : Float64 float_1e21 [] = (str "1e+21", None).
Proof. vm_compute. reflexivity. Qed.

Example Float64_fixed :
  Float64 0xC05EDD2F1A9FBE77 [] = (str "-123.456", None).
Proof. vm_compute. reflexivity. Qed.

(** Half way between two decimals of the shortest length the digits go
    to the even one: [(2^52 + 1) / 4] is [1125899906842624.25]. *)
Example Float64_tie_to_even :
  Float64 0x4310000000000001 [] = (str "1125899906842624.2", None)
  /\ Float64 0x4310000000000003 [] = (str "1125899906842624.8", None).
Proof. split; vm_compute; reflexivity. Qed.

Example Float64_zero :
  Float64 0 [] = (str "0", None)
  /\ Float64 0x3F50624DD2F1A9FC [] = (str "0.001", None)
  /\ Float64 0x40C3880000000000 [] = (str "10000", None).
Proof. repeat split; vm_compute; reflexivity. Qed.

(** * Further properties *)

(** ** The string encoder only appends *)

Lemma flush_run_app (s : bytes) (start i : nat) (b x : bytes) :
  flush_run s start i (b ++ x) = b ++ flush_run s start i x.
Proof.
  unfold flush_run.
  destruct (start <? i)%nat; [apply eq_sym, app_assoc | reflexivity].
Qed.

Lemma String_body_prepend (s b : bytes) (st : scan) :
  String_body s (prepend b st) = prepend b (String_body s st).
Proof.
  destruct st as [i start x]. unfold prepend, String_body.
  cbn [sc_i sc_start sc_buf].
  rewrite !flush_run_app.
  destruct (byteZ (index s i) <? utf8.RuneSelf).
  - destruct (htmlSafeSet (byteZ (index s i))); [reflexivity |].
    repeat match goal with
    | |- context [if ?c then _ else _] => destruct c
    end; cbn [sc_i sc_start sc_buf]; rewrite <- ?app_assoc; reflexivity.
  - destruct (utf8.DecodeRuneInString (skipn i s)) as [c size].
    repeat match goal with
    | |- context [if ?c then _ else _] => destruct c
    end; cbn [sc_i sc_start sc_buf]; rewrite <- ?app_assoc; reflexivity.
Qed.

Lemma String_finish_prepend (s b : bytes) (st : scan) :
  String_finish s (prepend b st) = b ++ String_finish s st.
Proof.
  unfold String_finish, prepend. cbn [sc_i sc_start sc_buf].
  destruct (sc_start st <? len s)%nat; rewrite <- ?app_assoc; reflexivity.
Qed.

Lemma String_loop_prepend (fuel : nat) (s b : bytes) :
  forall st, String_loop fuel s (prepend b st)
             = option_map (app b) (String_loop fuel s st).
Proof.
  induction fuel as [| fuel IH]; intros st; cbn [String_loop];
    change (sc_i (prepend b st)) with (sc_i st);
    destruct (sc_i st <? len s)%nat.
  - reflexivity.
  - rewrite String_finish_prepend. reflexivity.
  - rewrite String_body_prepend. apply IH.
  - rewrite String_finish_prepend. reflexivity.
Qed.

Lemma String_loop_ends_quoted (fuel : nat) (s : bytes) :
  forall st out, String_loop fuel s st = Some out ->
                 exists body, out = body ++ [quote].
Proof.
  induction fuel as [| fuel IH]; intros st out; cbn [String_loop];
    destruct (sc_i st <? len s)%nat; intros H; try discriminate.
  - injection H as <-. unfold String_finish. eauto.
  - apply (IH _ _ H).
  - injection H as <-. unfold String_finish. eauto.
Qed.

Lemma String_prefix (fuel : nat) (s buf : bytes) :
  String fuel s buf = option_map (app buf) (String fuel s []).
Proof.
  unfold String. cbn [app].
  replace (mkScan 0 0 (buf ++ [quote]))
    with (prepend buf (mkScan 0 0 [quote])) by reflexivity.
  apply String_loop_prepend.
Qed.

Lemma FieldName_appends (fuel : nat) (name buf : bytes) :
  FieldName fuel name buf = option_map (app buf) (FieldName fuel name []).
Proof.
  unfold FieldName. rewrite (String_prefix fuel name buf).
  destruct (String fuel name []) as [o |]; cbn [option_map];
    [rewrite <- app_assoc |]; reflexivity.
Qed.

(** X1: [String] and [FieldName] only append: what they do on a buffer is
    what they do on the empty one with the buffer in front, and they
    return on the one when they return on the other. *)
Theorem String_keeps_buffer (fuel : nat) (s buf : bytes) :
  String fuel s buf = option_map (app buf) (String fuel s [])
  /\ FieldName fuel s buf = option_map (app buf) (FieldName fuel s []).
Proof.
  split; [apply String_prefix | apply FieldName_appends].
Qed.

(** ** ASCII strings *)

Lemma skipn_app_le (pre r : bytes) (n : nat) :
  (n <= len pre)%nat -> skipn n (pre ++ r) = skipn n pre ++ r.
Proof.
  intros H. rewrite skipn_app.
  replace (n - List.length pre)%nat with 0%nat by (unfold len in H; lia).
  reflexivity.
Qed.

Lemma slice_prefix (pre r : bytes) (start : nat) :
  (start <= len pre)%nat -> slice (pre ++ r) start (len pre) = skipn start pre.
Proof.
  intros H. unfold slice. rewrite skipn_app_le by exact H.
  replace (len pre - start)%nat with (List.length (skipn start pre) + 0)%nat
    by (rewrite length_skipn; unfold len; lia).
  rewrite firstn_app_2. cbn [firstn]. apply app_nil_r.
Qed.

Lemma flush_run_prefix (pre r acc : bytes) (start : nat) :
  (start <= len pre)%nat ->
  flush_run (pre ++ r) start (len pre) acc = acc ++ skipn start pre.
Proof.
  intros H. unfold flush_run.
  destruct (Nat.ltb_spec start (len pre)) as [L | G].
  - rewrite slice_prefix by exact H. reflexivity.
  - replace start with (len pre) by lia.
    unfold len. rewrite skipn_all, app_nil_r. reflexivity.
Qed.

Lemma String_body_ascii (pre rest acc : bytes) (b : byte) (start : nat) :
  is_ascii b -> (start <= len pre)%nat ->
  String_body (pre ++ b :: rest) (mkScan (len pre) start acc)
  = if htmlSafeSet (byteZ b) then mkScan (S (len pre)) start acc
    else mkScan (S (len pre)) (S (len pre))
                ((acc ++ skipn start pre) ++ escape_ascii b).
Proof.
  intros Hb Hs. unfold String_body. cbn [sc_i sc_start sc_buf].
  rewrite index_len_app. change (index (b :: rest) 0) with b.
  replace (byteZ b <? utf8.RuneSelf) with true
    by (symmetry; apply Z.ltb_lt; exact Hb).
  unfold escape_ascii.
  destruct (htmlSafeSet (byteZ b)); [reflexivity |].
  rewrite flush_run_prefix by exact Hs.
  repeat match goal with
  | |- context [if ?c then _ else _] => destruct c
  end; rewrite <- !app_assoc; reflexivity.
Qed.

Lemma String_loop_ascii (X : bytes) :
  forall rest pre start acc,
    Forall is_ascii rest -> (start <= len pre)%nat ->
    acc ++ skipn start pre = X ++ List.concat (map escape_ascii pre) ->
    String_loop (len rest) (pre ++ rest) (mkScan (len pre) start acc)
    = Some (X ++ List.concat (map escape_ascii (pre ++ rest)) ++ [quote]).
Proof.
  induction rest as [| b rest IH]; intros pre start acc Ha Hs Hinv.
  - rewrite app_nil_r. rewrite String_loop_exit by (cbn [sc_i]; lia).
    unfold String_finish. cbn [sc_start sc_buf].
    replace (slice pre start (len pre)) with (skipn start pre)
      by (rewrite <- (app_nil_r pre) at 2; symmetry; rewrite slice_prefix;
          [reflexivity | exact Hs]).
    destruct (Nat.ltb_spec start (len pre)) as [L | G].
    + rewrite Hinv, <- app_assoc. reflexivity.
    + replace start with (len pre) in Hinv by lia.
      unfold len in Hinv. rewrite skipn_all, app_nil_r in Hinv.
      rewrite Hinv, <- app_assoc. reflexivity.
  - inversion Ha as [| ? ? Hb Ha']; subst.
    change (len (b :: rest)) with (S (len rest)).
    rewrite String_loop_step
      by (cbn [sc_i]; unfold len; rewrite length_app; simpl; lia).
    rewrite (String_body_ascii pre rest acc b start Hb Hs).
    replace (pre ++ b :: rest) with ((pre ++ [b]) ++ rest)
      by (rewrite <- app_assoc; reflexivity).
    assert (Hl : S (len pre) = len (pre ++ [b]))
      by (unfold len; rewrite length_app; simpl; lia).
    assert (Hm : List.concat (map escape_ascii (pre ++ [b]))
                 = List.concat (map escape_ascii pre) ++ escape_ascii b).
    { rewrite map_app, concat_app. cbn [map List.concat].
      rewrite app_nil_r. reflexivity. }
    destruct (htmlSafeSet (byteZ b)) eqn:Hsafe.
    + rewrite Hl. apply IH; [exact Ha' | lia |].
      rewrite skipn_app_le by exact Hs.
      rewrite Hm, app_assoc, Hinv. unfold escape_ascii. rewrite Hsafe.
      rewrite <- app_assoc. reflexivity.
    + rewrite Hl. apply IH; [exact Ha' | lia |].
      unfold len. rewrite skipn_all, app_nil_r.
      rewrite Hm, Hinv, <- app_assoc. reflexivity.
Qed.

Lemma unescape_escape_ascii (b : byte) (rest : bytes) :
  is_ascii b ->
  unescape (escape_ascii b ++ rest) = option_map (cons b) (unescape rest).
Proof.
  unfold is_ascii. intros H.
  destruct b; try (exfalso; vm_compute in H; discriminate H); reflexivity.
Qed.

Lemma unescape_escaped (s : bytes) :
  Forall is_ascii s -> unescape (List.concat (map escape_ascii s)) = Some s.
Proof.
  induction 1 as [| b s Hb _ IH]; [reflexivity |].
  cbn [map List.concat].
  rewrite (unescape_escape_ascii b _ Hb), IH. reflexivity.
Qed.

(** X2: on a string of ASCII bytes [String] returns within one iteration
    for each byte and appends, between two double quotes, what
    [escape_ascii] gives for each byte in turn; a reader of JSON strings
    gets the string back from that text. *)
Theorem String_ascii (s buf : bytes) :
  Forall is_ascii s ->
  String (len s) s buf
  = Some (buf ++ quote :: List.concat (map escape_ascii s) ++ [quote])
  /\ unescape (List.concat (map escape_ascii s)) = Some s.
Proof.
  intros Ha. split; [| exact (unescape_escaped s Ha)]. unfold String.
  pose proof (String_loop_ascii (buf ++ [quote]) s [] 0%nat (buf ++ [quote])
                                Ha) as H.
  cbn [app len List.length skipn map List.concat] in H.
  rewrite H; [| lia | rewrite !app_nil_r; reflexivity].
  rewrite <- app_assoc. reflexivity.
Qed.

Lemma String_ascii_witness :
  Forall is_ascii (str "<a&b>")
  /\ String 5 (str "<a&b>") []
     = Some (quote :: "\"%byte :: str "u003ca" ++ "\"%byte :: str "u0026b"
             ++ "\"%byte :: str "u003e" ++ [quote])
  /\ unescape ("\"%byte :: str "u003ca" ++ "\"%byte :: str "u0026b"
               ++ "\"%byte :: str "u003e") = Some (str "<a&b>").
Proof.
  assert (H : Forall is_ascii (str "<a&b>"))
    by (repeat constructor).
  split; [exact H |].
  exact (String_ascii (str "<a&b>") [] H).
Defined.

(** ** Text that needs no escape *)

Lemma htmlSafeSet_ascii (b : Z) : htmlSafeSet b = true -> b < utf8.RuneSelf.
Proof.
  unfold htmlSafeSet, utf8.RuneSelf. intros H.
  repeat (apply andb_true_iff in H; destruct H as [H ?]).
  apply Z.ltb_lt. assumption.
Qed.

Lemma String_finish_whole (s B : bytes) (i : nat) :
  String_finish s (mkScan i 0 B) = B ++ s ++ [quote].
Proof.
  unfold String_finish. cbn [sc_start sc_buf].
  destruct s as [| x s].
  - reflexivity.
  - replace (0 <? len (x :: s))%nat with true by reflexivity.
    unfold slice. rewrite Nat.sub_0_r. cbn [skipn]. unfold len.
    rewrite firstn_all, <- app_assoc. reflexivity.
Qed.

Lemma String_loop_verbatim (s B : bytes) :
  forall n i fuel,
    (len s - i <= n)%nat -> (len s <= i + fuel)%nat ->
    verbatim (skipn i s) ->
    String_loop fuel s (mkScan i 0 B) = Some (B ++ s ++ [quote]).
Proof.
  induction n as [| n IH]; intros i fuel Hn Hf Hv.
  - rewrite String_loop_exit by (cbn [sc_i]; lia).
    rewrite String_finish_whole. reflexivity.
  - destruct (Nat.lt_ge_cases i (len s)) as [L | G].
    2:{ rewrite String_loop_exit by (cbn [sc_i]; lia).
        rewrite String_finish_whole. reflexivity. }
    destruct fuel as [| fuel]; [lia |].
    rewrite String_loop_step by (cbn [sc_i]; exact L).
    pose proof (skipn_index s i L) as Es.
    remember (skipn (S i) s) as tl eqn:Etl.
    rewrite Es in Hv.
    inversion Hv as [| b r Hb Hr Eb | b r c size Hb Hd Hc H8 H9 Hr Eb].
    + apply htmlSafeSet_ascii in Hb as Hlt.
      unfold String_body. cbn [sc_i sc_start sc_buf].
      replace (byteZ (index s i) <? utf8.RuneSelf) with true
        by (symmetry; apply Z.ltb_lt; exact Hlt).
      rewrite Hb. apply IH; [lia | lia | rewrite <- Etl; exact Hr].
    + pose proof (DecodeRuneInString_size _ _ _ Hd) as (_ & H1 & _).
      assert (1 <= size)%nat by (apply H1; discriminate).
      unfold String_body. cbn [sc_i sc_start sc_buf].
      replace (byteZ (index s i) <? utf8.RuneSelf) with false
        by (symmetry; apply Z.ltb_ge; exact Hb).
      rewrite Es, Hd.
      replace ((c =? utf8.RuneError) && (size =? 1)%nat) with false.
      2:{ symmetry. apply andb_false_iff.
          destruct Hc as [Hc | Hc];
            [left; apply Z.eqb_neq | right; apply Nat.eqb_neq]; exact Hc. }
      replace ((c =? 0x2028) || (c =? 0x2029)) with false.
      2:{ symmetry. apply orb_false_iff. split; apply Z.eqb_neq; assumption. }
      apply IH; [lia | lia |].
      rewrite <- Es in Hr. rewrite skipn_skipn in Hr.
      rewrite Nat.add_comm. exact Hr.
Qed.

(** X3: text that needs no escape is copied as it is: for a string made of
    ASCII bytes of [htmlSafeSet] and of encoded characters other than
    U+2028 and U+2029, [String] appends the string between two double
    quotes, in no more iterations than the string has bytes. *)
Theorem String_verbatim (fuel : nat) (s buf : bytes) :
  verbatim s -> (len s <= fuel)%nat ->
  String fuel s buf = Some (buf ++ quote :: s ++ [quote]).
Proof.
  intros Hv Hf. unfold String.
  rewrite (String_loop_verbatim s (buf ++ [quote]) (len s) 0 fuel);
    [rewrite <- app_assoc; reflexivity | lia | lia | exact Hv].
Qed.

Lemma String_verbatim_witness :
  String 6 [xc3; xa9; "a"%byte; xef; xbf; xbd] (str "k:")
  = Some (str "k:" ++ quote :: [xc3; xa9; "a"%byte; xef; xbf; xbd]
            ++ [quote]).
Proof.
  apply (String_verbatim 6 [xc3; xa9; "a"%byte; xef; xbf; xbd] (str "k:")).
  - apply (verbatim_rune xc3 _ 0xE9 2);
      [vm_compute; discriminate | reflexivity | right; discriminate
       | discriminate | discriminate |].
    apply verbatim_ascii; [reflexivity |].
    apply (verbatim_rune xef _ 0xFFFD 3);
      [vm_compute; discriminate | reflexivity | right; discriminate
       | discriminate | discriminate |].
    apply verbatim_nil.
  - cbn. lia.
Defined.

(** ** What the string encoder never writes *)

Lemma hex_script_safe (k : nat) :
  (k < 16)%nat -> script_safe (index hex k) = true.
Proof.
  intros H. do 16 (destruct k as [| k]; [reflexivity |]). lia.
Qed.

Lemma htmlSafeSet_script_safe (b : byte) :
  htmlSafeSet (byteZ b) = true -> script_safe b = true.
Proof.
  unfold htmlSafeSet, script_safe. intros H.
  repeat (apply andb_true_iff in H; destruct H as [H ?]).
  repeat (apply andb_true_iff; split); assumption.
Qed.

Lemma high_script_safe (b : byte) :
  0x80 <= byteZ b -> script_safe b = true.
Proof.
  intros H. unfold script_safe.
  repeat (apply andb_true_iff; split);
    first [apply Z.leb_le; lia | apply negb_true_iff, Z.eqb_neq; lia].
Qed.

Lemma slice_split (s : bytes) (start i n : nat) :
  (start <= i)%nat ->
  slice s start (i + n) = slice s start i ++ slice s i (i + n).
Proof.
  intros H. unfold slice.
  replace (i + n - start)%nat with ((i - start) + n)%nat by lia.
  replace (i + n - i)%nat with n by lia.
  pose proof (firstn_two_slices (skipn start s) (i - start) n) as E.
  unfold slice in E. rewrite Nat.sub_0_r in E. cbn [skipn] in E.
  replace (i - start + n - (i - start))%nat with n in E by lia.
  rewrite <- E, skipn_skipn.
  replace (i - start + start)%nat with i by lia. reflexivity.
Qed.

Lemma slice_empty (s : bytes) (i : nat) : slice s i i = [].
Proof. unfold slice. rewrite Nat.sub_diag. reflexivity. Qed.

Lemma firstn_Forall (P : byte -> Prop) (t : bytes) (n : nat) :
  (forall j, (j < n)%nat -> (j < len t)%nat -> P (index t j)) ->
  Forall P (firstn n t).
Proof.
  revert n. induction t as [| x t IH]; intros n H.
  - rewrite firstn_nil. constructor.
  - destruct n as [| n]; [constructor |].
    cbn [firstn]. constructor.
    + apply (H 0%nat); simpl; lia.
    + apply IH. intros j Hj Hl. apply (H (S j)); simpl; lia.
Qed.

Lemma all_safe_app (a b : bytes) : all_safe a -> all_safe b -> all_safe (a ++ b).
Proof. intros. apply Forall_app. split; assumption. Qed.

Lemma flush_run_safe (s : bytes) (start i : nat) (buf : bytes) :
  all_safe buf -> all_safe (slice s start i) ->
  all_safe (flush_run s start i buf).
Proof.
  intros Hb Hs. unfold flush_run.
  destruct (start <? i)%nat; [apply all_safe_app |]; assumption.
Qed.

Lemma String_body_safe (s : bytes) (st : scan) :
  (sc_i st < len s)%nat -> scan_safe s st -> scan_safe s (String_body s st).
Proof.
  destruct st as [i start buf]. unfold scan_safe.
  cbn [sc_i sc_start sc_buf]. intros Hi (Hbuf & Hrun & Hle).
  pose proof (flush_run_safe s start i buf Hbuf Hrun) as Hflush.
  pose proof (byteZ_range (index s i)) as Hr.
  unfold String_body. cbn [sc_i sc_start sc_buf].
  destruct (Z.ltb_spec (byteZ (index s i)) utf8.RuneSelf) as [La | Ga].
  - destruct (htmlSafeSet (byteZ (index s i))) eqn:Hsafe;
      cbn [sc_i sc_start sc_buf].
    + split; [exact Hbuf | split; [| lia]].
      replace (S i) with (i + 1)%nat by lia.
      rewrite slice_split by exact Hle.
      apply all_safe_app; [exact Hrun |].
      unfold slice. replace (i + 1 - i)%nat with 1%nat by lia.
      apply firstn_Forall. intros j Hj _.
      replace j with 0%nat by lia. rewrite index_skipn, Nat.add_0_r.
      apply htmlSafeSet_script_safe, Hsafe.
    + rewrite slice_empty. split; [| split; [constructor | lia]].
      unfold utf8.RuneSelf in La.
      repeat match goal with
      | |- context [if ?c then _ else _] => destruct c eqn:?
      end; repeat apply all_safe_app; try exact Hflush;
        repeat (constructor; try reflexivity).
      * (* the byte is a backslash or a quote *)
        apply orb_true_iff in Heqb.
        unfold script_safe.
        destruct Heqb as [E | E]; apply Z.eqb_eq in E; rewrite E; reflexivity.
      * apply hex_script_safe.
        rewrite Z.shiftr_div_pow2 by lia.
        assert (byteZ (index s i) / 2 ^ 4 < 8)
          by (apply Z.div_lt_upper_bound; lia).
        assert (0 <= byteZ (index s i) / 2 ^ 4) by (apply Z.div_pos; lia).
        lia.
      * apply hex_script_safe.
        change 15 with (Z.ones 4). rewrite Z.land_ones by lia.
        pose proof (Z.mod_pos_bound (byteZ (index s i)) (2 ^ 4) ltac:(lia)).
        lia.
  - destruct (utf8.DecodeRuneInString (skipn i s)) as [c size] eqn:D.
    apply DecodeRuneInString_size in D. destruct D as (_ & _ & Hcont).
    destruct ((c =? utf8.RuneError) && (size =? 1)%nat);
      cbn [sc_i sc_start sc_buf].
    + rewrite slice_empty. split; [| split; [constructor | lia]].
      repeat apply all_safe_app; try exact Hflush.
      repeat (constructor; try reflexivity).
    + destruct (Z.eqb_spec c 8232) as [E1 | N1];
        [| destruct (Z.eqb_spec c 8233) as [E2 | N2]];
        cbn [orb sc_i sc_start sc_buf].
      * rewrite slice_empty. split; [| split; [constructor | lia]].
        subst c. repeat apply all_safe_app; try exact Hflush.
        repeat (constructor; try reflexivity).
      * rewrite slice_empty. split; [| split; [constructor | lia]].
        subst c. repeat apply all_safe_app; try exact Hflush.
        repeat (constructor; try reflexivity).
      * split; [exact Hbuf | split; [| lia]].
        rewrite slice_split by exact Hle.
        apply all_safe_app; [exact Hrun |].
        unfold slice. replace (i + size - i)%nat with size by lia.
        apply firstn_Forall. intros j Hj _.
        apply high_script_safe.
        destruct j as [| j].
        -- rewrite index_skipn, Nat.add_0_r. exact Ga.
        -- specialize (Hcont (S j) ltac:(lia)). lia.
Qed.

Lemma String_finish_safe (s : bytes) (st : scan) :
  (len s <= sc_i st)%nat -> scan_safe s st -> all_safe (String_finish s st).
Proof.
  intros Ge (Hbuf & Hrun & Hle). unfold String_finish.
  apply all_safe_app; [| repeat constructor].
  destruct (Nat.ltb_spec (sc_start st) (len s)) as [L | G]; [| exact Hbuf].
  apply all_safe_app; [exact Hbuf |].
  replace (slice s (sc_start st) (len s))
    with (slice s (sc_start st) (sc_i st)); [exact Hrun |].
  unfold slice. rewrite !firstn_all2; [reflexivity | |];
    rewrite length_skipn; unfold len in *; lia.
Qed.

Lemma String_loop_safe (fuel : nat) (s : bytes) :
  forall st out, scan_safe s st -> String_loop fuel s st = Some out ->
                 all_safe out.
Proof.
  induction fuel as [| fuel IH]; intros st out Hst; cbn [String_loop];
    destruct (Nat.ltb_spec (sc_i st) (len s)) as [L | G]; intros H;
    try discriminate.
  - injection H as <-. apply String_finish_safe; assumption.
  - apply (IH _ _ (String_body_safe s st L Hst) H).
  - injection H as <-. apply String_finish_safe; assumption.
Qed.

(** X4: whatever the string, what [String] appends is a quoted text, and
    between the quotes there is no control character and none of [<], [>],
    [&]. *)
Theorem String_script_safe (fuel : nat) (s buf out : bytes) :
  String fuel s buf = Some out ->
  exists body, out = buf ++ quote :: body ++ [quote] /\ all_safe body.
Proof.
  intros H. rewrite String_prefix in H.
  destruct (String fuel s []) as [text |] eqn:T; [| discriminate].
  injection H as <-.
  assert (Hsafe : all_safe text).
  { unfold String in T.
    apply (String_loop_safe fuel s (mkScan 0 0 ([] ++ [quote])) text);
      [| exact T].
    unfold scan_safe. cbn [sc_i sc_start sc_buf app].
    rewrite slice_empty. repeat split; try constructor; try reflexivity.
    constructor. }
  assert (Hq : exists body, text = quote :: body ++ [quote]).
  { unfold String in T.
    change (mkScan 0 0 ([] ++ [quote]))
      with (prepend [quote] (mkScan 0 0 [])) in T.
    rewrite String_loop_prepend in T.
    destruct (String_loop fuel s (mkScan 0 0 [])) as [o |] eqn:L;
      [| discriminate].
    destruct (String_loop_ends_quoted _ _ _ _ L) as [body ->].
    injection T as <-. exists body. reflexivity. }
  destruct Hq as [body ->]. exists body. split; [reflexivity |].
  unfold all_safe in *. inversion Hsafe as [| ? ? _ Hrest]; subst.
  apply Forall_app in Hrest. tauto.
Qed.

Lemma String_script_safe_witness :
  String 9 (str "<b>&") (str "k=")
  = Some (str "k=" ++ quote :: "\"%byte :: str "u003cb" ++ "\"%byte
          :: str "u003e" ++ "\"%byte :: str "u0026" ++ [quote])
  /\ exists body,
       str "k=" ++ quote :: "\"%byte :: str "u003cb" ++ "\"%byte
          :: str "u003e" ++ "\"%byte :: str "u0026" ++ [quote]
       = str "k=" ++ quote :: body ++ [quote]
       /\ all_safe body.
Proof.
  assert (E : String 9 (str "<b>&") (str "k=")
              = Some (str "k=" ++ quote :: "\"%byte :: str "u003cb" ++ "\"%byte
                      :: str "u003e" ++ "\"%byte :: str "u0026" ++ [quote]))
    by (vm_compute; reflexivity).
  split; [exact E | exact (String_script_safe _ _ _ _ E)].
Defined.

(** ** The scan returns *)

Lemma String_loop_result (s : bytes) :
  no_separator s ->
  forall n st, (len s - sc_i st <= n)%nat ->
    exists out, forall fuel, (len s <= sc_i st + fuel)%nat ->
      String_loop fuel s st = Some out.
Proof.
  intros Hs. induction n as [| n IH]; intros st Hn.
  - exists (String_finish s st). intros fuel _.
    apply String_loop_exit. lia.
  - destruct (Nat.lt_ge_cases (sc_i st) (len s)) as [L | G].
    + pose proof (String_body_advances s st Hs L) as Ha.
      destruct (IH (String_body s st)) as [out Hout]; [lia |].
      exists out. intros [| fuel] Hf; [lia |].
      rewrite String_loop_step by exact L. apply Hout. lia.
    + exists (String_finish s st). intros fuel _.
      apply String_loop_exit. exact G.
Qed.

(** X5: on a string in which no position decodes to U+2028 or U+2029 the
    scan of [String] returns: one iteration for each byte of the string is
    enough, and more iterations give the same buffer. *)
Theorem String_returns (s buf : bytes) :
  no_separator s ->
  exists out, forall fuel, (len s <= fuel)%nat ->
    String fuel s buf = Some out.
Proof.
  intros Hs.
  destruct (String_loop_result s Hs (len s) (mkScan 0 0 (buf ++ [quote])))
    as [out Hout]; [simpl; lia |].
  exists out. intros fuel Hf. apply Hout. simpl. lia.
Qed.

Lemma String_returns_witness :
  no_separator [xc3; xa9; xff; "a"%byte]
  /\ exists out, forall fuel, (len [xc3; xa9; xff; "a"%byte] <= fuel)%nat ->
       String fuel [xc3; xa9; xff; "a"%byte] [] = Some out.
Proof.
  assert (H : no_separator [xc3; xa9; xff; "a"%byte]).
  { intros i Hi. unfold len in Hi. cbn [List.length] in Hi.
    destruct i as [| [| [| [| i]]]]; [| | | | lia];
      vm_compute; split; discriminate. }
  split; [exact H |].
  exact (String_returns [xc3; xa9; xff; "a"%byte] [] H).
Defined.

(** ** Integers read back *)

Lemma byteZ_Zbyte (z : Z) : 0 <= z < 256 -> byteZ (Zbyte z) = z.
Proof.
  intros Hz. unfold byteZ, Zbyte. rewrite Z.mod_small by lia.
  destruct (Byte.of_N (Z.to_N z)) as [b |] eqn:E.
  - apply Byte.to_of_N in E. rewrite E. lia.
  - apply Byte.of_N_None_iff in E. lia.
Qed.

Lemma digits_loop_app (n : nat) :
  forall u a, strconv.digits_loop n u a = strconv.digits_loop n u [] ++ a.
Proof.
  induction n as [| n IH]; intros u a; cbn [strconv.digits_loop].
  - reflexivity.
  - destruct (u <? 10); [reflexivity |].
    rewrite (IH _ (_ :: a)), (IH _ [_]), <- app_assoc. reflexivity.
Qed.

Lemma decimal_value_snoc (l : bytes) (d : byte) :
  decimal_value (l ++ [d]) = 10 * decimal_value l + (byteZ d - 48).
Proof. unfold decimal_value. rewrite fold_left_app. reflexivity. Qed.

Lemma Zbyte_digit_zero (x : Z) :
  0 <= x <= 9 -> Zbyte (x + 48) = "0"%byte -> x = 0.
Proof.
  intros Hx E. apply (f_equal byteZ) in E.
  rewrite byteZ_Zbyte in E by lia. change (byteZ "0"%byte) with 48 in E. lia.
Qed.

Lemma is_digit_Zbyte (x : Z) :
  0 <= x <= 9 -> is_digit (Zbyte (x + 48)) = true.
Proof.
  intros Hx. unfold is_digit. rewrite byteZ_Zbyte by lia.
  apply andb_true_iff. split; apply Z.leb_le; lia.
Qed.

Lemma single_digit (u : Z) :
  0 <= u < 10 ->
  decimal_value [Zbyte (u + 48)] = u
  /\ Forall (fun b => is_digit b = true) [Zbyte (u + 48)]
  /\ [Zbyte (u + 48)] <> []
  /\ (0 < u -> hd x00 [Zbyte (u + 48)] <> "0"%byte).
Proof.
  intros Hu. repeat split.
  - unfold decimal_value. cbn [fold_left]. rewrite byteZ_Zbyte by lia. lia.
  - constructor; [apply is_digit_Zbyte; lia | constructor].
  - discriminate.
  - intros Hpos E. cbn [hd] in E. apply Zbyte_digit_zero in E; lia.
Qed.

Lemma digits_loop_value (n : nat) :
  forall u, 0 <= u < 10 ^ Z.of_nat (S n) ->
    decimal_value (strconv.digits_loop (S n) u []) = u
    /\ Forall (fun b => is_digit b = true) (strconv.digits_loop (S n) u [])
    /\ strconv.digits_loop (S n) u [] <> []
    /\ (0 < u -> hd x00 (strconv.digits_loop (S n) u []) <> "0"%byte).
Proof.
  induction n as [| n IH]; intros u Hu.
  - cbn [strconv.digits_loop].
    destruct (Z.ltb_spec u 10) as [L | G]; [apply single_digit; lia |].
    change (10 ^ Z.of_nat 1) with 10 in Hu. lia.
  - change (strconv.digits_loop (S (S n)) u [])
      with (if u <? 10 then [Zbyte (u + 48)]
            else strconv.digits_loop (S n) (u / 10) [Zbyte (u mod 10 + 48)]).
    destruct (Z.ltb_spec u 10) as [L | G]; [apply single_digit; lia |].
    rewrite digits_loop_app.
    assert (Hq : 0 <= u / 10 < 10 ^ Z.of_nat (S n)).
    { split; [apply Z.div_pos; lia |].
      apply Z.div_lt_upper_bound; [lia |].
      rewrite (Nat2Z.inj_succ (S n)), Z.pow_succ_r in Hu by lia. lia. }
    destruct (IH (u / 10) Hq) as (Hv & Hall & Hne & Hhd).
    pose proof (Z.mod_pos_bound u 10 ltac:(lia)) as Hm.
    repeat split.
    + rewrite decimal_value_snoc, Hv, byteZ_Zbyte by lia.
      pose proof (Z.div_mod u 10 ltac:(lia)). lia.
    + apply Forall_app. split; [exact Hall |].
      constructor; [apply is_digit_Zbyte; lia | constructor].
    + intros E. apply app_eq_nil in E. destruct E as [E _]. contradiction.
    + intros _.
      assert (H : 0 < u / 10) by (apply Z.div_str_pos; lia).
      destruct (strconv.digits_loop (S n) (u / 10) []) as [| x l];
        [contradiction | exact (Hhd H)].
Qed.

Lemma FormatUint_canonical (v : Z) :
  0 <= v < 2 ^ 64 ->
  decimal_value (strconv.FormatUint v) = v
  /\ canonical_digits (strconv.FormatUint v).
Proof.
  intros Hv. unfold strconv.FormatUint, strconv.formatBits, canonical_digits.
  destruct (digits_loop_value 19 v) as (H1 & H2 & H3 & H4).
  { change (10 ^ Z.of_nat 20) with 100000000000000000000. lia. }
  repeat split; try assumption.
  destruct (Z.eq_dec v 0) as [-> | NZ]; [left; reflexivity |].
  right. apply H4. lia.
Qed.

Lemma FormatInt_negative (v : Z) :
  - 2 ^ 63 <= v < 0 ->
  strconv.FormatInt v = "-"%byte :: strconv.FormatUint (- v).
Proof.
  intros Hv. unfold strconv.FormatInt, strconv.FormatUint, strconv.formatBits,
    strconv.uint64_of_int64.
  replace (v <? 0) with true by (symmetry; apply Z.ltb_lt; lia).
  replace ((- (v mod 2 ^ 64)) mod 2 ^ 64) with (- v); [reflexivity |].
  replace (v mod 2 ^ 64) with (v + 2 ^ 64).
  - replace (- (v + 2 ^ 64)) with (- v + (-1) * 2 ^ 64) by ring.
    rewrite Z.mod_add by lia. rewrite Z.mod_small; lia.
  - symmetry. replace (v + 2 ^ 64) with (v + 1 * 2 ^ 64) by ring.
    rewrite <- (Z.mod_add v 1 (2 ^ 64)) by lia.
    apply Z.mod_small. lia.
Qed.

Lemma FormatInt_nonnegative (v : Z) :
  0 <= v < 2 ^ 63 -> strconv.FormatInt v = strconv.FormatUint v.
Proof.
  intros Hv. unfold strconv.FormatInt, strconv.FormatUint, strconv.formatBits.
  rewrite uint64_of_int64_nonneg by lia.
  replace (v <? 0) with false by (symmetry; apply Z.ltb_ge; lia).
  reflexivity.
Qed.

(** X6: what [Uint64] appends is the canonical decimal text of the value. *)
Theorem Uint64_reads_back (v : Z) (buf : bytes) :
  0 <= v < 2 ^ 64 ->
  exists ds, Uint64 v buf = buf ++ ds
             /\ decimal_value ds = v /\ canonical_digits ds.
Proof.
  intros Hv. exists (strconv.FormatUint v).
  split; [reflexivity | apply FormatUint_canonical, Hv].
Qed.

Lemma Uint64_reads_back_witness :
  0 <= 2 ^ 64 - 1 < 2 ^ 64
  /\ exists ds, Uint64 (2 ^ 64 - 1) (str "n=") = str "n=" ++ ds
                /\ decimal_value ds = 2 ^ 64 - 1 /\ canonical_digits ds.
Proof.
  assert (H : 0 <= 2 ^ 64 - 1 < 2 ^ 64) by lia.
  split; [exact H | exact (Uint64_reads_back _ (str "n=") H)].
Defined.

(** X7: what [Int64] appends reads back as the value: canonical digits,
    with a minus sign in front exactly when the value is negative. *)
Theorem Int64_reads_back (v : Z) (buf : bytes) :
  - 2 ^ 63 <= v < 2 ^ 63 ->
  exists ds, Int64 v buf
             = buf ++ (if v <? 0 then "-"%byte :: ds else ds)
             /\ decimal_value ds = Z.abs v /\ canonical_digits ds
             /\ signed_value (if v <? 0 then "-"%byte :: ds else ds) = v.
Proof.
  intros Hv. unfold Int64.
  destruct (Z.ltb_spec v 0) as [N | P].
  - rewrite FormatInt_negative by lia.
    destruct (FormatUint_canonical (- v) ltac:(lia)) as [Hval Hcan].
    exists (strconv.FormatUint (- v)).
    split; [reflexivity | split; [lia | split; [exact Hcan |]]].
    cbn [signed_value]. change (Byte.eqb "-"%byte "-"%byte) with true.
    cbv iota. lia.
  - rewrite FormatInt_nonnegative by lia.
    destruct (FormatUint_canonical v ltac:(lia)) as [Hval Hcan].
    exists (strconv.FormatUint v).
    split; [reflexivity | split; [lia | split; [exact Hcan |]]].
    destruct Hcan as (Hall & Hne & _).
    destruct (strconv.FormatUint v) as [| c rest] eqn:E; [contradiction |].
    cbn [signed_value].
    pose proof (Forall_inv Hall) as Hc. cbv beta in Hc.
    replace (Byte.eqb c "-"%byte) with false; [exact Hval |].
    symmetry. apply Bool.not_true_iff_false. intros Heq.
    apply Byte.byte_dec_bl in Heq. subst c. discriminate Hc.
Qed.

Lemma Int64_reads_back_witness :
  - 2 ^ 63 <= - 2 ^ 63 < 2 ^ 63
  /\ exists ds, Int64 (- 2 ^ 63) [] = [] ++ "-"%byte :: ds
                /\ decimal_value ds = 2 ^ 63.
Proof.
  assert (H : - 2 ^ 63 <= - 2 ^ 63 < 2 ^ 63) by lia.
  split; [exact H |].
  destruct (Int64_reads_back (- 2 ^ 63) [] H) as (ds & E & Hv & _).
  exists ds. split; [exact E | exact Hv].
Defined.

(** ** The layout of a timestamp *)

Lemma bytes_eqb_eq (a b : bytes) : bytes_eqb a b = true -> a = b.
Proof.
  revert b. induction a as [| x a IH]; intros [| y b] H;
    try discriminate; [reflexivity |].
  cbn [bytes_eqb] in H. apply andb_true_iff in H. destruct H as [H1 H2].
  apply Byte.byte_dec_bl in H1. rewrite H1, (IH b H2). reflexivity.
Qed.

Lemma appendInt_append (b : bytes) (x : Z) (width : nat) :
  time.appendInt b x width = b ++ time.appendInt [] x width.
Proof.
  unfold time.appendInt. destruct (x <? 0); cbn [app];
    rewrite <- ?app_assoc; reflexivity.
Qed.

Lemma holds_from_sound (p : Z -> bool) (n : nat) :
  forall x0, holds_from p n x0 = true ->
  forall x, x0 <= x < x0 + Z.of_nat n -> p x = true.
Proof.
  induction n as [| n IH]; intros x0 H x Hx; [lia |].
  cbn [holds_from] in H. apply andb_true_iff in H. destruct H as [H0 H1].
  destruct (Z.eq_dec x x0) as [-> | NE]; [exact H0 |].
  apply (IH (x0 + 1) H1). lia.
Qed.

Lemma appendInt_two (x : Z) :
  0 <= x < 100 -> time.appendInt [] x 2 = two_digits x.
Proof.
  intros Hx. apply bytes_eqb_eq.
  apply (holds_from_sound
           (fun x => bytes_eqb (time.appendInt [] x 2) (two_digits x))
           (Z.to_nat 100) 0).
  - vm_compute. reflexivity.
  - lia.
Qed.

Lemma appendInt_four (x : Z) :
  0 <= x < 10000 -> time.appendInt [] x 4 = four_digits x.
Proof.
  intros Hx. apply bytes_eqb_eq.
  apply (holds_from_sound
           (fun x => bytes_eqb (time.appendInt [] x 4) (four_digits x))
           (Z.to_nat 10000) 0).
  - vm_compute. reflexivity.
  - lia.
Qed.

Lemma appendNano_append (b : bytes) (nanosec : Z) :
  time.appendNano b nanosec = b ++ time.appendNano [] nanosec.
Proof.
  unfold time.appendNano. destruct (nanosec =? 0);
    [rewrite app_nil_r |]; reflexivity.
Qed.

Lemma appendZone_text (b : bytes) (offset : Z) :
  -360000 < offset < 360000 ->
  time.appendZone b offset = b ++ zone_text offset.
Proof.
  intros Ho. unfold time.appendZone, zone_text.
  destruct (offset =? 0); [reflexivity |]. cbv zeta.
  assert (Hz : -6000 < Z.quot offset 60 < 6000).
  { destruct (Z.le_gt_cases 0 offset) as [P | N].
    - rewrite Z.quot_div_nonneg by lia.
      assert (0 <= offset / 60 < 6000); [| lia].
      split; [apply Z.div_pos; lia | apply Z.div_lt_upper_bound; lia].
    - replace offset with (- - offset) by lia.
      rewrite Z.quot_opp_l, Z.quot_div_nonneg by lia.
      assert (0 <= - offset / 60 < 6000); [| lia].
      split; [apply Z.div_pos; lia | apply Z.div_lt_upper_bound; lia]. }
  set (zone := Z.quot offset 60) in *. clearbody zone.
  assert (Ha : 0 <= Z.abs zone < 6000) by lia.
  set (a := Z.abs zone) in *. clearbody a.
  rewrite Z.quot_div_nonneg, Z.rem_mod_nonneg by lia.
  rewrite (appendInt_append _ (a mod 60)), (appendInt_append _ (a / 60)).
  rewrite appendInt_two
    by (split; [apply Z.div_pos; lia | apply Z.div_lt_upper_bound; lia]).
  rewrite appendInt_two by (pose proof (Z.mod_pos_bound a 60); lia).
  destruct (zone <? 0); rewrite <- ?app_assoc; reflexivity.
Qed.

(** X8: when the fields of a time fit the widths of the layout, [Time]
    keeps the buffer and appends, between double quotes, the year in four
    digits, the month, the day, the hour, the minute and the second in two
    digits each with [-], [T] and [:] between them, the fraction of the
    second and the zone; it returns no error. *)
Theorem Time_layout (t : time.Time) (buf : bytes) :
  fits_layout t ->
  Time t buf
  = (buf ++ quote :: four_digits (time.year t)
         ++ "-"%byte :: two_digits (time.month t)
         ++ "-"%byte :: two_digits (time.day t)
         ++ "T"%byte :: two_digits (time.hour t)
         ++ ":"%byte :: two_digits (time.minute t)
         ++ ":"%byte :: two_digits (time.second t)
         ++ time.appendNano [] (time.nanosecond t)
         ++ zone_text (time.offset t) ++ [quote], None).
Proof.
  intros (Hy & Hmo & Hd & Hh & Hmi & Hs & Ho).
  rewrite Time_result. unfold time.Year.
  replace ((time.year t <? 0) || (10000 <=? time.year t)) with false
    by (symmetry; apply orb_false_iff; split;
        [apply Z.ltb_ge | apply Z.leb_gt]; lia).
  unfold time.AppendFormat_RFC3339Nano. cbv zeta.
  rewrite (appendZone_text _ _ Ho), appendNano_append.
  rewrite (appendInt_append _ (time.second t)), (appendInt_two _ Hs).
  rewrite (appendInt_append _ (time.minute t)), (appendInt_two _ Hmi).
  rewrite (appendInt_append _ (time.hour t)), (appendInt_two _ Hh).
  rewrite (appendInt_append _ (time.day t)), (appendInt_two _ Hd).
  rewrite (appendInt_append _ (time.month t)), (appendInt_two _ Hmo).
  rewrite (appendInt_append _ (time.year t)), (appendInt_four _ Hy).
  f_equal. rewrite <- !app_assoc. reflexivity.
Qed.

Lemma Time_layout_witness :
  Time (time.mkTime 2021 3 9 7 5 0 120000000 (-12600)) (str "t=")
  = (str "t=" ++ quote :: str "2021-03-09T07:05:00.12-03:30" ++ [quote],
     None).
Proof.
  rewrite (Time_layout (time.mkTime 2021 3 9 7 5 0 120000000 (-12600))
                       (str "t=")).
  - reflexivity.
  - unfold fits_layout. cbn. lia.
Defined.

(** ** The sign of a float *)

Lemma neg_add (f : float64) :
  0 <= f < 2 ^ 63 -> math.neg f = f + 2 ^ 63.
Proof.
  intros Hf. unfold math.neg. change (Z.shiftl 1 63) with (2 ^ 63).
  rewrite <- Z.add_nocarry_lxor; [reflexivity |].
  apply Z.bits_inj'. intros n Hn.
  rewrite Z.land_spec, Z.pow2_bits_eqb, Z.bits_0 by lia.
  destruct (Z.eqb_spec 63 n) as [<- | NE]; [| apply andb_false_r].
  rewrite andb_true_r.
  rewrite <- (Z.mod_small f (2 ^ 63)) by lia.
  apply Z.mod_pow2_bits_high. lia.
Qed.

Lemma ftoa_neg_ge (f : float64) :
  is_float64 f -> strconv.ftoa_neg f = (2 ^ 63 <=? f).
Proof. intros Hf. apply (signbit_div f Hf). Qed.

(** X9: the text of the negated float is the text of the float behind a minus
    sign: [Float64] writes the sign first and formats the magnitude, in
    the same notation and with the same digits, for the zero as well. *)
Theorem Float64_negated (f : float64) (buf : bytes) :
  0 <= f < 2 ^ 63 -> non_finite f = false ->
  Float64 (math.neg f) buf
  = (buf ++ "-"%byte :: fst (Float64 f []), None).
Proof.
  intros Hr Hn.
  assert (Hf : is_float64 f) by (unfold is_float64; lia).
  rewrite (neg_add f Hr).
  assert (Hg : is_float64 (f + 2 ^ 63)) by (unfold is_float64; lia).
  assert (Hm : (f + 2 ^ 63) mod 2 ^ 63 = f mod 2 ^ 63).
  { replace (f + 2 ^ 63) with (f + 1 * 2 ^ 63) by lia.
    apply Z.mod_add. lia. }
  assert (Hn' : non_finite (f + 2 ^ 63) = false).
  { unfold non_finite in *.
    rewrite (rawexp_magnitude _ Hg), Hm, <- (rawexp_magnitude _ Hf).
    exact Hn. }
  rewrite (Float64_text _ buf Hg Hn'), (Float64_text f [] Hf Hn).
  cbv zeta. cbn [fst app].
  rewrite (ftoa_mant_of _ Hg), (ftoa_exp_of _ Hg), Hm.
  rewrite <- (ftoa_mant_of _ Hf), <- (ftoa_exp_of _ Hf).
  replace (in_fixed_range (f + 2 ^ 63)) with (in_fixed_range f)
    by (unfold in_fixed_range; rewrite Hm; reflexivity).
  rewrite (ftoa_neg_ge _ Hg), (ftoa_neg_ge _ Hf).
  replace (2 ^ 63 <=? f + 2 ^ 63) with true by (symmetry; apply Z.leb_le; lia).
  replace (2 ^ 63 <=? f) with false by (symmetry; apply Z.leb_gt; lia).
  set (digs := strconv.ryuFtoaShortest _ _). clearbody digs.
  f_equal. f_equal.
  destruct (in_fixed_range f).
  - unfold fixed_point, sign_text. reflexivity.
  - reflexivity.
Qed.

Lemma Float64_negated_witness :
  Float64 (math.neg float_1e21) (str "x=")
  = (str "x=" ++ "-"%byte :: fst (Float64 float_1e21 []), None).
Proof.
  apply (Float64_negated float_1e21 (str "x=")).
  - vm_compute. split; [discriminate | reflexivity].
  - reflexivity.
Defined.

(** ** Objects *)

Section ObjectLoop.

Variable enc : any -> bytes -> encoded.
Variable fuel : nat.

Lemma Object_loop_all (mp : list (bytes * any)) (texts : list bytes) :
  Forall2 (entry_appends fuel enc) mp texts ->
  forall comma buf,
    Object_loop enc fuel mp comma buf
    = Some (buf ++ joined comma texts ++ ["}"%byte], None).
Proof.
  induction 1 as [| [k v] t mp texts (key & e & Hk & Hv & ->) _ IH];
    intros comma buf.
  - reflexivity.
  - cbn [Object_loop joined fst snd] in *.
    rewrite FieldName_appends, Hk. cbn [option_map].
    rewrite Hv, IH.
    destruct comma; rewrite <- ?app_assoc; reflexivity.
Qed.

Lemma Object_loop_first_error (pre : list (bytes * any)) (texts : list bytes) :
  Forall2 (entry_appends fuel enc) pre texts ->
  forall comma buf k v post key b' err,
    FieldName fuel k [] = Some key ->
    enc v (buf ++ joined comma texts ++ comma_after comma pre ++ key)
    = Some (b', Some err) ->
    Object_loop enc fuel (pre ++ (k, v) :: post) comma buf
    = Some (b', Some err).
Proof.
  induction 1 as [| [k0 v0] t pre texts (key0 & e0 & Hk0 & Hv0 & ->) _ IH];
    intros comma buf k v post key b' err Hk Hv.
  - cbn [app Object_loop].
    rewrite FieldName_appends, Hk. cbn [option_map].
    destruct comma; cbn [joined comma_after app] in Hv;
      rewrite <- ?app_assoc; cbn [app]; rewrite Hv; reflexivity.
  - cbn [app Object_loop fst snd] in *.
    rewrite FieldName_appends, Hk0. cbn [option_map].
    rewrite Hv0. apply (IH _ _ k v post key b' err Hk).
    cbn [joined comma_after] in Hv.
    replace (comma_after true pre) with (comma_after comma ((k0, v0) :: pre))
      by (destruct pre; reflexivity).
    cbn [comma_after].
    destruct comma; rewrite <- ?app_assoc in *; exact Hv.
Qed.

End ObjectLoop.

(** X10: when the entries of [mp], in the order [range] yields them, have
    the texts [texts], [Object] appends them between braces with one comma
    between neighbours; when the value of the entry that follows fails,
    [Object] returns the buffer and the error of that value as they are,
    the field name written and no closing brace, whatever follows. *)
Theorem Object_contract (json_Marshal : any -> bytes * option error)
        (fuel : nat) (mp : list (bytes * any)) (texts : list bytes)
        (buf : bytes) :
  Forall2 (entry_appends fuel (Value json_Marshal fuel)) mp texts ->
  Object json_Marshal fuel mp buf
  = Some (buf ++ ["{"%byte] ++ joined false texts ++ ["}"%byte], None)
  /\ forall k v post key b' err,
       FieldName fuel k [] = Some key ->
       Value json_Marshal fuel v
             (buf ++ ["{"%byte] ++ joined false texts
                  ++ comma_after false mp ++ key)
       = Some (b', Some err) ->
       Object json_Marshal fuel (mp ++ (k, v) :: post) buf
       = Some (b', Some err).
Proof.
  intros H. unfold Object. split.
  - rewrite (Object_loop_all _ _ mp texts H). rewrite <- app_assoc.
    reflexivity.
  - intros k v post key b' err Hk Hv.
    apply (Object_loop_first_error _ _ mp texts H _ _ k v post key b' err Hk).
    rewrite <- app_assoc. exact Hv.
Qed.

Lemma Object_contract_witness :
  Object no_Marshal 4 [(str "a", VInt 1); (str "b", VSlice [])] []
  = Some ("{"%byte :: quote :: "a"%byte :: quote :: str ":1,"
          ++ quote :: "b"%byte :: quote :: str ":[]}", None)
  /\ Object no_Marshal 4
            [(str "a", VInt 1); (str "b", VSlice []);
             (str "c", VFloat64 float_nan); (u2028, VInt 2)] []
     = Some ("{"%byte :: quote :: "a"%byte :: quote :: str ":1,"
             ++ quote :: "b"%byte :: quote :: str ":[],"
             ++ quote :: "c"%byte :: quote :: str ":",
             Some "unsupported value: NaN"%string).
Proof.
  assert (H : Forall2 (entry_appends 4 (Value no_Marshal 4))
                [(str "a", VInt 1); (str "b", VSlice [])]
                [quote :: "a"%byte :: quote :: str ":1";
                 quote :: "b"%byte :: quote :: str ":[]"]).
  { apply Forall2_cons; [| apply Forall2_cons; [| apply Forall2_nil]].
    - exists (quote :: "a"%byte :: quote :: str ":"), (str "1").
      split; [reflexivity | split; [intros b; reflexivity | reflexivity]].
    - exists (quote :: "b"%byte :: quote :: str ":"), (str "[]").
      split; [reflexivity | split; [| reflexivity]].
      intros b. simpl. rewrite <- app_assoc. reflexivity. }
  destruct (Object_contract no_Marshal 4 _ _ [] H) as [Hok Herr].
  split.
  - rewrite Hok. reflexivity.
  - apply (Herr (str "c") (VFloat64 float_nan) [(u2028, VInt 2)]
                (quote :: "c"%byte :: quote :: str ":")).
    + reflexivity.
    + vm_compute. reflexivity.
Defined.

(** ** Values keep the buffer *)

Lemma appendZone_append (b : bytes) (offset : Z) :
  time.appendZone b offset = b ++ time.appendZone [] offset.
Proof.
  unfold time.appendZone. destruct (offset =? 0); [reflexivity |].
  cbv zeta.
  rewrite (appendInt_append _ (Z.rem _ _)), (appendInt_append _ (Z.quot _ _)).
  symmetry.
  rewrite (appendInt_append _ (Z.rem _ _)), (appendInt_append _ (Z.quot _ _)).
  destruct (Z.quot offset 60 <? 0); cbn [app]; rewrite <- ?app_assoc;
    reflexivity.
Qed.

Lemma AppendFormat_append (t : time.Time) (b : bytes) :
  time.AppendFormat_RFC3339Nano t b
  = b ++ time.AppendFormat_RFC3339Nano t [].
Proof.
  unfold time.AppendFormat_RFC3339Nano. cbv zeta.
  rewrite appendZone_append, appendNano_append.
  rewrite (appendInt_append _ (time.second t)).
  rewrite (appendInt_append _ (time.minute t)).
  rewrite (appendInt_append _ (time.hour t)).
  rewrite (appendInt_append _ (time.day t)).
  rewrite (appendInt_append _ (time.month t)).
  rewrite (appendInt_append _ (time.year t)).
  symmetry.
  rewrite appendZone_append, appendNano_append.
  rewrite (appendInt_append _ (time.second t)).
  rewrite (appendInt_append _ (time.minute t)).
  rewrite (appendInt_append _ (time.hour t)).
  rewrite (appendInt_append _ (time.day t)).
  rewrite (appendInt_append _ (time.month t)).
  rewrite (appendInt_append _ (time.year t)).
  cbn [app]. rewrite <- !app_assoc. reflexivity.
Qed.

Section Carried.

Variable enc : any -> bytes -> encoded.
Variable fuel : nat.

Lemma Array_loop_carried (l : list any) :
  Forall (carries enc) l ->
  forall comma x b,
    carried b (Array_loop enc l comma x) (Array_loop enc l comma (b ++ x)).
Proof.
  induction 1 as [| v l Hv _ IH]; intros comma x b.
  - cbn [Array_loop carried]. rewrite <- app_assoc. reflexivity.
  - cbn [Array_loop].
    replace (if comma then (b ++ x) ++ [","%byte] else b ++ x)
      with (b ++ (if comma then x ++ [","%byte] else x))
      by (destruct comma; rewrite <- ?app_assoc; reflexivity).
    set (y := if comma then x ++ [","%byte] else x). clearbody y.
    specialize (Hv y b). unfold carried in Hv.
    destruct (enc v y) as [[o [e |]] |].
    + destruct Hv as [b' ->]. cbn [carried]. eauto.
    + rewrite Hv. apply IH.
    + rewrite Hv. reflexivity.
Qed.

Lemma Object_loop_carried (m : list (bytes * any)) :
  Forall (fun kv => carries enc (snd kv)) m ->
  forall comma x b,
    carried b (Object_loop enc fuel m comma x)
            (Object_loop enc fuel m comma (b ++ x)).
Proof.
  induction 1 as [| [k v] m Hv _ IH]; intros comma x b.
  - cbn [Object_loop carried]. rewrite <- app_assoc. reflexivity.
  - cbn [Object_loop snd] in *.
    replace (if comma then (b ++ x) ++ [","%byte] else b ++ x)
      with (b ++ (if comma then x ++ [","%byte] else x))
      by (destruct comma; rewrite <- ?app_assoc; reflexivity).
    set (y := if comma then x ++ [","%byte] else x). clearbody y.
    rewrite (FieldName_appends fuel k (b ++ y)), (FieldName_appends fuel k y).
    destruct (FieldName fuel k []) as [key |]; cbn [option_map];
      [| reflexivity].
    rewrite <- app_assoc.
    specialize (Hv (y ++ key) b). unfold carried in Hv.
    destruct (enc v (y ++ key)) as [[o [e |]] |].
    + destruct Hv as [b' ->]. cbn [carried]. eauto.
    + rewrite Hv. apply IH.
    + rewrite Hv. reflexivity.
Qed.

End Carried.

Lemma Value_carries (json_Marshal : any -> bytes * option error)
      (fuel : nat) (v : any) :
  plain v -> carries (Value json_Marshal fuel) v.
Proof.
  induction v as [s | f | i | i | u | u | t | m IHm | l IHl | a | [bb e]
                  | k i | c |] using any_nested_ind;
    intros Hp x b; cbn [Value].
  - rewrite (String_prefix fuel s (b ++ x)), (String_prefix fuel s x).
    destruct (String fuel s []) as [o |]; cbn [option_map carried];
      [rewrite <- app_assoc |]; reflexivity.
  - cbn [plain] in Hp. destruct (non_finite f) eqn:Hn.
    + rewrite !(Float64_non_finite f _ Hp Hn). cbn [carried]. eauto.
    + pose proof (Float64_text f x Hp Hn) as Hx.
      pose proof (Float64_text f (b ++ x) Hp Hn) as Hb.
      cbv zeta in Hx, Hb. rewrite Hx, Hb. cbn [carried].
      rewrite <- app_assoc. reflexivity.
  - unfold Int64. cbn [carried]. rewrite <- app_assoc. reflexivity.
  - unfold Int64. cbn [carried]. rewrite <- app_assoc. reflexivity.
  - unfold Uint64. cbn [carried]. rewrite <- app_assoc. reflexivity.
  - unfold Uint64. cbn [carried]. rewrite <- app_assoc. reflexivity.
  - rewrite !Time_result.
    destruct ((time.Year t <? 0) || (10000 <=? time.Year t)).
    + cbn [carried]. eauto.
    + cbn [carried].
      rewrite (AppendFormat_append t ((b ++ x) ++ [quote])).
      rewrite (AppendFormat_append t (x ++ [quote])).
      rewrite <- !app_assoc. reflexivity.
  - rewrite <- app_assoc. apply Object_loop_carried.
    destruct m as [| [k0 v0] [| kv m]]; cbn [plain] in Hp;
      [apply Forall_nil | | contradiction].
    apply Forall_cons; [| apply Forall_nil].
    exact (Forall_inv IHm Hp).
  - rewrite <- app_assoc. apply Array_loop_carried.
    cbn [plain] in Hp. induction IHl as [| v l Hv _ IH];
      [apply Forall_nil |].
    destruct Hp as [Hp1 Hp2].
    apply Forall_cons; [exact (Hv Hp1) | exact (IH Hp2)].
  - destruct Hp.
  - destruct e as [e |]; cbn [carried]; [eauto |].
    rewrite <- app_assoc. reflexivity.
  - destruct (json_Marshal (VIntN k i)) as [bb [e |]]; cbn [carried];
      [eauto | rewrite <- app_assoc; reflexivity].
  - destruct (json_Marshal (VBool c)) as [bb [e |]]; cbn [carried];
      [eauto | rewrite <- app_assoc; reflexivity].
  - destruct (json_Marshal VNil) as [bb [e |]]; cbn [carried];
      [eauto | rewrite <- app_assoc; reflexivity].
Qed.

(** X11: what [Value], [Object] and [Array] do does not depend on the
    buffer when the value holds no [JSONAppender] and no map of two
    entries or more, at any depth: they succeed, fail with an error or
    scan without end on a buffer as they do on the empty one, and on
    success the buffer is kept and the same text comes after it. *)
Theorem Value_keeps_buffer (json_Marshal : any -> bytes * option error)
        (fuel : nat) (buf : bytes) :
  (forall v, plain v ->
     carried buf (Value json_Marshal fuel v [])
             (Value json_Marshal fuel v buf))
  /\ (forall m, plain (VMap m) ->
        carried buf (Object json_Marshal fuel m [])
                (Object json_Marshal fuel m buf))
  /\ (forall l, plain (VSlice l) ->
        carried buf (Array json_Marshal fuel l [])
                (Array json_Marshal fuel l buf)).
Proof.
  assert (H : forall v, plain v ->
                carried buf (Value json_Marshal fuel v [])
                        (Value json_Marshal fuel v buf)).
  { intros v Hp.
    pose proof (Value_carries json_Marshal fuel v Hp [] buf) as H.
    rewrite app_nil_r in H. exact H. }
  split; [exact H |].
  split; [intros m Hp; exact (H (VMap m) Hp)
         | intros l Hp; exact (H (VSlice l) Hp)].
Qed.

Lemma Value_keeps_buffer_witness :
  Value no_Marshal 4
        (VMap [(str "a", VSlice [VInt 1; VFloat64 float_1e21;
                                 VString (str "<")])]) (str "v=")
  = Some (str "v=" ++ "{"%byte :: quote :: "a"%byte :: quote
            :: str ":[1,1e+21," ++ quote :: "\"%byte :: str "u003c"
            ++ quote :: str "]}", None).
Proof.
  assert (Hp : plain (VMap [(str "a", VSlice [VInt 1; VFloat64 float_1e21;
                                              VString (str "<")])])).
  { cbn. unfold is_float64. repeat split; vm_compute; congruence. }
  exact (proj1 (Value_keeps_buffer no_Marshal 4 (str "v=")) _ Hp).
Defined.

(** ** Sequences of calls on a buffered writer *)

Section CallFacts.

Context {W IO : Type} `{bufio.Writer W IO}.
Variable json_Marshal : any -> bytes * option error.
Variable fuel : nat.

Lemma perform_latched (c : call) (bw : BW.BufWriter) (e : error) :
  BW.Error bw = Some e -> perform json_Marshal fuel c bw = Ok bw.
Proof.
  intros He. destruct c; cbn [perform];
    unfold BW.Raw, BW.RawString, BW.RawByte, BW.Int64, BW.Uint64,
      BW.FieldName, BW.Bool, BW.Time, BW.Float64, BW.Value, BW.Object,
      BW.Array, BW.String;
    rewrite He; reflexivity.
Qed.

Lemma perform_all_latched (cs : list call) (bw : BW.BufWriter) (e : error) :
  BW.Error bw = Some e -> perform_all json_Marshal fuel cs bw = Ok bw.
Proof.
  intros He. induction cs as [| c cs IH]; [reflexivity |].
  cbn [perform_all]. rewrite (perform_latched c bw e He). exact IH.
Qed.

Lemma perform_all_app (cs1 cs2 : list call) (bw bw1 : BW.BufWriter) :
  perform_all json_Marshal fuel cs1 bw = Ok bw1 ->
  perform_all json_Marshal fuel (cs1 ++ cs2) bw = perform_all json_Marshal fuel cs2 bw1.
Proof.
  revert bw. induction cs1 as [| c cs1 IH]; intros bw H1.
  - injection H1 as <-. reflexivity.
  - cbn [app perform_all] in *.
    destruct (perform json_Marshal fuel c bw) as [bw' | |]; try discriminate.
    apply IH. exact H1.
Qed.

(** X12: the first error wins: when a run of calls has left an error in
    the writer, whatever calls follow leave the writer as it is, never
    reach the sink and never panic or scan a string, and [Flush] reports
    that first error. *)
Theorem BufWriter_first_error_wins (cs1 cs2 : list call)
        (bw bw1 : BW.BufWriter) (e : error) :
  perform_all json_Marshal fuel cs1 bw = Ok bw1 ->
  BW.Error bw1 = Some e ->
  perform_all json_Marshal fuel (cs1 ++ cs2) bw = Ok bw1
  /\ BW.Flush bw1 = Ok (bw1, Some e).
Proof.
  intros H1 He. split.
  - rewrite (perform_all_app cs1 cs2 bw bw1 H1).
    apply (perform_all_latched cs2 bw1 e He).
  - unfold BW.Flush. rewrite He. reflexivity.
Qed.

(** X13: a value that has no encoding is not written, not even in part: on
    a writer with no error, [Time] with a year outside 0..9999 and
    [Float64] with a NaN or an infinity leave the sink as it is, nil or
    not, set [Error] and leave the scratch buffer empty. *)
Theorem BufWriter_rejects_unwritten (wr : option W) (sb : bytes)
        (t : time.Time) (f : float64) :
  let bw := BW.mkBufWriter None wr sb in
  (time.Year t < 0 \/ 10000 <= time.Year t ->
   BW.Time t bw
   = Ok (BW.mkBufWriter
           (Some "Time.MarshalJSON: year outside of range [0,9999]"%string)
           wr []))
  /\ (is_float64 f -> non_finite f = true ->
      BW.Float64 f bw
      = Ok (BW.mkBufWriter
              (Some (String.append "unsupported value: "
                                   (strconv.FormatFloat_special f)))
              wr [])).
Proof.
  intros bw. split.
  - intros Hy. unfold BW.Time. cbn [BW.Error bw]. rewrite Time_result.
    replace ((time.Year t <? 0) || (10000 <=? time.Year t)) with true.
    + reflexivity.
    + symmetry. apply orb_true_iff.
      destruct Hy; [left; apply Z.ltb_lt | right; apply Z.leb_le]; assumption.
  - intros Hf Hn. unfold BW.Float64. cbn [BW.Error bw].
    rewrite (Float64_non_finite f [] Hf Hn). reflexivity.
Qed.

End CallFacts.

Lemma BufWriter_first_error_wins_witness :
  let bw := BW.NewBufWriter (mkLimited 8 []) in
  let bw1 := BW.mkBufWriter (Some "unsupported value: NaN"%string)
               (Some (mkBuffered (str "[1") (mkLimited 8 []) None)) [] in
  perform_all no_Marshal 4
    ([CRawByte "["%byte; CInt64 1; CFloat64 float_nan]
       ++ [CRawByte ","%byte; CString u2028; CInt64 2]) bw = Ok bw1
  /\ BW.Flush bw1 = Ok (bw1, Some "unsupported value: NaN"%string).
Proof.
  intros bw bw1.
  apply (BufWriter_first_error_wins no_Marshal 4
           [CRawByte "["%byte; CInt64 1; CFloat64 float_nan]
           [CRawByte ","%byte; CString u2028; CInt64 2] bw bw1).
  - vm_compute. reflexivity.
  - reflexivity.
Defined.

Lemma BufWriter_rejects_unwritten_witness :
  BW.Time (W := buffered) (time.mkTime 10000 1 1 0 0 0 0 0)
          (BW.mkBufWriter None None (str "old"))
  = Ok (BW.mkBufWriter
          (Some "Time.MarshalJSON: year outside of range [0,9999]"%string)
          None [])
  /\ BW.Float64 (W := buffered) float_nan
                (BW.mkBufWriter None None (str "old"))
     = Ok (BW.mkBufWriter (Some "unsupported value: NaN"%string) None []).
Proof.
  destruct (BufWriter_rejects_unwritten (W := buffered) None (str "old")
              (time.mkTime 10000 1 1 0 0 0 0 0) float_nan) as [Ht Hf].
  split.
  - apply Ht. right. vm_compute. discriminate.
  - apply Hf; [vm_compute; split; [discriminate | reflexivity] | reflexivity].
Defined.
